(** * Solution snapshots of the constraint solver (constraint_solver/assignment.cc)

    A shallow embedding of the assignment elements, the element container and
    the [Assignment] class, together with the properties of their store,
    restore, copy and clone protocol.

    The live variables and the propagation queue are external collaborators
    of this code.  Every call the code makes on them is kept as a node of a
    program tree ([prog]); a [Model] of the solver interprets those calls, and
    [run] returns the outcome, the final solver state and the calls that were
    issued, in order.  A fatal check or a NULL dereference ends the program
    ([Fatal]); a failure of the solver leaves it at the failing call. *)

From Stdlib Require Import ZArith Ascii DecimalString.
From stdpp Require Import gmap strings list fin_maps.

Local Open Scope Z_scope.

(** ** Machine integers and pointers *)

Definition kint64min : Z := -9223372036854775808.
Definition kint64max : Z := 9223372036854775807.

(** An [IntVar*] or [IntervalVar*] that is not NULL is the address of a live
    variable; a pointer that may be NULL is an [option]. *)
Inductive IntVar := IntVarAt (addr : positive).
Inductive IntervalVar := IntervalVarAt (addr : positive).

#[global] Instance IntVar_eq_dec : EqDecision IntVar.
Proof. solve_decision. Defined.
#[global] Instance IntervalVar_eq_dec : EqDecision IntervalVar.
Proof. solve_decision. Defined.

Definition IntVar_addr (v : IntVar) : positive := let 'IntVarAt p := v in p.
Definition IntervalVar_addr (v : IntervalVar) : positive :=
  let 'IntervalVarAt p := v in p.

(** ** Calls on the external collaborators *)

(** Const accessors that return an [int64]. *)
Inductive query :=
| IntVar_Min (v : IntVar)
| IntVar_Max (v : IntVar)
| IntervalVar_StartMin (v : IntervalVar)
| IntervalVar_StartMax (v : IntervalVar)
| IntervalVar_DurationMin (v : IntervalVar)
| IntervalVar_DurationMax (v : IntervalVar)
| IntervalVar_EndMin (v : IntervalVar)
| IntervalVar_EndMax (v : IntervalVar)
| IntervalVar_PerformedMin (v : IntervalVar)
| IntervalVar_PerformedMax (v : IntervalVar).

(** [name()] of a variable. *)
Inductive name_query :=
| IntVar_name (v : IntVar)
| IntervalVar_name (v : IntervalVar).

(** Mutators of the live variables and the two queue operations of
    [PropagationBaseObject].  A call may make the solver fail; the failure
    leaves the calling code at once (the spec: a failure is raised and
    surfaces to the enclosing search). *)
Inductive command :=
| IntVar_SetRange (v : IntVar) (l u : Z)
| IntervalVar_SetStartRange (v : IntervalVar) (mi ma : Z)
| IntervalVar_SetDurationRange (v : IntervalVar) (mi ma : Z)
| IntervalVar_SetEndRange (v : IntervalVar) (mi ma : Z)
| IntervalVar_SetPerformed (v : IntervalVar) (val : Z)
| FreezeQueue
| UnfreezeQueue.

#[global] Instance query_eq_dec : EqDecision query.
Proof. solve_decision. Defined.
#[global] Instance name_query_eq_dec : EqDecision name_query.
Proof. solve_decision. Defined.
#[global] Instance command_eq_dec : EqDecision command.
Proof. solve_decision. Defined.

Inductive event :=
| EvQuery (q : query)
| EvName (n : name_query)
| EvCommand (c : command).

#[global] Instance event_eq_dec : EqDecision event.
Proof. solve_decision. Defined.

(** The text that the [%lld] conversion of [StringPrintf] produces. *)
Definition lld (z : Z) : string := NilZero.string_of_int (Z.to_int z).

(** ** Results of code that may hit a fatal check *)

Inductive result (A : Type) : Type :=
| Ok (a : A)
| Abort.
Arguments Ok {A} a.
Arguments Abort {A}.

#[global] Instance result_ret : MRet result := @Ok.
#[global] Instance result_bind : MBind result := λ A B f r,
  match r with
  | Ok a => f a
  | Abort => Abort
  end.

#[global] Instance result_fmap : FMap result := λ A B f r,
  match r with
  | Ok a => Ok (f a)
  | Abort => Abort
  end.

(** [CHECK(c)] *)
Definition CHECK (c : bool) : result unit := if c then Ok tt else Abort.

(** ** Programs over the solver interface *)

Inductive prog (A : Type) : Type :=
| Ret (a : A)
| Query (q : query) (k : Z → prog A)
| Name (n : name_query) (k : string → prog A)
| Command (c : command) (k : prog A)
| Fatal.
Arguments Ret {A} a.
Arguments Query {A} q k.
Arguments Name {A} n k.
Arguments Command {A} c k.
Arguments Fatal {A}.

Fixpoint prog_then {A B} (p : prog A) (f : A → prog B) : prog B :=
  match p with
  | Ret a => f a
  | Query q k => Query q (λ z, prog_then (k z) f)
  | Name n k => Name n (λ s, prog_then (k s) f)
  | Command c k => Command c (prog_then k f)
  | Fatal => Fatal
  end.

#[global] Instance prog_ret : MRet prog := @Ret.
#[global] Instance prog_bind : MBind prog := λ A B f p, prog_then p f.

Definition ask (q : query) : prog Z := Query q Ret.
Definition ask_name (n : name_query) : prog string := Name n Ret.
Definition call (c : command) : prog unit := Command c (Ret tt).
Definition lift {A} (r : result A) : prog A :=
  match r with
  | Ok a => Ret a
  | Abort => Fatal
  end.

(** [p->method(...)]: a call through a pointer, fatal when it is NULL. *)
Definition via {V A} (p : option V) (f : V → prog A) : prog A :=
  match p with
  | Some v => f v
  | None => Fatal
  end.

(** A model of the solver: its state, what the accessors read in it, and what
    a call does to it ([None] when the solver fails). *)
Record Model := {
  World : Type;
  answer : query → World → Z;
  answer_name : name_query → World → string;
  step : command → World → option World;
}.

Inductive outcome (A : Type) : Type :=
| Returned (a : A)
| Failed
| Aborted.
Arguments Returned {A} a.
Arguments Failed {A}.
Arguments Aborted {A}.

Fixpoint run (M : Model) {A} (p : prog A) (w : World M)
  : outcome A * World M * list event :=
  match p with
  | Ret a => (Returned a, w, [])
  | Query q k =>
      let '(o, w', t) := run M (k (answer M q w)) w in (o, w', EvQuery q :: t)
  | Name n k =>
      let '(o, w', t) := run M (k (answer_name M n w)) w in
      (o, w', EvName n :: t)
  | Command c k =>
      match step M c w with
      | Some w1 => let '(o, w', t) := run M k w1 in (o, w', EvCommand c :: t)
      | None => (Failed, w, [EvCommand c])
      end
  | Fatal => (Aborted, w, [])
  end.

(** ** Elements *)

(** The element classes are declared in constraint_solver.h, which is not
    part of the sources; assignment.cc defines their [Reset], [Clone], [Copy]
    and [DebugString], and [Store] and [Restore] of the interval element.
    What the header holds is modelled from the spec and marked as such. *)
Module IntVarElement.

(** Modelled from the spec: the members of [IntVarElement] (declared in the
    header), as the data model of the spec lists them: the variable, which
    may be NULL, the two 64-bit bounds and the activation flag of the common
    base of the elements. *)
Record t := Build {
  var_ : option IntVar;
  min_ : Z;
  max_ : Z;
  activated_ : bool;
}.

#[global] Instance eq_dec : EqDecision t.
Proof. solve_decision. Defined.

(** Modelled from the spec: the inline getters of the header. *)
Definition Var (e : t) : option IntVar := var_ e.
Definition Min (e : t) : Z := min_ e.
Definition Max (e : t) : Z := max_ e.
Definition Bound (e : t) : bool := bool_decide (min_ e = max_ e).

(** Modelled from the spec: [Value()] of the header, which is only legal
    when the minimum and the maximum agree. *)
Definition Value (e : t) : result Z :=
  _ ← CHECK (Bound e); Ok (min_ e).

(** Modelled from the spec: the inline setters of the header; they store the
    values and check nothing. *)
Definition SetMin (m : Z) (e : t) : t :=
  Build (var_ e) m (max_ e) (activated_ e).
Definition SetMax (m : Z) (e : t) : t :=
  Build (var_ e) (min_ e) m (activated_ e).
Definition SetRange (l u : Z) (e : t) : t :=
  Build (var_ e) l u (activated_ e).
Definition SetValue (v : Z) (e : t) : t :=
  Build (var_ e) v v (activated_ e).

(** Modelled from the spec: the activation flag of the header, a soft flag
    that keeps the stored bounds. *)
Definition Activate (e : t) : t := Build (var_ e) (min_ e) (max_ e) true.
Definition Deactivate (e : t) : t := Build (var_ e) (min_ e) (max_ e) false.
Definition Activated (e : t) : bool := activated_ e.

(** [IntVarElement::Reset] *)
Definition Reset (var : option IntVar) (e : t) : t :=
  Build var kint64min kint64max (activated_ e).

(** Modelled from the spec: the members before the body of a constructor
    runs.  The constructor of the base class (in the header) has set the
    activation flag, which the spec gives as true on construction; the other
    members are not initialised, and [Reset] overwrites all of them. *)
Definition uninitialised : t := Build None 0 0 true.

(** [IntVarElement::IntVarElement()] and [IntVarElement(IntVar* var)] *)
Definition default : t := Reset None uninitialised.
Definition new (var : option IntVar) : t := Reset var uninitialised.

(** [IntVarElement::Copy] *)
Definition Copy (element : t) (e : t) : t :=
  let e := SetRange (min_ element) (max_ element) e in
  let e := Build (var_ element) (min_ e) (max_ e) (activated_ e) in
  if Activated element then Activate e else Deactivate e.

(** [IntVarElement::Clone]: the fresh element, to be placed on the heap by
    the caller. *)
Definition Clone (e : t) : t := Copy e default.

(** Modelled from the spec: [IntVarElement::Store], inline in the header;
    it reads the accessor pair of the live variable into the stored fields. *)
Definition Store (e : t) : prog t :=
  mi ← via (var_ e) (λ v, ask (IntVar_Min v));
  ma ← via (var_ e) (λ v, ask (IntVar_Max v));
  mret (Build (var_ e) mi ma (activated_ e)).

(** Modelled from the spec: [IntVarElement::Restore], inline in the header;
    it always pushes the stored range. *)
Definition Restore (e : t) : prog unit :=
  via (var_ e) (λ v, call (IntVar_SetRange v (min_ e) (max_ e))).

(** [IntVarElement::DebugString] *)
Definition DebugString (e : t) : string :=
  if Activated e then
    if bool_decide (min_ e = max_ e) then
      "(" +:+ lld (min_ e) +:+ ")"
    else
      "(" +:+ lld (min_ e) +:+ ".." +:+ lld (max_ e) +:+ ")"
  else "(...)".

End IntVarElement.

Module IntervalVarElement.

(** Modelled from the spec: the members of [IntervalVarElement] (declared in
    the header), as the data model of the spec lists them. *)
Record t := Build {
  var_ : option IntervalVar;
  start_min_ : Z;
  start_max_ : Z;
  duration_min_ : Z;
  duration_max_ : Z;
  end_min_ : Z;
  end_max_ : Z;
  performed_min_ : Z;
  performed_max_ : Z;
  activated_ : bool;
}.

#[global] Instance eq_dec : EqDecision t.
Proof. solve_decision. Defined.

(** Modelled from the spec: the inline getters of the header. *)
Definition Var (e : t) : option IntervalVar := var_ e.
Definition StartMin (e : t) : Z := start_min_ e.
Definition StartMax (e : t) : Z := start_max_ e.
Definition DurationMin (e : t) : Z := duration_min_ e.
Definition DurationMax (e : t) : Z := duration_max_ e.
Definition EndMin (e : t) : Z := end_min_ e.
Definition EndMax (e : t) : Z := end_max_ e.
Definition PerformedMin (e : t) : Z := performed_min_ e.
Definition PerformedMax (e : t) : Z := performed_max_ e.

(** Modelled from the spec: the inline setters of the header; they store the
    values and check nothing. *)
Definition SetStartRange (mi ma : Z) (e : t) : t :=
  Build (var_ e) mi ma (duration_min_ e) (duration_max_ e)
        (end_min_ e) (end_max_ e) (performed_min_ e) (performed_max_ e)
        (activated_ e).
Definition SetStartMin (m : Z) (e : t) : t := SetStartRange m (start_max_ e) e.
Definition SetStartMax (m : Z) (e : t) : t := SetStartRange (start_min_ e) m e.
Definition SetStartValue (v : Z) (e : t) : t := SetStartRange v v e.

Definition SetDurationRange (mi ma : Z) (e : t) : t :=
  Build (var_ e) (start_min_ e) (start_max_ e) mi ma
        (end_min_ e) (end_max_ e) (performed_min_ e) (performed_max_ e)
        (activated_ e).
Definition SetDurationMin (m : Z) (e : t) : t :=
  SetDurationRange m (duration_max_ e) e.
Definition SetDurationMax (m : Z) (e : t) : t :=
  SetDurationRange (duration_min_ e) m e.
Definition SetDurationValue (v : Z) (e : t) : t := SetDurationRange v v e.

Definition SetEndRange (mi ma : Z) (e : t) : t :=
  Build (var_ e) (start_min_ e) (start_max_ e)
        (duration_min_ e) (duration_max_ e) mi ma
        (performed_min_ e) (performed_max_ e) (activated_ e).
Definition SetEndMin (m : Z) (e : t) : t := SetEndRange m (end_max_ e) e.
Definition SetEndMax (m : Z) (e : t) : t := SetEndRange (end_min_ e) m e.
Definition SetEndValue (v : Z) (e : t) : t := SetEndRange v v e.

Definition SetPerformedRange (mi ma : Z) (e : t) : t :=
  Build (var_ e) (start_min_ e) (start_max_ e)
        (duration_min_ e) (duration_max_ e) (end_min_ e) (end_max_ e)
        mi ma (activated_ e).
Definition SetPerformedMin (m : Z) (e : t) : t :=
  SetPerformedRange m (performed_max_ e) e.
Definition SetPerformedMax (m : Z) (e : t) : t :=
  SetPerformedRange (performed_min_ e) m e.
Definition SetPerformedValue (v : Z) (e : t) : t := SetPerformedRange v v e.

(** Modelled from the spec: the activation flag of the header. *)
Definition set_activated (b : bool) (e : t) : t :=
  Build (var_ e) (start_min_ e) (start_max_ e)
        (duration_min_ e) (duration_max_ e) (end_min_ e) (end_max_ e)
        (performed_min_ e) (performed_max_ e) b.
Definition Activate (e : t) : t := set_activated true e.
Definition Deactivate (e : t) : t := set_activated false e.
Definition Activated (e : t) : bool := activated_ e.

(** [IntervalVarElement::Reset] *)
Definition Reset (var : option IntervalVar) (e : t) : t :=
  Build var kint64min kint64max kint64min kint64max kint64min kint64max
        0 1 (activated_ e).

(** Modelled from the spec: the members before the body of a constructor
    runs; the base class has set the activation flag to true. *)
Definition uninitialised : t := Build None 0 0 0 0 0 0 0 0 true.

(** [IntervalVarElement::IntervalVarElement()] and
    [IntervalVarElement(IntervalVar* var)] *)
Definition default : t := Reset None uninitialised.
Definition new (var : option IntervalVar) : t := Reset var uninitialised.

(** [IntervalVarElement::Copy] *)
Definition Copy (element : t) (e : t) : t :=
  let e := SetStartRange (start_min_ element) (start_max_ element) e in
  let e := SetDurationRange (duration_min_ element) (duration_max_ element) e in
  let e := SetEndRange (end_min_ element) (end_max_ element) e in
  let e :=
    SetPerformedRange (performed_min_ element) (performed_max_ element) e in
  let e :=
    Build (var_ element) (start_min_ e) (start_max_ e)
          (duration_min_ e) (duration_max_ e) (end_min_ e) (end_max_ e)
          (performed_min_ e) (performed_max_ e) (activated_ e) in
  if Activated element then Activate e else Deactivate e.

(** [IntervalVarElement::Clone] *)
Definition Clone (e : t) : t := Copy e default.

(** [IntervalVarElement::Store] *)
Definition Store (e : t) : prog t :=
  performed_min ← via (var_ e) (λ v, ask (IntervalVar_PerformedMin v));
  performed_max ← via (var_ e) (λ v, ask (IntervalVar_PerformedMax v));
  if bool_decide (performed_max ≠ 0) then
    start_min ← via (var_ e) (λ v, ask (IntervalVar_StartMin v));
    start_max ← via (var_ e) (λ v, ask (IntervalVar_StartMax v));
    duration_min ← via (var_ e) (λ v, ask (IntervalVar_DurationMin v));
    duration_max ← via (var_ e) (λ v, ask (IntervalVar_DurationMax v));
    end_min ← via (var_ e) (λ v, ask (IntervalVar_EndMin v));
    end_max ← via (var_ e) (λ v, ask (IntervalVar_EndMax v));
    mret (Build (var_ e) start_min start_max duration_min duration_max
                end_min end_max performed_min performed_max (activated_ e))
  else
    mret (Build (var_ e) (start_min_ e) (start_max_ e)
                (duration_min_ e) (duration_max_ e) (end_min_ e) (end_max_ e)
                performed_min performed_max (activated_ e)).

(** [IntervalVarElement::Restore] *)
Definition Restore (e : t) : prog unit :=
  (if bool_decide (performed_max_ e = performed_min_ e) then
     via (var_ e) (λ v,
       call (IntervalVar_SetPerformed v (performed_min_ e)))
   else mret tt);;
  if bool_decide (performed_max_ e ≠ 0) then
    via (var_ e) (λ v,
      call (IntervalVar_SetStartRange v (start_min_ e) (start_max_ e)));;
    via (var_ e) (λ v,
      call (IntervalVar_SetDurationRange v
              (duration_min_ e) (duration_max_ e)));;
    via (var_ e) (λ v,
      call (IntervalVar_SetEndRange v (end_min_ e) (end_max_ e)))
  else mret tt.

(** [IntervalVarElement::DebugString] *)
Definition DebugString (e : t) : string :=
  if Activated e then
    let out := "(start = " +:+ lld (start_min_ e) in
    let out :=
      if bool_decide (start_max_ e ≠ start_min_ e)
      then out +:+ ".." +:+ lld (start_max_ e) else out in
    let out := out +:+ ", duration = " +:+ lld (duration_min_ e) in
    let out :=
      if bool_decide (duration_max_ e ≠ duration_min_ e)
      then out +:+ ".." +:+ lld (duration_max_ e) else out in
    let out := out +:+ ", status = " +:+ lld (performed_min_ e) in
    let out :=
      if bool_decide (performed_max_ e ≠ performed_min_ e)
      then out +:+ ".." +:+ lld (performed_max_ e) else out in
    out
  else "(...)".

End IntervalVarElement.

(** ** The element container *)

(** The operations that [AssignmentContainer<V, E>] needs from its element
    type [E] over the variable type [V]. *)
Class AssignmentElement (V E : Type) := {
  elt_new : option V → E;
  elt_Var : E → option V;
  elt_Copy : E → E → E;
  elt_Store : E → prog E;
  elt_Restore : E → prog unit;
  elt_Activated : E → bool;
  elt_DebugString : E → string;
  elt_name : V → name_query;
}.

#[global] Instance IntVarElement_element
  : AssignmentElement IntVar IntVarElement.t := {
  elt_new := IntVarElement.new;
  elt_Var := IntVarElement.Var;
  elt_Copy := IntVarElement.Copy;
  elt_Store := IntVarElement.Store;
  elt_Restore := IntVarElement.Restore;
  elt_Activated := IntVarElement.Activated;
  elt_DebugString := IntVarElement.DebugString;
  elt_name := IntVar_name;
}.

#[global] Instance IntervalVarElement_element
  : AssignmentElement IntervalVar IntervalVarElement.t := {
  elt_new := IntervalVarElement.new;
  elt_Var := IntervalVarElement.Var;
  elt_Copy := IntervalVarElement.Copy;
  elt_Store := IntervalVarElement.Store;
  elt_Restore := IntervalVarElement.Restore;
  elt_Activated := IntervalVarElement.Activated;
  elt_DebugString := IntervalVarElement.DebugString;
  elt_name := IntervalVar_name;
}.

(** The class template [AssignmentContainer] is defined in the header, which
    is not part of the sources: every definition of this module is modelled
    from the spec. *)
Module AssignmentContainer.

(** Modelled from the spec: the container, an ordered sequence of elements.
    The lookup index from a variable to its position is a cache of what a
    scan of the sequence finds, so the scan stands for it. *)
Record t (E : Type) := Build { elements_ : list E }.
Arguments Build {E} elements_.
Arguments elements_ {E} _.

Section Container.
Context {V E : Type} `{EqDecision V} `{AssignmentElement V E}.

(** Modelled from the spec: the empty container and [Size()]. *)
Definition empty : t E := Build [].

Definition Size (c : t E) : nat := length (elements_ c).

(** Modelled from the spec: the position of the element of a variable. *)
Definition Find (var : option V) (c : t E) : option nat :=
  fst <$> list_find (λ e, elt_Var e = var) (elements_ c).

(** Modelled from the spec: [Contains(var)], an existence check that never
    fails. *)
Definition Contains (var : option V) (c : t E) : bool :=
  bool_decide (is_Some (Find var c)).

(** Modelled from the spec: [FastAdd(var)], the unchecked append; the
    reference it returns is the position of the new element. *)
Definition FastAdd (var : option V) (c : t E) : t E * nat :=
  (Build (elements_ c ++ [elt_new var]), length (elements_ c)).

(** Modelled from the spec: [Add(var)], the checked insert; it returns the
    existing element of the variable, or appends a fresh one. *)
Definition Add (var : option V) (c : t E) : t E * nat :=
  match Find var c with
  | Some i => (c, i)
  | None => FastAdd var c
  end.

(** Modelled from the spec: the positional [Element(i)]. *)
Definition ElementAt (i : nat) (c : t E) : result E :=
  match elements_ c !! i with
  | Some e => Ok e
  | None => Abort
  end.

(** Modelled from the spec: [Element(var)], the lookup by variable, fatal
    when the variable was never added. *)
Definition Element (var : option V) (c : t E) : result E :=
  match Find var c with
  | Some i => ElementAt i c
  | None => Abort
  end.

(** Modelled from the spec: [MutableElement(var).f(...)], a mutator applied
    in place to the element of a variable, fatal when the variable was never
    added. *)
Definition MutableElement (var : option V) (f : E → E) (c : t E)
  : result (t E) :=
  match Find var c with
  | Some i => Ok (Build (alter f i (elements_ c)))
  | None => Abort
  end.

(** Modelled from the spec: [Clear()] drops all elements. *)
Definition Clear (c : t E) : t E := Build [].

(** Modelled from the spec: the loop of [Store()]. *)
Fixpoint store_all (l : list E) : prog (list E) :=
  match l with
  | [] => mret []
  | e :: l => e' ← elt_Store e; l' ← store_all l; mret (e' :: l')
  end.

(** Modelled from the spec: [Store()] calls [Store()] on every element, in
    order. *)
Definition Store (c : t E) : prog (t E) :=
  l ← store_all (elements_ c); mret (Build l).

(** Modelled from the spec: the loop of [Restore()]. *)
Fixpoint restore_all (l : list E) : prog unit :=
  match l with
  | [] => mret tt
  | e :: l =>
      (if elt_Activated e then elt_Restore e else mret tt);; restore_all l
  end.

(** Modelled from the spec: [Restore()] calls [Restore()] on every element,
    in order; the stored bounds of a deactivated element are ignored. *)
Definition Restore (c : t E) : prog unit := restore_all (elements_ c).

(** Modelled from the spec: one step of [Copy], which finds or creates the
    element of the variable of [element] and value-copies [element] into
    it. *)
Definition copy_element (c : t E) (element : E) : t E :=
  let '(c, i) := Add (elt_Var element) c in
  Build (alter (elt_Copy element) i (elements_ c)).

(** Modelled from the spec: [Copy(container)], a merge of [container] into
    this container. *)
Definition Copy (container : t E) (c : t E) : t E :=
  foldl copy_element c (elements_ container).

End Container.
End AssignmentContainer.

(** ** Assignment *)

Module Assignment.

(** The objective element is owned through a pointer ([obj_element_]); the
    elements that such pointers address live in a heap. *)
Abbreviation heap := (gmap positive IntVarElement.t).

(** Modelled from the spec: the members of [Assignment] (declared in the
    header), named as assignment.cc uses them.  The two containers are
    members by value; [obj_element_] and [objective_] are pointers. *)
Record t := Build {
  int_var_container_ : AssignmentContainer.t IntVarElement.t;
  interval_var_container_ : AssignmentContainer.t IntervalVarElement.t;
  obj_element_ : option positive;
  objective_ : option IntVar;
}.

Definition set_int_var_container (c : AssignmentContainer.t IntVarElement.t)
  (this : t) : t :=
  Build c (interval_var_container_ this) (obj_element_ this) (objective_ this).

Definition set_interval_var_container
  (c : AssignmentContainer.t IntervalVarElement.t) (this : t) : t :=
  Build (int_var_container_ this) c (obj_element_ this) (objective_ this).

(** [*p] of an element pointer that is not NULL; reading a pointer that
    addresses no element is fatal. *)
Definition deref (h : heap) (l : positive) : result IntVarElement.t :=
  match h !! l with
  | Some e => Ok e
  | None => Abort
  end.

(** [new IntVarElement(...)]: the element is placed at an address that is not
    in use. *)
Definition alloc (e : IntVarElement.t) (h : heap) : positive * heap :=
  let l := fresh (dom h) in (l, <[l := e]> h).

(** [delete p]; nothing happens when [p] is NULL. *)
Definition free (p : option positive) (h : heap) : heap :=
  match p with
  | Some l => delete l h
  | None => h
  end.

(** [p->f(...)] for a mutator [f] of the element. *)
Definition update (l : positive) (f : IntVarElement.t → IntVarElement.t)
  (h : heap) : result heap :=
  e ← deref h l; Ok (<[l := f e]> h).

(** [Assignment::Assignment(Solver* s)] *)
Definition new : t :=
  Build AssignmentContainer.empty AssignmentContainer.empty None None.

(** [Assignment::Assignment(const Assignment* copy)] *)
Definition copy_construct (copy : t) (h : heap) : result (t * heap) :=
  let this :=
    Build (int_var_container_ copy) (interval_var_container_ copy)
          None None in
  match obj_element_ copy with
  | Some l =>
      e ← deref h l;
      let '(l', h) := alloc (IntVarElement.Clone e) h in
      Ok (Build (int_var_container_ this) (interval_var_container_ this)
                (Some l') (objective_ copy), h)
  | None => Ok (this, h)
  end.

(** [Assignment::~Assignment] *)
Definition destroy (this : t) (h : heap) : heap := free (obj_element_ this) h.

(** [Assignment::Clear] *)
Definition Clear (this : t) (h : heap) : t * heap :=
  let h := free (obj_element_ this) h in
  (Build (AssignmentContainer.Clear (int_var_container_ this))
         (AssignmentContainer.Clear (interval_var_container_ this))
         None None, h).

(** [Assignment::Store] *)
Definition Store (this : t) (h : heap) : prog (t * heap) :=
  ic ← AssignmentContainer.Store (int_var_container_ this);
  let this := set_int_var_container ic this in
  vc ← AssignmentContainer.Store (interval_var_container_ this);
  let this := set_interval_var_container vc this in
  match obj_element_ this with
  | Some l =>
      e ← lift (deref h l);
      e' ← IntVarElement.Store e;
      mret (this, <[l := e']> h)
  | None => mret (this, h)
  end.

(** [Assignment::Restore] *)
Definition Restore (this : t) : prog unit :=
  call FreezeQueue;;
  AssignmentContainer.Restore (int_var_container_ this);;
  AssignmentContainer.Restore (interval_var_container_ this);;
  call UnfreezeQueue.

(** The loops of [Assignment::DebugString] over a container. *)
Fixpoint append_elements {V E} `{AssignmentElement V E}
  (out : string) (l : list E) : prog string :=
  match l with
  | [] => mret out
  | element :: l =>
      name ← via (elt_Var element) (λ v, ask_name (elt_name v));
      append_elements
        (out +:+ name +:+ " " +:+ elt_DebugString element +:+ " | ") l
  end.

(** [Assignment::DebugString] *)
Definition DebugString (this : t) (h : heap) : prog string :=
  let out := "Assignment(" in
  out ← append_elements out
          (AssignmentContainer.elements_ (int_var_container_ this));
  out ← append_elements out
          (AssignmentContainer.elements_ (interval_var_container_ this));
  out ← match obj_element_ this with
        | Some l =>
            e ← lift (deref h l);
            mret (if IntVarElement.Activated e
                  then out +:+ IntVarElement.DebugString e else out)
        | None => mret out
        end;
  mret (out +:+ ")").

(** [Assignment::Add(IntVar* v)] and [FastAdd]; the reference they return
    is the position of the element. *)
Definition Add (v : option IntVar) (this : t) : t * nat :=
  let '(c, i) := AssignmentContainer.Add v (int_var_container_ this) in
  (set_int_var_container c this, i).

Definition AddAll (vs : list (option IntVar)) (this : t) : t :=
  foldl (λ this v, fst (Add v this)) this vs.

Definition FastAdd (v : option IntVar) (this : t) : t * nat :=
  let '(c, i) := AssignmentContainer.FastAdd v (int_var_container_ this) in
  (set_int_var_container c this, i).

(** Accessors of the element of an integer variable. *)
Definition int_element (v : option IntVar) (this : t)
  : result IntVarElement.t :=
  AssignmentContainer.Element v (int_var_container_ this).

Definition Min (v : option IntVar) (this : t) : result Z :=
  IntVarElement.Min <$> int_element v this.
Definition Max (v : option IntVar) (this : t) : result Z :=
  IntVarElement.Max <$> int_element v this.
Definition Value (v : option IntVar) (this : t) : result Z :=
  int_element v this ≫= IntVarElement.Value.
Definition Bound (v : option IntVar) (this : t) : result bool :=
  IntVarElement.Bound <$> int_element v this.

(** Mutators of the element of an integer variable. *)
Definition int_mutable (v : option IntVar)
  (f : IntVarElement.t → IntVarElement.t) (this : t) : result t :=
  c ← AssignmentContainer.MutableElement v f (int_var_container_ this);
  Ok (set_int_var_container c this).

Definition SetMin v (m : Z) := int_mutable v (IntVarElement.SetMin m).
Definition SetMax v (m : Z) := int_mutable v (IntVarElement.SetMax m).
Definition SetRange v (l u : Z) := int_mutable v (IntVarElement.SetRange l u).
Definition SetValue v (value : Z) :=
  int_mutable v (IntVarElement.SetValue value).

(** Interval variables. *)
Definition AddInterval (v : option IntervalVar) (this : t) : t * nat :=
  let '(c, i) := AssignmentContainer.Add v (interval_var_container_ this) in
  (set_interval_var_container c this, i).

Definition AddAllInterval (vars : list (option IntervalVar)) (this : t) : t :=
  foldl (λ this v, fst (AddInterval v this)) this vars.

Definition FastAddInterval (v : option IntervalVar) (this : t) : t * nat :=
  let '(c, i) :=
    AssignmentContainer.FastAdd v (interval_var_container_ this) in
  (set_interval_var_container c this, i).

Definition interval_element (v : option IntervalVar) (this : t)
  : result IntervalVarElement.t :=
  AssignmentContainer.Element v (interval_var_container_ this).

Definition StartMin v this :=
  IntervalVarElement.StartMin <$> interval_element v this.
Definition StartMax v this :=
  IntervalVarElement.StartMax <$> interval_element v this.
Definition DurationMin v this :=
  IntervalVarElement.DurationMin <$> interval_element v this.
Definition DurationMax v this :=
  IntervalVarElement.DurationMax <$> interval_element v this.
Definition EndMin v this :=
  IntervalVarElement.EndMin <$> interval_element v this.
Definition EndMax v this :=
  IntervalVarElement.EndMax <$> interval_element v this.
Definition PerformedMin v this :=
  IntervalVarElement.PerformedMin <$> interval_element v this.
Definition PerformedMax v this :=
  IntervalVarElement.PerformedMax <$> interval_element v this.

Definition interval_mutable (v : option IntervalVar)
  (f : IntervalVarElement.t → IntervalVarElement.t) (this : t) : result t :=
  c ← AssignmentContainer.MutableElement v f (interval_var_container_ this);
  Ok (set_interval_var_container c this).

Definition SetStartMin v (m : Z) :=
  interval_mutable v (IntervalVarElement.SetStartMin m).
Definition SetStartMax v (m : Z) :=
  interval_mutable v (IntervalVarElement.SetStartMax m).
Definition SetStartRange v (mi ma : Z) :=
  interval_mutable v (IntervalVarElement.SetStartRange mi ma).
Definition SetStartValue v (value : Z) :=
  interval_mutable v (IntervalVarElement.SetStartValue value).
Definition SetDurationMin v (m : Z) :=
  interval_mutable v (IntervalVarElement.SetDurationMin m).
Definition SetDurationMax v (m : Z) :=
  interval_mutable v (IntervalVarElement.SetDurationMax m).
Definition SetDurationRange v (mi ma : Z) :=
  interval_mutable v (IntervalVarElement.SetDurationRange mi ma).
Definition SetDurationValue v (value : Z) :=
  interval_mutable v (IntervalVarElement.SetDurationValue value).
Definition SetEndMin v (m : Z) :=
  interval_mutable v (IntervalVarElement.SetEndMin m).
Definition SetEndMax v (m : Z) :=
  interval_mutable v (IntervalVarElement.SetEndMax m).
Definition SetEndRange v (mi ma : Z) :=
  interval_mutable v (IntervalVarElement.SetEndRange mi ma).
Definition SetEndValue v (value : Z) :=
  interval_mutable v (IntervalVarElement.SetEndValue value).
Definition SetPerformedMin v (m : Z) :=
  interval_mutable v (IntervalVarElement.SetPerformedMin m).
Definition SetPerformedMax v (m : Z) :=
  interval_mutable v (IntervalVarElement.SetPerformedMax m).
Definition SetPerformedRange v (mi ma : Z) :=
  interval_mutable v (IntervalVarElement.SetPerformedRange mi ma).
Definition SetPerformedValue v (value : Z) :=
  interval_mutable v (IntervalVarElement.SetPerformedValue value).

(** [Assignment::AddObjective] *)
Definition AddObjective (v : option IntVar) (this : t) (h : heap)
  : result (t * heap) :=
  _ ← CHECK (bool_decide (obj_element_ this = None));
  let '(l, h) := alloc (IntVarElement.new v) h in
  Ok (Build (int_var_container_ this) (interval_var_container_ this)
            (Some l) v, h).

Definition Objective (this : t) : option IntVar := objective_ this.

Definition HasObjective (this : t) : bool :=
  bool_decide (obj_element_ this ≠ None).

Definition ObjectiveMin (this : t) (h : heap) : result Z :=
  match obj_element_ this with
  | Some l => IntVarElement.Min <$> deref h l
  | None => Ok 0
  end.

Definition ObjectiveMax (this : t) (h : heap) : result Z :=
  match obj_element_ this with
  | Some l => IntVarElement.Max <$> deref h l
  | None => Ok 0
  end.

Definition ObjectiveValue (this : t) (h : heap) : result Z :=
  match obj_element_ this with
  | Some l => deref h l ≫= IntVarElement.Value
  | None => Ok 0
  end.

Definition ObjectiveBound (this : t) (h : heap) : result bool :=
  match obj_element_ this with
  | Some l => IntVarElement.Bound <$> deref h l
  | None => Ok true
  end.

(** The setters and the activation of the objective do nothing when there is
    no objective. *)
Definition obj_mutable (f : IntVarElement.t → IntVarElement.t)
  (this : t) (h : heap) : result heap :=
  match obj_element_ this with
  | Some l => update l f h
  | None => Ok h
  end.

Definition SetObjectiveMin (m : Z) := obj_mutable (IntVarElement.SetMin m).
Definition SetObjectiveMax (m : Z) := obj_mutable (IntVarElement.SetMax m).
Definition SetObjectiveRange (l u : Z) :=
  obj_mutable (IntVarElement.SetRange l u).
Definition SetObjectiveValue (value : Z) :=
  obj_mutable (IntVarElement.SetValue value).

Definition Activate b := int_mutable b IntVarElement.Activate.
Definition Deactivate b := int_mutable b IntVarElement.Deactivate.
Definition Activated b this := IntVarElement.Activated <$> int_element b this.

Definition ActivateInterval b :=
  interval_mutable b IntervalVarElement.Activate.
Definition DeactivateInterval b :=
  interval_mutable b IntervalVarElement.Deactivate.
Definition ActivatedInterval b this :=
  IntervalVarElement.Activated <$> interval_element b this.

Definition ActivateObjective := obj_mutable IntVarElement.Activate.
Definition DeactivateObjective := obj_mutable IntVarElement.Deactivate.
Definition ActivatedObjective (this : t) (h : heap) : result bool :=
  match obj_element_ this with
  | Some l => IntVarElement.Activated <$> deref h l
  | None => Ok true
  end.

Definition Contains (var : option IntVar) (this : t) : bool :=
  AssignmentContainer.Contains var (int_var_container_ this).
Definition ContainsInterval (var : option IntervalVar) (this : t) : bool :=
  AssignmentContainer.Contains var (interval_var_container_ this).

(** [Assignment::Copy] *)
Definition Copy (assignment : t) (this : t) (h : heap) : result (t * heap) :=
  let this :=
    set_int_var_container
      (AssignmentContainer.Copy (int_var_container_ assignment)
                                (int_var_container_ this)) this in
  let this :=
    set_interval_var_container
      (AssignmentContainer.Copy (interval_var_container_ assignment)
                                (interval_var_container_ this)) this in
  match obj_element_ assignment, obj_element_ this with
  | Some obj_element, Some l =>
      e ← deref h obj_element;
      h ← update l (IntVarElement.SetRange (IntVarElement.Min e)
                                           (IntVarElement.Max e)) h;
      e ← deref h obj_element;
      h ← (if IntVarElement.Activated e
           then update l IntVarElement.Activate h
           else update l IntVarElement.Deactivate h);
      Ok (this, h)
  | _, _ => Ok (this, h)
  end.

(** The public operations of an Assignment that change it or the live
    variables, as values, so that properties can range over all of them and
    over sequences of them. *)
Inductive int_setter :=
| iSetMin (m : Z)
| iSetMax (m : Z)
| iSetRange (l u : Z)
| iSetValue (value : Z)
| iActivate
| iDeactivate.

Inductive interval_setter :=
| vSetStartMin (m : Z)
| vSetStartMax (m : Z)
| vSetStartRange (mi ma : Z)
| vSetStartValue (value : Z)
| vSetDurationMin (m : Z)
| vSetDurationMax (m : Z)
| vSetDurationRange (mi ma : Z)
| vSetDurationValue (value : Z)
| vSetEndMin (m : Z)
| vSetEndMax (m : Z)
| vSetEndRange (mi ma : Z)
| vSetEndValue (value : Z)
| vSetPerformedMin (m : Z)
| vSetPerformedMax (m : Z)
| vSetPerformedRange (mi ma : Z)
| vSetPerformedValue (value : Z)
| vActivate
| vDeactivate.

Inductive method :=
| mClear
| mStore
| mRestore
| mAdd (v : option IntVar)
| mAddAll (vs : list (option IntVar))
| mFastAdd (v : option IntVar)
| mSet (v : option IntVar) (s : int_setter)
| mAddInterval (v : option IntervalVar)
| mAddAllInterval (vs : list (option IntervalVar))
| mFastAddInterval (v : option IntervalVar)
| mSetInterval (v : option IntervalVar) (s : interval_setter)
| mAddObjective (v : option IntVar)
| mSetObjective (s : int_setter)
| mCopy (assignment : t).

Definition invoke_int_setter (v : option IntVar) (s : int_setter) (this : t)
  : result t :=
  match s with
  | iSetMin m => SetMin v m this
  | iSetMax m => SetMax v m this
  | iSetRange l u => SetRange v l u this
  | iSetValue value => SetValue v value this
  | iActivate => Activate v this
  | iDeactivate => Deactivate v this
  end.

Definition invoke_interval_setter (v : option IntervalVar)
  (s : interval_setter) (this : t) : result t :=
  match s with
  | vSetStartMin m => SetStartMin v m this
  | vSetStartMax m => SetStartMax v m this
  | vSetStartRange mi ma => SetStartRange v mi ma this
  | vSetStartValue value => SetStartValue v value this
  | vSetDurationMin m => SetDurationMin v m this
  | vSetDurationMax m => SetDurationMax v m this
  | vSetDurationRange mi ma => SetDurationRange v mi ma this
  | vSetDurationValue value => SetDurationValue v value this
  | vSetEndMin m => SetEndMin v m this
  | vSetEndMax m => SetEndMax v m this
  | vSetEndRange mi ma => SetEndRange v mi ma this
  | vSetEndValue value => SetEndValue v value this
  | vSetPerformedMin m => SetPerformedMin v m this
  | vSetPerformedMax m => SetPerformedMax v m this
  | vSetPerformedRange mi ma => SetPerformedRange v mi ma this
  | vSetPerformedValue value => SetPerformedValue v value this
  | vActivate => ActivateInterval v this
  | vDeactivate => DeactivateInterval v this
  end.

Definition invoke_objective_setter (s : int_setter) (this : t) (h : heap)
  : result heap :=
  match s with
  | iSetMin m => SetObjectiveMin m this h
  | iSetMax m => SetObjectiveMax m this h
  | iSetRange l u => SetObjectiveRange l u this h
  | iSetValue value => SetObjectiveValue value this h
  | iActivate => ActivateObjective this h
  | iDeactivate => DeactivateObjective this h
  end.

(** One call on the Assignment [this]. *)
Definition invoke (m : method) (this : t) (h : heap) : prog (t * heap) :=
  match m with
  | mClear => mret (Clear this h)
  | mStore => Store this h
  | mRestore => Restore this;; mret (this, h)
  | mAdd v => mret ((Add v this).1, h)
  | mAddAll vs => mret (AddAll vs this, h)
  | mFastAdd v => mret ((FastAdd v this).1, h)
  | mSet v s => this ← lift (invoke_int_setter v s this); mret (this, h)
  | mAddInterval v => mret ((AddInterval v this).1, h)
  | mAddAllInterval vs => mret (AddAllInterval vs this, h)
  | mFastAddInterval v => mret ((FastAddInterval v this).1, h)
  | mSetInterval v s =>
      this ← lift (invoke_interval_setter v s this); mret (this, h)
  | mAddObjective v => lift (AddObjective v this h)
  | mSetObjective s =>
      h ← lift (invoke_objective_setter s this h); mret (this, h)
  | mCopy assignment => lift (Copy assignment this h)
  end.

(** A sequence of calls on the same Assignment. *)
Fixpoint invoke_all (ms : list method) (this : t) (h : heap)
  : prog (t * heap) :=
  match ms with
  | [] => mret (this, h)
  | m :: ms => '(this, h) ← invoke m this h; invoke_all ms this h
  end.

(** What can be observed of an Assignment: its containers, its objective
    variable and the objective element that its pointer addresses. *)
Definition view (this : t) (h : heap)
  : AssignmentContainer.t IntVarElement.t
    * AssignmentContainer.t IntervalVarElement.t
    * option IntVar * option (option IntVarElement.t) :=
  (int_var_container_ this, interval_var_container_ this, objective_ this,
   (λ l, h !! l) <$> obj_element_ this).

End Assignment.

(** ** A reference solver *)

(** Modelled from the spec: the variables and the propagation queue are
    external collaborators that the sources only call.  This reference solver
    follows what the spec says of their interface: a mutator narrows the live
    domain to its intersection with the pushed range and fails when that
    intersection is empty; forcing a performed status that the variable
    excludes fails; freeze suspends the queue and unfreeze resumes it.  No
    constraint is posted in it, so resuming the queue changes no domain. *)
Module Engine.

Record IntVarState := BuildIntVar {
  lo : Z;
  hi : Z;
  int_name : string;
}.

Record IntervalVarState := BuildIntervalVar {
  start_lo : Z;
  start_hi : Z;
  duration_lo : Z;
  duration_hi : Z;
  end_lo : Z;
  end_hi : Z;
  performed_lo : Z;
  performed_hi : Z;
  interval_name : string;
}.

Record state := Build {
  int_vars : gmap positive IntVarState;
  interval_vars : gmap positive IntervalVarState;
  freeze_level : nat;
}.

#[global] Instance IntVarState_eq_dec : EqDecision IntVarState.
Proof. solve_decision. Defined.
#[global] Instance IntervalVarState_eq_dec : EqDecision IntervalVarState.
Proof. solve_decision. Defined.
#[global] Instance state_eq_dec : EqDecision state.
Proof. solve_decision. Defined.

Definition read_int (f : IntVarState → Z) (v : IntVar) (s : state) : Z :=
  from_option f 0 (int_vars s !! IntVar_addr v).

Definition read_interval (f : IntervalVarState → Z) (v : IntervalVar)
  (s : state) : Z :=
  from_option f 0 (interval_vars s !! IntervalVar_addr v).

Definition answer (q : query) (s : state) : Z :=
  match q with
  | IntVar_Min v => read_int lo v s
  | IntVar_Max v => read_int hi v s
  | IntervalVar_StartMin v => read_interval start_lo v s
  | IntervalVar_StartMax v => read_interval start_hi v s
  | IntervalVar_DurationMin v => read_interval duration_lo v s
  | IntervalVar_DurationMax v => read_interval duration_hi v s
  | IntervalVar_EndMin v => read_interval end_lo v s
  | IntervalVar_EndMax v => read_interval end_hi v s
  | IntervalVar_PerformedMin v => read_interval performed_lo v s
  | IntervalVar_PerformedMax v => read_interval performed_hi v s
  end.

Definition answer_name (n : name_query) (s : state) : string :=
  match n with
  | IntVar_name v => from_option int_name "" (int_vars s !! IntVar_addr v)
  | IntervalVar_name v =>
      from_option interval_name "" (interval_vars s !! IntervalVar_addr v)
  end.

(** The intersection of a domain with a pushed range, when it is not empty. *)
Definition narrow (l u mi ma : Z) : option (Z * Z) :=
  let l' := Z.max l mi in
  let u' := Z.min u ma in
  if bool_decide (l' ≤ u') then Some (l', u') else None.

Definition set_int (v : IntVar) (f : IntVarState → option IntVarState)
  (s : state) : option state :=
  x ← int_vars s !! IntVar_addr v;
  x' ← f x;
  Some (Build (<[IntVar_addr v := x']> (int_vars s)) (interval_vars s)
              (freeze_level s)).

Definition set_interval (v : IntervalVar)
  (f : IntervalVarState → option IntervalVarState) (s : state)
  : option state :=
  x ← interval_vars s !! IntervalVar_addr v;
  x' ← f x;
  Some (Build (int_vars s) (<[IntervalVar_addr v := x']> (interval_vars s))
              (freeze_level s)).

Definition step (c : command) (s : state) : option state :=
  match c with
  | IntVar_SetRange v l u =>
      set_int v (λ x,
        '(l', u') ← narrow (lo x) (hi x) l u;
        Some (BuildIntVar l' u' (int_name x))) s
  | IntervalVar_SetStartRange v mi ma =>
      set_interval v (λ x,
        '(l', u') ← narrow (start_lo x) (start_hi x) mi ma;
        Some (BuildIntervalVar l' u' (duration_lo x) (duration_hi x)
                (end_lo x) (end_hi x) (performed_lo x) (performed_hi x)
                (interval_name x))) s
  | IntervalVar_SetDurationRange v mi ma =>
      set_interval v (λ x,
        '(l', u') ← narrow (duration_lo x) (duration_hi x) mi ma;
        Some (BuildIntervalVar (start_lo x) (start_hi x) l' u'
                (end_lo x) (end_hi x) (performed_lo x) (performed_hi x)
                (interval_name x))) s
  | IntervalVar_SetEndRange v mi ma =>
      set_interval v (λ x,
        '(l', u') ← narrow (end_lo x) (end_hi x) mi ma;
        Some (BuildIntervalVar (start_lo x) (start_hi x)
                (duration_lo x) (duration_hi x) l' u'
                (performed_lo x) (performed_hi x) (interval_name x))) s
  | IntervalVar_SetPerformed v val =>
      set_interval v (λ x,
        let p := if bool_decide (val ≠ 0) then 1 else 0 in
        '(l', u') ← narrow (performed_lo x) (performed_hi x) p p;
        Some (BuildIntervalVar (start_lo x) (start_hi x)
                (duration_lo x) (duration_hi x) (end_lo x) (end_hi x)
                l' u' (interval_name x))) s
  | FreezeQueue =>
      Some (Build (int_vars s) (interval_vars s) (S (freeze_level s)))
  | UnfreezeQueue =>
      Some (Build (int_vars s) (interval_vars s) (pred (freeze_level s)))
  end.

Definition model : Model := Build_Model state answer answer_name step.

(** The start, duration and end domains of an interval variable. *)
Definition timing (v : IntervalVar) (s : state) : list Z :=
  [ read_interval start_lo v s; read_interval start_hi v s;
    read_interval duration_lo v s; read_interval duration_hi v s;
    read_interval end_lo v s; read_interval end_hi v s ].

(** The domain of an integer variable. *)
Definition domain (v : IntVar) (s : state) : Z * Z :=
  (read_int lo v s, read_int hi v s).

End Engine.

(** ** Spec-side descriptions, to be compared with the code *)

(** The calls that the spec prescribes for the restore of an interval element
    bound to [v]: force the performed status when it is decided, then push
    the three ranges unless the element is unperformed. *)
Definition Restore_calls (v : IntervalVar) (e : IntervalVarElement.t)
  : list command :=
  (if bool_decide (IntervalVarElement.performed_min_ e
                   = IntervalVarElement.performed_max_ e)
   then [IntervalVar_SetPerformed v (IntervalVarElement.performed_min_ e)]
   else [])
  ++
  (if bool_decide (IntervalVarElement.performed_max_ e ≠ 0)
   then [IntervalVar_SetStartRange v (IntervalVarElement.start_min_ e)
                                     (IntervalVarElement.start_max_ e);
         IntervalVar_SetDurationRange v (IntervalVarElement.duration_min_ e)
                                        (IntervalVarElement.duration_max_ e);
         IntervalVar_SetEndRange v (IntervalVarElement.end_min_ e)
                                   (IntervalVarElement.end_max_ e)]
   else []).

(** Issuing a list of calls in order; a call that makes the solver fail ends
    the sequence. *)
Fixpoint perform (M : Model) (cs : list command) (w : World M)
  : outcome unit * World M * list event :=
  match cs with
  | [] => (Returned tt, w, [])
  | c :: cs =>
      match step M c w with
      | Some w1 =>
          let '(o, w', t) := perform M cs w1 in (o, w', EvCommand c :: t)
      | None => (Failed, w, [EvCommand c])
      end
  end.

(** The rendering of a range that the spec prescribes: a single value when
    the bounds agree, [min..max] otherwise. *)
Definition render_range (mi ma : Z) : string :=
  if bool_decide (mi = ma) then lld mi else lld mi +:+ ".." +:+ lld ma.

Fixpoint last_char (s : string) : option ascii :=
  match s with
  | EmptyString => None
  | String c EmptyString => Some c
  | String _ s => last_char s
  end.

Definition is_digit (c : ascii) : Prop :=
  c ∈ ["0"; "1"; "2"; "3"; "4"; "5"; "6"; "7"; "8"; "9"]%char.

(** A push of a start, duration or end range. *)
Definition timing_push (ev : event) : bool :=
  match ev with
  | EvCommand (IntervalVar_SetStartRange _ _ _)
  | EvCommand (IntervalVar_SetDurationRange _ _ _)
  | EvCommand (IntervalVar_SetEndRange _ _ _) => true
  | _ => false
  end.

(** A call on the propagation queue. *)
Definition queue_event (ev : event) : bool :=
  match ev with
  | EvCommand FreezeQueue | EvCommand UnfreezeQueue => true
  | _ => false
  end.

(** The variable that an event writes, when it is a push on an integer
    variable. *)
Definition written_int_var (ev : event) : option IntVar :=
  match ev with
  | EvCommand (IntVar_SetRange v _ _) => Some v
  | _ => None
  end.

(** The state of the solver after the calls of a trace; the call that made
    the solver fail, if any, is the last one and changes nothing. *)
Definition replay (M : Model) (t : list event) (w : World M) : World M :=
  foldl (λ w ev,
           match ev with
           | EvCommand c => default w (step M c w)
           | _ => w
           end) w t.

(** The events of the restore of the two containers of an Assignment: no
    call on the queue, and every push on an integer variable is the push of
    the stored range of an activated element of that variable. *)
Definition restores_element (this : Assignment.t) (ev : event) : Prop :=
  queue_event ev = false
  ∧ ∀ v, written_int_var ev = Some v →
      ∃ e, e ∈ AssignmentContainer.elements_
                 (Assignment.int_var_container_ this)
           ∧ IntVarElement.Activated e = true
           ∧ IntVarElement.var_ e = Some v
           ∧ ev = EvCommand (IntVar_SetRange v (IntVarElement.min_ e)
                                               (IntVarElement.max_ e)).

(** The part of [Assignment::Restore] between the two calls on the queue. *)
Definition Restore_elements (this : Assignment.t) : prog unit :=
  AssignmentContainer.Restore (Assignment.int_var_container_ this);;
  AssignmentContainer.Restore (Assignment.interval_var_container_ this).

(** The invariant of an Assignment and the heap: the objective variable is
    set only together with the objective element, and the pointer to the
    objective element addresses an element. *)
Definition Assignment_wf (this : Assignment.t) (h : Assignment.heap) : Prop :=
  (Assignment.obj_element_ this = None → Assignment.objective_ this = None)
  ∧ (∀ l, Assignment.obj_element_ this = Some l → is_Some (h !! l)).

(** ** Sample states *)

Module Sample.

Definition x : IntVar := IntVarAt 1.
Definition y : IntVar := IntVarAt 2.
Definition z : IntVar := IntVarAt 3.
Definition task : IntervalVar := IntervalVarAt 1.
Definition idle : IntervalVar := IntervalVarAt 2.

(** x and y in [0, 10], z in [8, 10]; an undecided task and an unperformed
    one; the queue is not frozen. *)
Definition solver : Engine.state :=
  Engine.Build
    (<[1%positive := Engine.BuildIntVar 0 10 "x"]>
      (<[2%positive := Engine.BuildIntVar 0 10 "y"]>
        (<[3%positive := Engine.BuildIntVar 8 10 "z"]> ∅)))
    (<[1%positive := Engine.BuildIntervalVar 0 100 5 5 5 105 0 1 "task"]>
      (<[2%positive := Engine.BuildIntervalVar 0 50 2 2 2 52 0 0 "idle"]> ∅))
    0.

(** An element of [task] stored as performed, with start in [10, 20]. *)
Definition performed_task : IntervalVarElement.t :=
  IntervalVarElement.Build (Some task) 10 20 5 5 15 25 1 1 true.

(** An element of [task] that is unperformed and still holds the ranges of an
    earlier performed state. *)
Definition unperformed_task : IntervalVarElement.t :=
  IntervalVarElement.Build (Some task) 10 20 5 5 15 25 0 0 true.

(** An element of [idle] that holds the ranges of an earlier performed
    state. *)
Definition stale_idle : IntervalVarElement.t :=
  IntervalVarElement.Build (Some idle) 10 20 5 5 15 25 1 1 true.

(** An Assignment that tracks [x] with the stored value 3 and [y] with the
    stored range [5, 7]. *)
Definition tracked : Assignment.t :=
  Assignment.Build
    (AssignmentContainer.Build
       [IntVarElement.Build (Some x) 3 3 true;
        IntVarElement.Build (Some y) 5 7 true])
    (AssignmentContainer.Build [performed_task])
    None None.

(** An Assignment whose element of [z], a variable that lies in [8, 10],
    holds the range [5, 7]. *)
Definition infeasible : Assignment.t :=
  Assignment.Build
    (AssignmentContainer.Build
       [IntVarElement.Build (Some x) 3 3 true;
        IntVarElement.Build (Some z) 5 7 true;
        IntVarElement.Build (Some y) 5 7 true])
    AssignmentContainer.empty
    None None.

(** [tracked] with the objective [z], which is in neither container. *)
Definition objective_heap : Assignment.heap :=
  <[1%positive := IntVarElement.new (Some z)]> ∅.

Definition with_objective : Assignment.t :=
  Assignment.Build (Assignment.int_var_container_ tracked)
    (Assignment.interval_var_container_ tracked) (Some 1%positive) (Some z).

(** Another Assignment: it tracks [x], deactivated, and [z], and its
    objective is [y], stored as [4, 6] and deactivated. *)
Definition other : Assignment.t :=
  Assignment.Build
    (AssignmentContainer.Build
       [IntVarElement.Build (Some x) 1 2 false;
        IntVarElement.Build (Some z) 9 9 true])
    AssignmentContainer.empty
    (Some 2%positive) (Some y).

Definition two_heap : Assignment.heap :=
  <[2%positive := IntVarElement.Build (Some y) 4 6 false]> objective_heap.

(** A fresh Assignment after [AddObjective(x)], and the heap that holds its
    objective element. *)
Definition x_heap : Assignment.heap :=
  <[1%positive := IntVarElement.new (Some x)]> ∅.

Definition with_x : Assignment.t :=
  Assignment.Build AssignmentContainer.empty AssignmentContainer.empty
    (Some 1%positive) (Some x).

End Sample.

(** ** The name index of a container *)

(** The two lines that [IdToElementMap] logs. *)
Definition empty_name_log : string :=
  "Cannot save/load variables with empty name; variable will be ignored".

Definition duplicate_name_log (name : string) : string :=
  "Cannot save/load variables with duplicate names: " +:+ name
  +:+ "; variable will be ignored".

(** The loop of [IdToElementMap] from position [i] on.  A pointer to an
    element of the container is the position of the element; the lines given
    to [LOG(INFO)] are collected in order. *)
Fixpoint IdToElementMap_loop {V E} `{AssignmentElement V E}
  (i : nat) (elements : list E)
  (id_to_element_map : gmap string nat) (log : list string)
  : prog (gmap string nat * list string) :=
  match elements with
  | [] => mret (id_to_element_map, log)
  | element :: elements =>
      name ← via (elt_Var element) (λ var, ask_name (elt_name var));
      if bool_decide (name = "") then
        IdToElementMap_loop (S i) elements id_to_element_map
          (log ++ [empty_name_log])
      else if bool_decide (is_Some (id_to_element_map !! name)) then
        IdToElementMap_loop (S i) elements id_to_element_map
          (log ++ [duplicate_name_log name])
      else
        IdToElementMap_loop (S i) elements (<[name := i]> id_to_element_map)
          log
  end.

(** [IdToElementMap]: the map is an output parameter, given by a pointer that
    must not be NULL; what it held before is cleared. *)
Definition IdToElementMap {V E} `{AssignmentElement V E}
  (container : AssignmentContainer.t E)
  (id_to_element_map : option (gmap string nat))
  : prog (gmap string nat * list string) :=
  lift (CHECK (bool_decide (id_to_element_map ≠ None)));;
  IdToElementMap_loop 0 (AssignmentContainer.elements_ container) ∅ [].

(** ** The search nodes *)

(** [RestoreAssignment::Next] and [StoreAssignment::Next]: the decision they
    return is a pointer, NULL here.  The store node changes the Assignment it
    points to, which is returned with the heap. *)
Module RestoreAssignment.

Definition Next (assignment_ : Assignment.t) : prog (option positive) :=
  Assignment.Restore assignment_;; mret None.

End RestoreAssignment.

Module StoreAssignment.

Definition Next (assignment_ : Assignment.t) (h : Assignment.heap)
  : prog (option positive * (Assignment.t * Assignment.heap)) :=
  r ← Assignment.Store assignment_ h; mret (None, r).

End StoreAssignment.

(** ** Further descriptions *)

(** An event that is not a call of a mutator or of the queue. *)
Definition is_read (ev : event) : bool :=
  match ev with
  | EvCommand _ => false
  | _ => true
  end.

(** A program only reads the solver: in every state it leaves the state as
    it is, issues no call of a mutator or of the queue, and so does not end in
    a failure of the solver. *)
Definition only_reads {A} (M : Model) (p : prog A) : Prop :=
  ∀ w : World M,
    (run M p w).1.2 = w
    ∧ Forall (λ ev, is_read ev = true) (run M p w).2
    ∧ (run M p w).1.1 ≠ Failed.

(** The objective slot is consistent: the objective variable is set only
    together with the objective element, the pointer addresses an element,
    and that element is bound to the objective variable. *)
Definition objective_slot_ok (this : Assignment.t) (h : Assignment.heap)
  : Prop :=
  match Assignment.obj_element_ this with
  | Some l =>
      ∃ e, h !! l = Some e ∧ IntVarElement.var_ e = Assignment.objective_ this
  | None => Assignment.objective_ this = None
  end.

(** The names that the elements of a list have in a state of the solver; an
    element without variable has none. *)
Definition element_names {V E} `{AssignmentElement V E} (M : Model)
  (w : World M) (elements : list E) : list (option string) :=
  (λ e, (λ v, answer_name M (elt_name v) w) <$> elt_Var e) <$> elements.

(** Pushing its own current domain back to an interval variable succeeds and
    changes nothing: the status when it is decided, the three ranges when the
    variable may be performed. *)
Definition own_domain_idle (M : Model) (w : World M) (v : IntervalVar)
  : Prop :=
  (answer M (IntervalVar_PerformedMax v) w
   = answer M (IntervalVar_PerformedMin v) w →
   step M (IntervalVar_SetPerformed v
             (answer M (IntervalVar_PerformedMin v) w)) w = Some w)
  ∧ (answer M (IntervalVar_PerformedMax v) w ≠ 0 →
     step M (IntervalVar_SetStartRange v
               (answer M (IntervalVar_StartMin v) w)
               (answer M (IntervalVar_StartMax v) w)) w = Some w
     ∧ step M (IntervalVar_SetDurationRange v
                 (answer M (IntervalVar_DurationMin v) w)
                 (answer M (IntervalVar_DurationMax v) w)) w = Some w
     ∧ step M (IntervalVar_SetEndRange v
                 (answer M (IntervalVar_EndMin v) w)
                 (answer M (IntervalVar_EndMax v) w)) w = Some w).

(** Restoring what the variables of two lists hold is idle in a state [w] of
    a solver: freezing the queue leads to a state [wf] in which every accessor
    reads what it reads in [w] and from which unfreezing leads back to [w],
    and in [wf] the push of its own domain to any of the variables succeeds
    and changes nothing. *)
Definition own_domains_idle (M : Model) (w wf : World M)
  (ints : list IntVar) (intervals : list IntervalVar) : Prop :=
  step M FreezeQueue w = Some wf
  ∧ step M UnfreezeQueue wf = Some w
  ∧ (∀ q, answer M q wf = answer M q w)
  ∧ Forall (λ v, step M (IntVar_SetRange v (answer M (IntVar_Min v) wf)
                           (answer M (IntVar_Max v) wf)) wf
                 = Some wf) ints
  ∧ Forall (own_domain_idle M wf) intervals.

(** ** Further sample states *)

Module NamedSample.

(** Four integer variables: two are named [load], one has no name, one is
    named [cost]. *)
Definition solver : Engine.state :=
  Engine.Build
    (<[1%positive := Engine.BuildIntVar 0 1 "load"]>
      (<[2%positive := Engine.BuildIntVar 0 1 ""]>
        (<[3%positive := Engine.BuildIntVar 0 1 "load"]>
          (<[4%positive := Engine.BuildIntVar 0 9 "cost"]> ∅))))
    ∅ 0.

(** A container that tracks the four variables, in the order of their
    addresses. *)
Definition container : AssignmentContainer.t IntVarElement.t :=
  AssignmentContainer.Build
    [IntVarElement.new (Some (IntVarAt 1));
     IntVarElement.new (Some (IntVarAt 2));
     IntVarElement.new (Some (IntVarAt 3));
     IntVarElement.new (Some (IntVarAt 4))].

(** The sample solver with the queue frozen once. *)
Definition frozen_solver : Engine.state :=
  Engine.Build (Engine.int_vars Sample.solver)
    (Engine.interval_vars Sample.solver) 1.

End NamedSample.

(** * Properties *)

(** ** Running programs *)

Lemma run_bind (M : Model) {A B} (p : prog A) (f : A → prog B) (w : World M) :
  run M (p ≫= f) w =
  match run M p w with
  | (Returned a, w1, t1) =>
      let '(o, w2, t2) := run M (f a) w1 in (o, w2, t1 ++ t2)
  | (Failed, w1, t1) => (Failed, w1, t1)
  | (Aborted, w1, t1) => (Aborted, w1, t1)
  end.
Proof.
  unfold mbind, prog_bind. revert w.
  induction p as [a|q k IH|n k IH|c k IH|]; intros w; simpl.
  - destruct (run M (f a) w) as [[o w2] t2]. reflexivity.
  - rewrite IH. destruct (run M (k _) w) as [[[a| |] w1] t1]; try reflexivity.
    destruct (run M (f a) w1) as [[o w2] t2]. reflexivity.
  - rewrite IH. destruct (run M (k _) w) as [[[a| |] w1] t1]; try reflexivity.
    destruct (run M (f a) w1) as [[o w2] t2]. reflexivity.
  - destruct (step M c w) as [w0|]; [|reflexivity].
    rewrite IH. destruct (run M k w0) as [[[a| |] w1] t1]; try reflexivity.
    destruct (run M (f a) w1) as [[o w2] t2]. reflexivity.
  - reflexivity.
Qed.

Lemma run_call (M : Model) (c : command) (w : World M) :
  run M (call c) w =
  match step M c w with
  | Some w1 => (Returned tt, w1, [EvCommand c])
  | None => (Failed, w, [EvCommand c])
  end.
Proof. simpl. destruct (step M c w); reflexivity. Qed.

(** ** Elements *)

(** C4, as stated, fails: [Reset] does not touch the activation flag, so an
    element that was deactivated is still deactivated after [Reset], for both
    kinds of element. *)
Lemma Reset_leaves_deactivated_element_deactivated :
  IntVarElement.Activated
    (IntVarElement.Reset (Some Sample.x)
       (IntVarElement.Deactivate (IntVarElement.new (Some Sample.x)))) = false
  ∧ IntervalVarElement.Activated
      (IntervalVarElement.Reset None
         (IntervalVarElement.Deactivate
            (IntervalVarElement.new (Some Sample.task)))) = false.
Proof. split; reflexivity. Qed.

(** C4, amended: for every element (integer or interval) and every variable
    argument (NULL included), [Reset] rebinds the element to that variable and
    sets the stored bounds to the widest 64-bit signed range (for intervals,
    also the performed status to undecided: 0 and 1); the activation flag is
    left as it was.  An element is active when it is constructed. *)
Theorem Reset_rebinds_and_widens_keeps_activation :
  (∀ (var : option IntVar) (e : IntVarElement.t),
     IntVarElement.Reset var e
     = IntVarElement.Build var (-2 ^ 63) (2 ^ 63 - 1)
         (IntVarElement.Activated e))
  ∧ (∀ (var : option IntervalVar) (e : IntervalVarElement.t),
       IntervalVarElement.Reset var e
       = IntervalVarElement.Build var (-2 ^ 63) (2 ^ 63 - 1)
           (-2 ^ 63) (2 ^ 63 - 1) (-2 ^ 63) (2 ^ 63 - 1) 0 1
           (IntervalVarElement.Activated e))
  ∧ (∀ var, IntVarElement.Activated (IntVarElement.new var) = true)
  ∧ (∀ var, IntervalVarElement.Activated (IntervalVarElement.new var) = true).
Proof. repeat split. Qed.

Lemma IntervalVarElement_Restore_perform (M : Model) (w : World M)
  (e : IntervalVarElement.t) (v : IntervalVar) :
  IntervalVarElement.var_ e = Some v →
  run M (IntervalVarElement.Restore e) w = perform M (Restore_calls v e) w.
Proof.
  intros Hv. unfold IntervalVarElement.Restore, Restore_calls.
  rewrite Hv. simpl via.
  destruct e as [var smin smax dmin dmax emin emax pmin pmax act]; simpl in *.
  rewrite run_bind.
  destruct (bool_decide_reflect (pmax = pmin)) as [Heq|Hne].
  - rewrite (bool_decide_eq_true_2 (pmin = pmax)) by done.
    rewrite run_call. simpl.
    destruct (step M _ w) as [w1|]; [|reflexivity].
    destruct (bool_decide (pmax ≠ 0)); simpl; [|reflexivity].
    destruct (step M _ w1) as [w2|]; [|reflexivity].
    destruct (step M _ w2) as [w3|]; [|reflexivity].
    destruct (step M _ w3) as [w4|]; reflexivity.
  - rewrite (bool_decide_eq_false_2 (pmin = pmax)) by congruence. simpl.
    destruct (bool_decide (pmax ≠ 0)); simpl; [|reflexivity].
    destruct (step M _ w) as [w2|]; [|reflexivity].
    destruct (step M _ w2) as [w3|]; [|reflexivity].
    destruct (step M _ w3) as [w4|]; reflexivity.
Qed.

(** C1: an interval element bound to a variable restores by issuing exactly
    the calls of [Restore_calls], in that order: the performed status is
    forced first, and only when the stored minimum and maximum agree; the
    start, duration and end ranges are pushed next, and only when the stored
    performed maximum is not 0.  No range is pushed for an element whose
    performed maximum is 0, and in the reference solver its start, duration
    and end domains are then the same after the restore as before. *)
Theorem IntervalVarElement_Restore_calls
  (e : IntervalVarElement.t) (v : IntervalVar) :
  IntervalVarElement.var_ e = Some v →
  (∀ (M : Model) (w : World M),
     run M (IntervalVarElement.Restore e) w = perform M (Restore_calls v e) w
     ∧ Forall (λ ev, timing_push ev = true
                     → IntervalVarElement.performed_max_ e ≠ 0)
         (run M (IntervalVarElement.Restore e) w).2)
  ∧ (∀ (s : Engine.state) (v' : IntervalVar),
       IntervalVarElement.performed_max_ e = 0 →
       Engine.timing v'
         (run Engine.model (IntervalVarElement.Restore e) s).1.2
       = Engine.timing v' s).
Proof.
  intros Hv. split.
  - intros M w. split; [by apply IntervalVarElement_Restore_perform|].
    rewrite (IntervalVarElement_Restore_perform M w e v Hv).
    unfold Restore_calls.
    destruct (bool_decide_reflect (IntervalVarElement.performed_max_ e ≠ 0))
      as [Hp|Hp].
    + apply Forall_forall. intros; assumption.
    + rewrite app_nil_r. case_bool_decide; simpl; [|constructor].
      destruct (step M _ w); simpl; repeat constructor; discriminate.
  - intros s v' Hp.
    rewrite (IntervalVarElement_Restore_perform Engine.model s e v Hv).
    unfold Restore_calls.
    rewrite (bool_decide_eq_false_2 (_ ≠ 0)) by (intros H; apply H, Hp).
    rewrite app_nil_r. case_bool_decide; simpl; [|reflexivity].
    unfold Engine.set_interval.
    destruct (Engine.interval_vars s !! IntervalVar_addr v) as [x|] eqn:Hx;
      simpl; [|reflexivity].
    destruct (Engine.narrow _ _ _ _) as [[l' u']|]; simpl; [|reflexivity].
    unfold Engine.timing, Engine.read_interval. simpl.
    destruct (decide (IntervalVar_addr v = IntervalVar_addr v')) as [<-|Hne].
    + rewrite lookup_insert_eq, Hx. reflexivity.
    + rewrite lookup_insert_ne by done. reflexivity.
Qed.

(** The witness of C1: the unperformed element of the sample task forces the
    status and pushes no range; the performed one pushes the three ranges
    after the status. *)
Lemma IntervalVarElement_Restore_calls_witness :
  IntervalVarElement.var_ Sample.unperformed_task = Some Sample.task
  ∧ (run Engine.model (IntervalVarElement.Restore Sample.unperformed_task)
       Sample.solver).2
    = [EvCommand (IntervalVar_SetPerformed Sample.task 0)]
  ∧ Engine.timing Sample.task
      (run Engine.model (IntervalVarElement.Restore Sample.unperformed_task)
         Sample.solver).1.2
    = [0; 100; 5; 5; 5; 105]
  ∧ (run Engine.model (IntervalVarElement.Restore Sample.performed_task)
       Sample.solver).2
    = [EvCommand (IntervalVar_SetPerformed Sample.task 1);
       EvCommand (IntervalVar_SetStartRange Sample.task 10 20);
       EvCommand (IntervalVar_SetDurationRange Sample.task 5 5);
       EvCommand (IntervalVar_SetEndRange Sample.task 15 25)].
Proof.
  destruct (IntervalVarElement_Restore_calls
              Sample.unperformed_task Sample.task eq_refl) as [Hcalls Hframe].
  destruct (IntervalVarElement_Restore_calls
              Sample.performed_task Sample.task eq_refl) as [Hcalls' _].
  split; [reflexivity|]. split; [|split].
  - rewrite (proj1 (Hcalls Engine.model Sample.solver)). reflexivity.
  - rewrite (Hframe Sample.solver Sample.task eq_refl). reflexivity.
  - rewrite (proj1 (Hcalls' Engine.model Sample.solver)). reflexivity.
Defined.

(** C5: the store of an interval element bound to a variable reads the
    performed minimum and maximum of the live variable; when the maximum
    reads 0 nothing else is read and the six stored start, duration and end
    fields keep their previous values; otherwise the six accessors are read
    into them. *)
Theorem IntervalVarElement_Store_reads
  (M : Model) (w : World M) (e : IntervalVarElement.t) (v : IntervalVar) :
  IntervalVarElement.var_ e = Some v →
  run M (IntervalVarElement.Store e) w =
  let pmin := answer M (IntervalVar_PerformedMin v) w in
  let pmax := answer M (IntervalVar_PerformedMax v) w in
  if bool_decide (pmax = 0) then
    (Returned
       (IntervalVarElement.Build (Some v)
          (IntervalVarElement.start_min_ e) (IntervalVarElement.start_max_ e)
          (IntervalVarElement.duration_min_ e)
          (IntervalVarElement.duration_max_ e)
          (IntervalVarElement.end_min_ e) (IntervalVarElement.end_max_ e)
          pmin pmax (IntervalVarElement.activated_ e)),
     w,
     [EvQuery (IntervalVar_PerformedMin v);
      EvQuery (IntervalVar_PerformedMax v)])
  else
    (Returned
       (IntervalVarElement.Build (Some v)
          (answer M (IntervalVar_StartMin v) w)
          (answer M (IntervalVar_StartMax v) w)
          (answer M (IntervalVar_DurationMin v) w)
          (answer M (IntervalVar_DurationMax v) w)
          (answer M (IntervalVar_EndMin v) w)
          (answer M (IntervalVar_EndMax v) w)
          pmin pmax (IntervalVarElement.activated_ e)),
     w,
     [EvQuery (IntervalVar_PerformedMin v);
      EvQuery (IntervalVar_PerformedMax v);
      EvQuery (IntervalVar_StartMin v); EvQuery (IntervalVar_StartMax v);
      EvQuery (IntervalVar_DurationMin v);
      EvQuery (IntervalVar_DurationMax v);
      EvQuery (IntervalVar_EndMin v); EvQuery (IntervalVar_EndMax v)]).
Proof.
  intros Hv.
  destruct e as [var smin smax dmin dmax emin emax pmin0 pmax0 act].
  simpl in Hv. subst var. unfold IntervalVarElement.Store. simpl.
  destruct (bool_decide_reflect (answer M (IntervalVar_PerformedMax v) w = 0))
    as [H0|H0].
  - rewrite bool_decide_eq_false_2 by (intros H; apply H, H0). reflexivity.
  - rewrite bool_decide_eq_true_2 by exact H0. reflexivity.
Qed.

(** The witness of C5: in the sample solver the task may be performed and
    all its accessors are read; the idle interval is unperformed and an
    element bound to it keeps its stored ranges. *)
Lemma IntervalVarElement_Store_reads_witness :
  IntervalVarElement.var_ Sample.unperformed_task = Some Sample.task
  ∧ (run Engine.model (IntervalVarElement.Store Sample.unperformed_task)
       Sample.solver).1.1
    = Returned
        (IntervalVarElement.Build (Some Sample.task) 0 100 5 5 5 105 0 1 true)
  ∧ (run Engine.model (IntervalVarElement.Store Sample.stale_idle)
       Sample.solver).1.1
    = Returned
        (IntervalVarElement.Build (Some Sample.idle) 10 20 5 5 15 25 0 0
           true).
Proof.
  split; [reflexivity|]. split.
  - rewrite (IntervalVarElement_Store_reads Engine.model Sample.solver
               Sample.unperformed_task Sample.task eq_refl).
    reflexivity.
  - rewrite (IntervalVarElement_Store_reads Engine.model Sample.solver
               Sample.stale_idle Sample.idle eq_refl).
    reflexivity.
Defined.

(** ** Debug rendering *)

Lemma string_app_cons (c : ascii) (s1 s2 : string) :
  String c s1 +:+ s2 = String c (s1 +:+ s2).
Proof. reflexivity. Qed.

Lemma string_app_assoc (s1 s2 s3 : string) :
  (s1 +:+ s2) +:+ s3 = s1 +:+ (s2 +:+ s3).
Proof.
  induction s1 as [|c s1 IH]; [reflexivity|].
  rewrite !string_app_cons. f_equal. exact IH.
Qed.

Lemma last_char_cons (c : ascii) (s : string) :
  last_char (String c s) = Some (default c (last_char s)).
Proof.
  revert c. induction s as [|c' s IH]; intros c; [reflexivity|].
  change (last_char (String c (String c' s))) with (last_char (String c' s)).
  rewrite IH. reflexivity.
Qed.

Lemma last_char_app (s1 s2 : string) :
  last_char (s1 +:+ s2)
  = match last_char s2 with
    | Some c => Some c
    | None => last_char s1
    end.
Proof.
  induction s1 as [|c s1 IH].
  - change ("" +:+ s2) with s2. destruct (last_char s2); reflexivity.
  - rewrite string_app_cons, !last_char_cons, IH.
    destruct (last_char s2); [reflexivity|].
    destruct s1; [reflexivity|]. rewrite last_char_cons. reflexivity.
Qed.

Lemma uint_Nil_or_not (d : Decimal.uint) : d = Decimal.Nil ∨ d ≠ Decimal.Nil.
Proof. destruct d; [left; reflexivity|right; discriminate..]. Qed.

Lemma last_char_uint (d : Decimal.uint) :
  d ≠ Decimal.Nil →
  ∃ c, last_char (NilEmpty.string_of_uint d) = Some c ∧ is_digit c.
Proof.
  unfold is_digit.
  induction d as [|d IH|d IH|d IH|d IH|d IH|d IH|d IH|d IH|d IH|d IH];
    intros Hd; [done|..];
    (simpl NilEmpty.string_of_uint; rewrite last_char_cons;
     destruct (uint_Nil_or_not d) as [->|Hne];
     [eexists; split; [reflexivity|repeat constructor]
     |destruct (IH Hne) as (c & -> & Hdig); exists c; split; [reflexivity|exact Hdig]]).
Qed.

Lemma last_char_lld (z : Z) : ∃ c, last_char (lld z) = Some c ∧ is_digit c.
Proof.
  unfold lld, NilZero.string_of_int.
  assert (Hu : ∀ d, ∃ c,
    last_char (NilZero.string_of_uint d) = Some c ∧ is_digit c).
  { intros d. unfold NilZero.string_of_uint.
    destruct (uint_Nil_or_not d) as [->|Hne].
    - eexists; split; [reflexivity|unfold is_digit; repeat constructor].
    - destruct (last_char_uint d Hne) as (c & Hc & Hdig).
      exists c. split; [|exact Hdig]. destruct d; done. }
  destruct (Z.to_int z) as [d|d]; [apply Hu|].
  destruct (Hu d) as (c & Hc & Hdig). exists c. split; [|exact Hdig].
  rewrite last_char_cons, Hc. reflexivity.
Qed.

Lemma last_char_render_range (mi ma : Z) :
  ∃ c, last_char (render_range mi ma) = Some c ∧ is_digit c.
Proof.
  unfold render_range. case_bool_decide; [apply last_char_lld|].
  destruct (last_char_lld ma) as (c & Hc & Hdig). exists c.
  split; [|exact Hdig]. by rewrite !last_char_app, Hc.
Qed.

(** C8, the part that holds: an activated interval element renders as
    [(start = .., duration = .., status = ..] with each range collapsed to a
    single value when its bounds agree, and a deactivated one as [(...)].
    The part that fails: the rendering of an activated element is never
    closed; its last character is a digit of the status, not a parenthesis
    (the rendering of an integer element and of the assignment are closed). *)
Theorem IntervalVarElement_DebugString_not_closed :
  (∀ e : IntervalVarElement.t,
     IntervalVarElement.DebugString (IntervalVarElement.Activate e)
     = "(start = "
       +:+ render_range (IntervalVarElement.start_min_ e)
                        (IntervalVarElement.start_max_ e)
       +:+ ", duration = "
       +:+ render_range (IntervalVarElement.duration_min_ e)
                        (IntervalVarElement.duration_max_ e)
       +:+ ", status = "
       +:+ render_range (IntervalVarElement.performed_min_ e)
                        (IntervalVarElement.performed_max_ e))
  ∧ (∀ e : IntervalVarElement.t,
       last_char (IntervalVarElement.DebugString
                    (IntervalVarElement.Activate e)) ≠ Some ")"%char)
  ∧ IntervalVarElement.DebugString (IntervalVarElement.new (Some Sample.task))
    = "(start = -9223372036854775808..9223372036854775807, duration = -9223372036854775808..9223372036854775807, status = 0..1"
  ∧ IntervalVarElement.DebugString Sample.performed_task
    = "(start = 10..20, duration = 5, status = 1"
  ∧ (∀ e : IntervalVarElement.t,
       IntervalVarElement.DebugString (IntervalVarElement.Deactivate e)
       = "(...)").
Proof.
  assert (Hshape : ∀ e : IntervalVarElement.t,
     IntervalVarElement.DebugString (IntervalVarElement.Activate e)
     = "(start = "
       +:+ render_range (IntervalVarElement.start_min_ e)
                        (IntervalVarElement.start_max_ e)
       +:+ ", duration = "
       +:+ render_range (IntervalVarElement.duration_min_ e)
                        (IntervalVarElement.duration_max_ e)
       +:+ ", status = "
       +:+ render_range (IntervalVarElement.performed_min_ e)
                        (IntervalVarElement.performed_max_ e)).
  { intros [var smin smax dmin dmax emin emax pmin pmax act].
    unfold IntervalVarElement.DebugString, render_range. simpl.
    destruct (bool_decide_reflect (smin = smax)) as [Hs|Hs];
      [rewrite (bool_decide_eq_false_2 (smax ≠ smin)) by (intros H; by apply H)
      |rewrite (bool_decide_eq_true_2 (smax ≠ smin)) by congruence];
    (destruct (bool_decide_reflect (dmin = dmax)) as [Hd|Hd];
      [rewrite (bool_decide_eq_false_2 (dmax ≠ dmin))
         by (intros H; by apply H)
      |rewrite (bool_decide_eq_true_2 (dmax ≠ dmin)) by congruence]);
    (destruct (bool_decide_reflect (pmin = pmax)) as [Hp|Hp];
      [rewrite (bool_decide_eq_false_2 (pmax ≠ pmin))
         by (intros H; by apply H)
      |rewrite (bool_decide_eq_true_2 (pmax ≠ pmin)) by congruence]);
    rewrite ?string_app_assoc; reflexivity. }
  split; [exact Hshape|]. split; [|split; [|split]].
  - intros e. rewrite Hshape, !last_char_app.
    destruct (last_char_render_range (IntervalVarElement.performed_min_ e)
                (IntervalVarElement.performed_max_ e)) as (c & -> & Hc).
    intros [= ->]. unfold is_digit in Hc.
    repeat (apply elem_of_cons in Hc as [Hc|Hc]; [discriminate|]).
    by apply elem_of_nil in Hc.
  - reflexivity.
  - reflexivity.
  - intros e. reflexivity.
Qed.

(** ** The objective slot *)

(** C9: on an Assignment with no objective the four getters of the objective
    return their neutral defaults, 0, 0, 0 and true, and none of them is
    fatal. *)
Theorem objective_getters_default (this : Assignment.t) (h : Assignment.heap) :
  Assignment.HasObjective this = false →
  Assignment.ObjectiveMin this h = Ok 0
  ∧ Assignment.ObjectiveMax this h = Ok 0
  ∧ Assignment.ObjectiveValue this h = Ok 0
  ∧ Assignment.ObjectiveBound this h = Ok true.
Proof.
  unfold Assignment.HasObjective, Assignment.ObjectiveMin,
    Assignment.ObjectiveMax, Assignment.ObjectiveValue,
    Assignment.ObjectiveBound.
  intros Hno. destruct (Assignment.obj_element_ this) as [l|].
  - rewrite bool_decide_eq_true_2 in Hno by discriminate. discriminate.
  - repeat split.
Qed.

(** The witness of C9: a freshly constructed Assignment. *)
Lemma objective_getters_default_witness :
  Assignment.HasObjective Assignment.new = false
  ∧ Assignment.ObjectiveMin Assignment.new ∅ = Ok 0
  ∧ Assignment.ObjectiveMax Assignment.new ∅ = Ok 0
  ∧ Assignment.ObjectiveValue Assignment.new ∅ = Ok 0
  ∧ Assignment.ObjectiveBound Assignment.new ∅ = Ok true.
Proof.
  split; [reflexivity|].
  exact (objective_getters_default Assignment.new ∅ eq_refl).
Defined.

Lemma run_lift_Returned (M : Model) {A} (r : result A) (w w' : World M)
  (a : A) (t : list event) :
  run M (lift r) w = (Returned a, w', t) → r = Ok a ∧ w' = w ∧ t = [].
Proof. destruct r; simpl; intros [=]; subst; done. Qed.

Lemma run_bind_Returned (M : Model) {A B} (p : prog A) (f : A → prog B)
  (w w2 : World M) (b : B) (t : list event) :
  run M (p ≫= f) w = (Returned b, w2, t) →
  ∃ a w1 t1 t2,
    run M p w = (Returned a, w1, t1)
    ∧ run M (f a) w1 = (Returned b, w2, t2)
    ∧ t = t1 ++ t2.
Proof.
  rewrite run_bind. destruct (run M p w) as [[[a| |] w1] t1]; [|done..].
  destruct (run M (f a) w1) as [[o w2'] t2] eqn:Hf. intros [= -> -> <-].
  by exists a, w1, t1, t2.
Qed.

Lemma result_bind_Ok {A B} (r : result A) (f : A → result B) (b : B) :
  r ≫= f = Ok b → ∃ a, r = Ok a ∧ f a = Ok b.
Proof. destruct r as [a|]; [|done]. intros Hf. by exists a. Qed.

(** The objective slot of an Assignment: the pointer to the objective element
    and the objective variable. *)
Lemma AddAll_slot vs this :
  Assignment.obj_element_ (Assignment.AddAll vs this)
  = Assignment.obj_element_ this
  ∧ Assignment.objective_ (Assignment.AddAll vs this)
    = Assignment.objective_ this.
Proof.
  unfold Assignment.AddAll. revert this.
  induction vs as [|v vs IH]; intros this; [done|]. simpl.
  destruct (IH (Assignment.Add v this).1) as [-> ->].
  unfold Assignment.Add.
  by destruct (AssignmentContainer.Add v _).
Qed.

Lemma AddAllInterval_slot vs this :
  Assignment.obj_element_ (Assignment.AddAllInterval vs this)
  = Assignment.obj_element_ this
  ∧ Assignment.objective_ (Assignment.AddAllInterval vs this)
    = Assignment.objective_ this.
Proof.
  unfold Assignment.AddAllInterval. revert this.
  induction vs as [|v vs IH]; intros this; [done|]. simpl.
  destruct (IH (Assignment.AddInterval v this).1) as [-> ->].
  unfold Assignment.AddInterval.
  by destruct (AssignmentContainer.Add v _).
Qed.

Lemma int_mutable_slot v f this this' :
  Assignment.int_mutable v f this = Ok this' →
  Assignment.obj_element_ this' = Assignment.obj_element_ this
  ∧ Assignment.objective_ this' = Assignment.objective_ this.
Proof.
  unfold Assignment.int_mutable.
  intros (c & _ & [= <-])%result_bind_Ok. done.
Qed.

Lemma interval_mutable_slot v f this this' :
  Assignment.interval_mutable v f this = Ok this' →
  Assignment.obj_element_ this' = Assignment.obj_element_ this
  ∧ Assignment.objective_ this' = Assignment.objective_ this.
Proof.
  unfold Assignment.interval_mutable.
  intros (c & _ & [= <-])%result_bind_Ok. done.
Qed.

Lemma Store_slot (M : Model) this h (w w' : World M) this' h' t :
  run M (Assignment.Store this h) w = (Returned (this', h'), w', t) →
  Assignment.obj_element_ this' = Assignment.obj_element_ this
  ∧ Assignment.objective_ this' = Assignment.objective_ this.
Proof.
  unfold Assignment.Store.
  intros (ic & w1 & t1 & t2 & _ & H & _)%run_bind_Returned.
  apply run_bind_Returned in H as (vc & w2 & t3 & t4 & _ & H & _).
  simpl in H. destruct (Assignment.obj_element_ this) as [l|] eqn:Hl.
  - apply run_bind_Returned in H as (e & w3 & t5 & t6 & _ & H & _).
    apply run_bind_Returned in H as (e' & w4 & t7 & t8 & _ & H & _).
    simpl in H. injection H as <- _ _ _. split; [exact Hl|reflexivity].
  - simpl in H. injection H as <- _ _ _. split; [exact Hl|reflexivity].
Qed.

Lemma Copy_slot assignment this h this' h' :
  Assignment.Copy assignment this h = Ok (this', h') →
  Assignment.obj_element_ this' = Assignment.obj_element_ this
  ∧ Assignment.objective_ this' = Assignment.objective_ this.
Proof.
  unfold Assignment.Copy. simpl.
  destruct (Assignment.obj_element_ assignment) as [lo|];
    [|intros [= <- _]; done].
  destruct (Assignment.obj_element_ this) as [lt|] eqn:Hlt;
    [|intros [= <- _]; done].
  intros (e & _ & H)%result_bind_Ok.
  apply result_bind_Ok in H as (h1 & _ & H).
  apply result_bind_Ok in H as (e1 & _ & H).
  apply result_bind_Ok in H as (h2 & _ & [= <- _]). done.
Qed.

Lemma invoke_keeps_objective (M : Model) m this h (w w' : World M)
  this' h' t :
  m ≠ Assignment.mClear →
  Assignment.HasObjective this = true →
  run M (Assignment.invoke m this h) w = (Returned (this', h'), w', t) →
  Assignment.obj_element_ this' = Assignment.obj_element_ this
  ∧ Assignment.objective_ this' = Assignment.objective_ this.
Proof.
  intros Hm Hobj Hrun. destruct m; unfold Assignment.invoke in Hrun.
  - done.
  - by eapply Store_slot.
  - apply run_bind_Returned in Hrun as (? & ? & ? & ? & _ & H & _).
    by injection H as <- _ _ _.
  - injection Hrun as <- _ _ _. unfold Assignment.Add.
    by destruct (AssignmentContainer.Add v _).
  - injection Hrun as <- _ _ _. apply AddAll_slot.
  - injection Hrun as <- _ _ _. done.
  - change (run M (lift (Assignment.invoke_int_setter v s this)
                   ≫= (λ this0, mret (this0, h))) w
            = (Returned (this', h'), w', t)) in Hrun.
    apply run_bind_Returned in Hrun as (a & ? & ? & ? & Hs & H & _).
    injection H as <- _ _ _.
    apply run_lift_Returned in Hs as (Hs & _).
    destruct s; simpl in Hs; by eapply int_mutable_slot.
  - injection Hrun as <- _ _ _. unfold Assignment.AddInterval.
    by destruct (AssignmentContainer.Add v _).
  - injection Hrun as <- _ _ _. apply AddAllInterval_slot.
  - injection Hrun as <- _ _ _. done.
  - change (run M (lift (Assignment.invoke_interval_setter v s this)
                   ≫= (λ this0, mret (this0, h))) w
            = (Returned (this', h'), w', t)) in Hrun.
    apply run_bind_Returned in Hrun as (a & ? & ? & ? & Hs & H & _).
    injection H as <- _ _ _.
    apply run_lift_Returned in Hs as (Hs & _).
    destruct s; simpl in Hs; by eapply interval_mutable_slot.
  - apply run_lift_Returned in Hrun as (Hs & _).
    unfold Assignment.AddObjective, Assignment.HasObjective in *.
    destruct (Assignment.obj_element_ this); [done|].
    by rewrite bool_decide_eq_false_2 in Hobj by (intros H; by apply H).
  - change (run M (lift (Assignment.invoke_objective_setter s this h)
                   ≫= (λ h0, mret (this, h0))) w
            = (Returned (this', h'), w', t)) in Hrun.
    apply run_bind_Returned in Hrun as (a & ? & ? & ? & Hs & H & _).
    by injection H as <- _ _ _.
  - apply run_lift_Returned in Hrun as (Hs & _). by eapply Copy_slot.
Qed.

Lemma AddObjective_with_objective v this h :
  Assignment.HasObjective this = true → Assignment.AddObjective v this h = Abort.
Proof.
  unfold Assignment.HasObjective, Assignment.AddObjective.
  destruct (Assignment.obj_element_ this); [done|].
  by rewrite bool_decide_eq_false_2 by (intros H; by apply H).
Qed.

Lemma invoke_all_keeps_objective (M : Model) ms this h (w w' : World M)
  this' h' t :
  Assignment.mClear ∉ ms →
  Assignment.HasObjective this = true →
  run M (Assignment.invoke_all ms this h) w = (Returned (this', h'), w', t) →
  Assignment.obj_element_ this' = Assignment.obj_element_ this
  ∧ Assignment.objective_ this' = Assignment.objective_ this.
Proof.
  revert this h w t. induction ms as [|m ms IH]; intros this h w t Hms Hobj.
  - simpl. by intros [= <- _ _ _].
  - apply not_elem_of_cons in Hms as [Hm Hms].
    cbn [Assignment.invoke_all].
    intros ([this1 h1] & w1 & t1 & t2 & H1 & H2 & _)%run_bind_Returned.
    apply invoke_keeps_objective in H1 as [Ho Hv]; [|done..].
    apply IH in H2 as [-> ->]; [done|done|].
    unfold Assignment.HasObjective in *. by rewrite Ho.
Qed.

(** C6, as stated, fails in two ways.  [Clear] empties the objective slot, so
    a later [AddObjective] on the same Assignment returns and sets another
    objective; and the first [AddObjective] on an Assignment that was
    copy-constructed from one with an objective is fatal. *)
Lemma AddObjective_after_Clear_sets_another_objective :
  Assignment.AddObjective (Some Sample.x) Assignment.new ∅
  = Ok (Sample.with_x, Sample.x_heap)
  ∧ Assignment.Clear Sample.with_x Sample.x_heap = (Assignment.new, ∅)
  ∧ Assignment.AddObjective (Some Sample.y)
      (Assignment.Clear Sample.with_x Sample.x_heap).1
      (Assignment.Clear Sample.with_x Sample.x_heap).2
    = Ok (Assignment.Build AssignmentContainer.empty AssignmentContainer.empty
            (Some 1%positive) (Some Sample.y),
          <[1%positive := IntVarElement.new (Some Sample.y)]> ∅)
  ∧ Assignment.copy_construct Sample.with_x Sample.x_heap
    = Ok (Assignment.Build AssignmentContainer.empty
            AssignmentContainer.empty (Some 2%positive) (Some Sample.x),
          <[2%positive := IntVarElement.new (Some Sample.x)]> Sample.x_heap)
  ∧ Assignment.AddObjective (Some Sample.y)
      (Assignment.Build AssignmentContainer.empty AssignmentContainer.empty
         (Some 2%positive) (Some Sample.x))
      (<[2%positive := IntVarElement.new (Some Sample.x)]> Sample.x_heap)
    = Abort.
Proof. repeat split; vm_compute; reflexivity. Qed.

(** C6, amended: on an Assignment that has no objective, [AddObjective]
    returns and sets the objective slot: [HasObjective] becomes true,
    [Objective] returns the variable, and the objective element is a fresh
    element of it.  From then on, as long as [Clear] is not called, the slot
    keeps that objective and every further [AddObjective], with the same or
    another variable, is fatal. *)
Theorem AddObjective_sets_then_aborts
  (this : Assignment.t) (h : Assignment.heap) (v : option IntVar) :
  Assignment.HasObjective this = false →
  ∃ this' h',
    Assignment.AddObjective v this h = Ok (this', h')
    ∧ Assignment.HasObjective this' = true
    ∧ Assignment.Objective this' = v
    ∧ (λ l, h' !! l) <$> Assignment.obj_element_ this'
      = Some (Some (IntVarElement.new v))
    ∧ ∀ (ms : list Assignment.method) (M : Model) (w w' : World M)
        this'' h'' t,
        Assignment.mClear ∉ ms →
        run M (Assignment.invoke_all ms this' h') w
        = (Returned (this'', h''), w', t) →
        Assignment.HasObjective this'' = true
        ∧ Assignment.Objective this'' = v
        ∧ ∀ v', Assignment.AddObjective v' this'' h'' = Abort.
Proof.
  intros Hno. unfold Assignment.HasObjective in Hno.
  destruct (Assignment.obj_element_ this) as [l|] eqn:Hl;
    [by rewrite bool_decide_eq_true_2 in Hno|].
  unfold Assignment.AddObjective. rewrite Hl. simpl.
  eexists _, _. split; [reflexivity|]. split; [reflexivity|].
  split; [reflexivity|]. split; [simpl; by rewrite lookup_insert_eq|].
  intros ms M w w' this'' h'' t Hms Hrun.
  apply invoke_all_keeps_objective in Hrun as [Ho Hv]; [|done..].
  simpl in Ho, Hv.
  assert (Assignment.HasObjective this'' = true) as Hobj
    by (unfold Assignment.HasObjective; by rewrite Ho).
  split; [done|]. split; [done|].
  intros v'. by apply AddObjective_with_objective.
Qed.

(** The witness of C6: a fresh Assignment; after the objective [x] is set,
    adding [y], or [x] again, is fatal. *)
Lemma AddObjective_sets_then_aborts_witness :
  Assignment.HasObjective Assignment.new = false
  ∧ ∃ a1 h1,
      Assignment.AddObjective (Some Sample.x) Assignment.new ∅ = Ok (a1, h1)
      ∧ Assignment.Objective a1 = Some Sample.x
      ∧ Assignment.AddObjective (Some Sample.y) a1 h1 = Abort
      ∧ Assignment.AddObjective (Some Sample.x) a1 h1 = Abort.
Proof.
  split; [reflexivity|].
  destruct (AddObjective_sets_then_aborts Assignment.new ∅ (Some Sample.x)
              eq_refl) as (a1 & h1 & Hadd & _ & Hv & _ & Hlater).
  exists a1, h1. split; [exact Hadd|]. split; [exact Hv|].
  destruct (Hlater [] Engine.model Sample.solver Sample.solver a1 h1 []
              (not_elem_of_nil _) eq_refl) as (_ & _ & Habort).
  split; apply Habort.
Defined.

(** ** Restoring an Assignment *)

Lemma run_trace_bind (M : Model) {A B} (p : prog A) (f : A → prog B)
  (w : World M) (P : event → Prop) :
  Forall P (run M p w).2 →
  (∀ a w1, Forall P (run M (f a) w1).2) →
  Forall P (run M (p ≫= f) w).2.
Proof.
  intros Hp Hf. rewrite run_bind.
  destruct (run M p w) as [[[a| |] w1] t1]; simpl in *; [|done..].
  specialize (Hf a w1). destruct (run M (f a) w1) as [[o w2] t2]; simpl in *.
  by apply Forall_app.
Qed.

(** The events of the restore of a container are events of the restore of
    its activated elements. *)
Lemma restore_all_trace {V E} `{AssignmentElement V E} (M : Model)
  (P : event → Prop) (l : list E) (w : World M) :
  (∀ e w1, e ∈ l → elt_Activated e = true →
           Forall P (run M (elt_Restore e) w1).2) →
  Forall P (run M (AssignmentContainer.restore_all l) w).2.
Proof.
  revert w. induction l as [|e l IH]; intros w He; [constructor|].
  cbn [AssignmentContainer.restore_all]. apply run_trace_bind.
  - destruct (elt_Activated e) eqn:Hact; [|constructor].
    apply He; [left|done].
  - intros _ w1. apply IH. intros e' w2 Hin. apply He. by right.
Qed.

Lemma IntVarElement_Restore_trace (M : Model) (e : IntVarElement.t)
  (w : World M) :
  Forall (λ ev, ∃ v, IntVarElement.var_ e = Some v
                     ∧ ev = EvCommand (IntVar_SetRange v
                              (IntVarElement.min_ e) (IntVarElement.max_ e)))
    (run M (IntVarElement.Restore e) w).2.
Proof.
  unfold IntVarElement.Restore. destruct (IntVarElement.var_ e) as [v|];
    [|constructor].
  simpl via. rewrite run_call. destruct (step M _ w); repeat constructor; eauto.
Qed.

Lemma perform_trace (M : Model) (cs : list command) (w : World M) :
  Forall (λ ev, ∃ c, c ∈ cs ∧ ev = EvCommand c) (perform M cs w).2.
Proof.
  revert w. induction cs as [|c cs IH]; intros w; [constructor|]. simpl.
  destruct (step M c w) as [w1|].
  - specialize (IH w1). destruct (perform M cs w1) as [[o w'] t]. simpl in *.
    constructor; [exists c; split; [left|done]|].
    eapply Forall_impl; [exact IH|]. intros ev (c' & Hc' & ->).
    exists c'. split; [by right|done].
  - repeat constructor. exists c. split; [left|done].
Qed.

Lemma IntervalVarElement_Restore_trace (M : Model) (e : IntervalVarElement.t)
  (w : World M) :
  Forall (λ ev, queue_event ev = false ∧ written_int_var ev = None)
    (run M (IntervalVarElement.Restore e) w).2.
Proof.
  destruct (IntervalVarElement.var_ e) as [v|] eqn:Hv.
  - rewrite (IntervalVarElement_Restore_perform M w e v Hv).
    eapply Forall_impl; [apply perform_trace|].
    intros ev (c & Hc & ->). unfold Restore_calls in Hc.
    apply elem_of_app in Hc as [Hc|Hc]; case_bool_decide;
      repeat (apply elem_of_cons in Hc as [->|Hc]; [done|]);
      by apply elem_of_nil in Hc.
  - unfold IntervalVarElement.Restore. rewrite Hv.
    apply run_trace_bind.
    + case_bool_decide; constructor.
    + intros _ w1. case_bool_decide; constructor.
Qed.

Lemma Restore_containers_trace (M : Model) (this : Assignment.t) (w : World M) :
  Forall (restores_element this)
    (run M (Restore_elements this) w).2.
Proof.
  apply run_trace_bind.
  - apply restore_all_trace. intros e w1 Hin Hact.
    eapply Forall_impl; [apply IntVarElement_Restore_trace|].
    intros ev (v & Hv & ->). split; [done|].
    intros v' [= <-]. by exists e.
  - intros _ w1. apply restore_all_trace. intros e w2 Hin Hact.
    eapply Forall_impl; [apply IntervalVarElement_Restore_trace|].
    intros ev [Hq Hw]. split; [done|]. intros v Hv. congruence.
Qed.

Lemma Assignment_Restore_run (M : Model) (this : Assignment.t) (w : World M) :
  run M (Assignment.Restore this) w =
  match step M FreezeQueue w with
  | None => (Failed, w, [EvCommand FreezeQueue])
  | Some w1 =>
      match run M (Restore_elements this) w1 with
      | (Returned _, w2, body) =>
          match step M UnfreezeQueue w2 with
          | Some w3 =>
              (Returned tt, w3,
               EvCommand FreezeQueue :: body ++ [EvCommand UnfreezeQueue])
          | None =>
              (Failed, w2,
               EvCommand FreezeQueue :: body ++ [EvCommand UnfreezeQueue])
          end
      | (Failed, w2, body) => (Failed, w2, EvCommand FreezeQueue :: body)
      | (Aborted, w2, body) => (Aborted, w2, EvCommand FreezeQueue :: body)
      end
  end.
Proof.
  unfold Assignment.Restore, Restore_elements.
  rewrite run_bind, run_call.
  destruct (step M FreezeQueue w) as [w1|]; [|reflexivity].
  rewrite !run_bind.
  destruct (run M (AssignmentContainer.Restore _) w1) as [[[[]| |] w2] t1];
    [|reflexivity..].
  rewrite run_bind.
  destruct (run M (AssignmentContainer.Restore _) w2) as [[[[]| |] w3] t2];
    [|by rewrite ?app_nil_r..].
  rewrite run_call. destruct (step M UnfreezeQueue w3); simpl;
    by rewrite <- ?app_assoc.
Qed.

(** C2, as stated, fails: when the restore of an element makes the solver
    fail, [Assignment::Restore] is left at once and the queue is not
    unfrozen.  Here the element of [z] holds [5, 7] while [z] lies in
    [8, 10]: the queue, not frozen before, is frozen after the failure, and
    the elements before the failing one have been restored. *)
Lemma Restore_failure_leaves_queue_frozen :
  Engine.freeze_level Sample.solver = 0%nat
  ∧ (run Engine.model (Assignment.Restore Sample.infeasible)
       Sample.solver).1.1 = Failed
  ∧ (run Engine.model (Assignment.Restore Sample.infeasible) Sample.solver).2
    = [EvCommand FreezeQueue;
       EvCommand (IntVar_SetRange Sample.x 3 3);
       EvCommand (IntVar_SetRange Sample.z 5 7)]
  ∧ (EvCommand UnfreezeQueue
     ∉ (run Engine.model (Assignment.Restore Sample.infeasible)
          Sample.solver).2)
  ∧ Engine.freeze_level
      (run Engine.model (Assignment.Restore Sample.infeasible)
         Sample.solver).1.2 = 1%nat.
Proof.
  split; [reflexivity|]. split; [reflexivity|]. split; [reflexivity|].
  split; [|reflexivity].
  apply (bool_decide_unpack _). vm_compute. exact I.
Qed.

(** C2, amended: [Assignment::Restore] calls freeze before it restores any
    element, restores the elements of the two containers without any call on
    the queue in between, and calls unfreeze after them when their restore
    returned; it then returns, unless resuming the queue fails.  When the
    restore of an element fails, the failure leaves [Restore] at once: the
    remaining elements are not restored and unfreeze is not called. *)
Theorem Restore_unfreezes_after_the_elements
  (M : Model) (this : Assignment.t) (w : World M) :
  run M (Assignment.Restore this) w
  = match step M FreezeQueue w with
    | None => (Failed, w, [EvCommand FreezeQueue])
    | Some w1 =>
        match run M (Restore_elements this) w1 with
        | (Returned _, w2, body) =>
            match step M UnfreezeQueue w2 with
            | Some w3 =>
                (Returned tt, w3,
                 EvCommand FreezeQueue :: body ++ [EvCommand UnfreezeQueue])
            | None =>
                (Failed, w2,
                 EvCommand FreezeQueue :: body ++ [EvCommand UnfreezeQueue])
            end
        | (Failed, w2, body) => (Failed, w2, EvCommand FreezeQueue :: body)
        | (Aborted, w2, body) => (Aborted, w2, EvCommand FreezeQueue :: body)
        end
    end
  ∧ (∀ w1, Forall (λ ev, queue_event ev = false)
             (run M (Restore_elements this) w1).2)
  ∧ head (run M (Assignment.Restore this) w).2 = Some (EvCommand FreezeQueue)
  ∧ ((run M (Assignment.Restore this) w).1.1 = Returned tt
     → last (run M (Assignment.Restore this) w).2
       = Some (EvCommand UnfreezeQueue))
  ∧ (∀ w1 w2 body,
       step M FreezeQueue w = Some w1 →
       run M (Restore_elements this) w1 = (Failed, w2, body) →
       run M (Assignment.Restore this) w
       = (Failed, w2, EvCommand FreezeQueue :: body)
       ∧ EvCommand UnfreezeQueue ∉ (EvCommand FreezeQueue :: body)).
Proof.
  assert (Hbody : ∀ w1, Forall (λ ev, queue_event ev = false)
                          (run M (Restore_elements this) w1).2).
  { intros w1. eapply Forall_impl; [apply Restore_containers_trace|].
    by intros ev [Hq _]. }
  split; [apply Assignment_Restore_run|]. split; [exact Hbody|].
  rewrite Assignment_Restore_run.
  split; [|split].
  - destruct (step M FreezeQueue w) as [w1|]; [|reflexivity].
    destruct (run M (Restore_elements this) w1) as [[[[]| |] w2] body];
      [|reflexivity..].
    destruct (step M UnfreezeQueue w2); reflexivity.
  - destruct (step M FreezeQueue w) as [w1|]; [|discriminate].
    destruct (run M (Restore_elements this) w1) as [[[[]| |] w2] body];
      [|discriminate..].
    destruct (step M UnfreezeQueue w2); [|discriminate].
    intros _. simpl. by rewrite app_comm_cons, last_snoc.
  - intros w1 w2 body Hfreeze Hfail. rewrite Hfreeze, Hfail.
    split; [reflexivity|].
    specialize (Hbody w1). rewrite Hfail in Hbody. simpl in Hbody.
    intros [Heq|Hin]%elem_of_cons; [discriminate|].
    rewrite Forall_forall in Hbody. by apply Hbody in Hin.
Qed.

(** The witness of C2: the restore of the sample Assignment returns with
    unfreeze as its last call, and the restore of the infeasible one fails
    at the element of [z] without unfreeze. *)
Lemma Restore_unfreezes_after_the_elements_witness :
  last (run Engine.model (Assignment.Restore Sample.tracked) Sample.solver).2
  = Some (EvCommand UnfreezeQueue)
  ∧ (EvCommand UnfreezeQueue
     ∉ (run Engine.model (Assignment.Restore Sample.infeasible)
          Sample.solver).2).
Proof.
  split.
  - apply (Restore_unfreezes_after_the_elements
             Engine.model Sample.tracked Sample.solver).
    reflexivity.
  - destruct (Restore_unfreezes_after_the_elements
                Engine.model Sample.infeasible Sample.solver)
      as (_ & _ & _ & _ & Hfail).
    edestruct Hfail as [-> Hnot]; [reflexivity|reflexivity|].
    exact Hnot.
Defined.

Lemma run_replay (M : Model) {A} (p : prog A) (w : World M) :
  (run M p w).1.2 = replay M (run M p w).2 w.
Proof.
  revert w. induction p as [a|q k IH|n k IH|c k IH|]; intros w; simpl.
  - reflexivity.
  - specialize (IH (answer M q w) w).
    destruct (run M (k _) w) as [[o w'] t]. exact IH.
  - specialize (IH (answer_name M n w) w).
    destruct (run M (k _) w) as [[o w'] t]. exact IH.
  - destruct (step M c w) as [w1|] eqn:Hstep.
    + specialize (IH w1). destruct (run M k w1) as [[o w'] t].
      simpl in *. unfold replay in *. simpl. by rewrite Hstep.
    + unfold replay. simpl. by rewrite Hstep.
  - reflexivity.
Qed.

Lemma Engine_step_domain (c : command) (s s' : Engine.state) (v : IntVar) :
  written_int_var (EvCommand c) ≠ Some v →
  Engine.step c s = Some s' →
  Engine.domain v s' = Engine.domain v s.
Proof.
  intros Hc Hstep. unfold Engine.domain, Engine.read_int.
  destruct c; simpl in *;
    try (unfold Engine.set_interval in Hstep;
         destruct (Engine.interval_vars s !! _); simpl in Hstep; [|done];
         destruct (Engine.narrow _ _ _ _) as [[? ?]|]; simpl in Hstep;
         [|done]; by injection Hstep as <-);
    try (by injection Hstep as <-).
  unfold Engine.set_int in Hstep.
  destruct (Engine.int_vars s !! _); simpl in Hstep; [|done].
  destruct (Engine.narrow _ _ _ _) as [[? ?]|]; simpl in Hstep; [|done].
  injection Hstep as <-. simpl.
  rewrite lookup_insert_ne; [done|].
  destruct v, v0. simpl. congruence.
Qed.

Lemma Engine_replay_domain (t : list event) (s : Engine.state) (v : IntVar) :
  Forall (λ ev, written_int_var ev ≠ Some v) t →
  Engine.domain v (replay Engine.model t s) = Engine.domain v s.
Proof.
  revert s. induction t as [|ev t IH]; intros s Ht; [reflexivity|].
  apply Forall_cons in Ht as [Hev Ht]. unfold replay in *. simpl.
  rewrite IH by done. destruct ev as [q|n|c]; try reflexivity.
  destruct (Engine.step c s) as [s'|] eqn:Hstep; [|reflexivity].
  by eapply Engine_step_domain.
Qed.

Lemma IntVarElement_Store_run (M : Model) (e : IntVarElement.t) (v : IntVar)
  (w : World M) :
  IntVarElement.var_ e = Some v →
  run M (IntVarElement.Store e) w
  = (Returned (IntVarElement.Build (Some v) (answer M (IntVar_Min v) w)
                 (answer M (IntVar_Max v) w) (IntVarElement.activated_ e)),
     w, [EvQuery (IntVar_Min v); EvQuery (IntVar_Max v)]).
Proof.
  intros Hv. unfold IntVarElement.Store. destruct e as [var mi ma act].
  simpl in Hv. subst var. reflexivity.
Qed.

Lemma IntervalVarElement_Store_returns (M : Model) (e : IntervalVarElement.t)
  (w : World M) :
  is_Some (IntervalVarElement.var_ e) →
  ∃ e' t, run M (IntervalVarElement.Store e) w = (Returned e', w, t).
Proof.
  intros [v Hv].
  destruct e as [var smin smax dmin dmax emin emax pmin0 pmax0 act].
  simpl in Hv. subst var. unfold IntervalVarElement.Store. simpl.
  case_bool_decide; eauto.
Qed.

Lemma store_all_returns {V E} `{AssignmentElement V E} (M : Model)
  (l : list E) (w : World M) :
  Forall (λ e, ∃ e' t, run M (elt_Store e) w = (Returned e', w, t)) l →
  ∃ l' t, run M (AssignmentContainer.store_all l) w = (Returned l', w, t).
Proof.
  induction 1 as [|e l (e' & t1 & He) _ (l' & t2 & IH)]; [by eexists _, _|].
  cbn [AssignmentContainer.store_all]. rewrite run_bind, He, run_bind, IH.
  simpl. by eexists _, _.
Qed.

Lemma Contains_false_elements (this : Assignment.t) (v : IntVar) :
  Assignment.Contains (Some v) this = false →
  Forall (λ e, IntVarElement.var_ e ≠ Some v)
    (AssignmentContainer.elements_ (Assignment.int_var_container_ this)).
Proof.
  unfold Assignment.Contains, AssignmentContainer.Contains,
    AssignmentContainer.Find.
  intros Hc%bool_decide_eq_false.
  destruct (list_find _ _) as [[i e]|] eqn:Hf.
  - exfalso. apply Hc. by eexists.
  - apply list_find_None in Hf. exact Hf.
Qed.

Lemma Restore_trace_writes (M : Model) (this : Assignment.t) (w : World M) :
  Forall (λ ev, ∀ v, written_int_var ev = Some v →
            ∃ e, e ∈ AssignmentContainer.elements_
                       (Assignment.int_var_container_ this)
                 ∧ IntVarElement.Activated e = true
                 ∧ IntVarElement.var_ e = Some v
                 ∧ ev = EvCommand (IntVar_SetRange v (IntVarElement.min_ e)
                                                     (IntVarElement.max_ e)))
    (run M (Assignment.Restore this) w).2.
Proof.
  rewrite Assignment_Restore_run.
  destruct (step M FreezeQueue w) as [w1|]; [|by repeat constructor].
  pose proof (Restore_containers_trace M this w1) as Hbody.
  assert (Forall (λ ev, ∀ v, written_int_var ev = Some v →
            ∃ e, e ∈ AssignmentContainer.elements_
                       (Assignment.int_var_container_ this)
                 ∧ IntVarElement.Activated e = true
                 ∧ IntVarElement.var_ e = Some v
                 ∧ ev = EvCommand (IntVar_SetRange v (IntVarElement.min_ e)
                                                     (IntVarElement.max_ e)))
            (run M (Restore_elements this) w1).2) as Hbody'.
  { eapply Forall_impl; [exact Hbody|]. by intros ev [_ Hw]. }
  destruct (run M (Restore_elements this) w1) as [[[[]| |] w2] body];
    simpl in *; [|by constructor..].
  destruct (step M UnfreezeQueue w2); simpl;
    (constructor; [done|]; apply Forall_app; split; [done|];
     by repeat constructor).
Qed.

(** C10: [Store] and [Restore] treat the objective differently.  With an
    objective present, [Store] reads the minimum and the maximum of the live
    objective variable into the objective element.  [Restore] does not look
    at the objective at all: it is the same program whatever the objective
    slot holds, and every push on an integer variable that it issues is the
    push of the stored range of an activated element of the integer
    container.  So, when the objective variable is not in the integer
    container, no call of [Restore] writes it, and in the reference solver its
    domain is the same after [Restore] as before. *)
Theorem Store_reads_objective_Restore_does_not_write_it
  (this : Assignment.t) (h : Assignment.heap) (l : positive)
  (e : IntVarElement.t) (v : IntVar) :
  Assignment.obj_element_ this = Some l →
  h !! l = Some e →
  IntVarElement.var_ e = Some v →
  Forall (λ e, is_Some (IntVarElement.var_ e))
    (AssignmentContainer.elements_ (Assignment.int_var_container_ this)) →
  Forall (λ e, is_Some (IntervalVarElement.var_ e))
    (AssignmentContainer.elements_ (Assignment.interval_var_container_ this)) →
  (∀ (M : Model) (w : World M),
     ∃ this' t,
       run M (Assignment.Store this h) w
       = (Returned
            (this',
             <[l := IntVarElement.Build (Some v)
                      (answer M (IntVar_Min v) w) (answer M (IntVar_Max v) w)
                      (IntVarElement.activated_ e)]> h),
          w,
          t ++ [EvQuery (IntVar_Min v); EvQuery (IntVar_Max v)]))
  ∧ (∀ p o,
       Assignment.Restore
         (Assignment.Build (Assignment.int_var_container_ this)
            (Assignment.interval_var_container_ this) p o)
       = Assignment.Restore this)
  ∧ (∀ (M : Model) (w : World M),
       Forall (λ ev, ∀ v', written_int_var ev = Some v' →
                 ∃ e', e' ∈ AssignmentContainer.elements_
                              (Assignment.int_var_container_ this)
                       ∧ IntVarElement.Activated e' = true
                       ∧ IntVarElement.var_ e' = Some v'
                       ∧ ev = EvCommand
                                (IntVar_SetRange v' (IntVarElement.min_ e')
                                                    (IntVarElement.max_ e')))
         (run M (Assignment.Restore this) w).2)
  ∧ (Assignment.Contains (Some v) this = false →
     (∀ (M : Model) (w : World M),
        Forall (λ ev, written_int_var ev ≠ Some v)
          (run M (Assignment.Restore this) w).2)
     ∧ (∀ s : Engine.state,
          Engine.domain v
            (run Engine.model (Assignment.Restore this) s).1.2
          = Engine.domain v s)).
Proof.
  intros Hl He Hv Hints Hintervals.
  assert (Hnot : Assignment.Contains (Some v) this = false →
            ∀ (M : Model) (w : World M),
              Forall (λ ev, written_int_var ev ≠ Some v)
                (run M (Assignment.Restore this) w).2).
  { intros Hc%Contains_false_elements M w.
    eapply Forall_impl; [apply Restore_trace_writes|].
    intros ev Hev Hw. destruct (Hev v Hw) as (e' & Hin & _ & Hv' & _).
    rewrite Forall_forall in Hc. by apply Hc in Hin. }
  split; [|split; [done|split; [intros; apply Restore_trace_writes|]]].
  - intros M w. unfold Assignment.Store.
    destruct (store_all_returns M
                (AssignmentContainer.elements_
                   (Assignment.int_var_container_ this)) w)
      as (l1 & t1 & H1).
    { eapply Forall_impl; [exact Hints|]. intros e1 [v1 Hv1].
      simpl. rewrite (IntVarElement_Store_run M e1 v1 w Hv1). by eexists _, _. }
    destruct (store_all_returns M
                (AssignmentContainer.elements_
                   (Assignment.interval_var_container_ this)) w)
      as (l2 & t2 & H2).
    { eapply Forall_impl; [exact Hintervals|]. intros e2 He2.
      by apply IntervalVarElement_Store_returns. }
    unfold AssignmentContainer.Store.
    rewrite run_bind, run_bind, H1. simpl.
    rewrite run_bind, run_bind, H2. simpl. rewrite Hl.
    unfold Assignment.deref. rewrite He. simpl.
    rewrite run_bind, (IntVarElement_Store_run M e v w Hv). simpl.
    eexists _, (t1 ++ t2). rewrite !app_nil_r, <- app_assoc. reflexivity.
  - intros Hc. split; [by apply Hnot|].
    intros s. rewrite run_replay. by apply Engine_replay_domain, Hnot.
Qed.

(** The witness of C10: the sample Assignment with the objective [z].
    [Store] reads [8, 10] into the objective element; [Restore] leaves the
    domain of [z] as it is. *)
Lemma Store_reads_objective_Restore_does_not_write_it_witness :
  Assignment.obj_element_ Sample.with_objective = Some 1%positive
  ∧ Sample.objective_heap !! 1%positive = Some (IntVarElement.new (Some Sample.z))
  ∧ (∃ this' t,
       run Engine.model
         (Assignment.Store Sample.with_objective Sample.objective_heap)
         Sample.solver
       = (Returned
            (this',
             <[1%positive := IntVarElement.Build (Some Sample.z) 8 10 true]>
               Sample.objective_heap),
          Sample.solver, t))
  ∧ Engine.domain Sample.z
      (run Engine.model (Assignment.Restore Sample.with_objective)
         Sample.solver).1.2
    = (8, 10).
Proof.
  split; [reflexivity|]. split; [reflexivity|].
  destruct (Store_reads_objective_Restore_does_not_write_it
              Sample.with_objective Sample.objective_heap 1%positive
              (IntVarElement.new (Some Sample.z)) Sample.z
              eq_refl eq_refl eq_refl)
    as (Hstore & _ & _ & Hrestore).
  { repeat constructor; by eexists. }
  { repeat constructor; by eexists. }
  split.
  - destruct (Hstore Engine.model Sample.solver) as (this' & t & Hrun).
    exists this'. eexists. exact Hrun.
  - destruct (Hrestore eq_refl) as [_ Hdom]. rewrite Hdom. reflexivity.
Defined.

(** ** Copying *)

Lemma IntVarElement_Copy_all (element e : IntVarElement.t) :
  IntVarElement.Copy element e = element.
Proof. destruct element as [var mi ma []], e; reflexivity. Qed.

Lemma IntervalVarElement_Copy_all (element e : IntervalVarElement.t) :
  IntervalVarElement.Copy element e = element.
Proof. destruct element as [? ? ? ? ? ? ? ? ? []], e; reflexivity. Qed.

Lemma list_find_alter_ne {A} (P : A → Prop) `{∀ x, Decision (P x)}
  (f : A → A) (l : list A) (i : nat) :
  (∀ x, l !! i = Some x → ¬ P x ∧ ¬ P (f x)) →
  list_find P (alter f i l) = list_find P l.
Proof.
  revert i. induction l as [|y l IH]; intros i Hi; [done|].
  destruct i as [|i].
  - destruct (Hi y eq_refl) as [Hy Hfy].
    change (alter f 0%nat (y :: l)) with (f y :: l).
    cbn [list_find]. by rewrite !decide_False by done.
  - change (alter f (S i) (y :: l)) with (y :: alter f i l).
    cbn [list_find]. destruct (decide (P y)); [done|].
    rewrite IH; [done|]. intros x Hx. by apply Hi.
Qed.

Lemma list_find_snoc_ne {A} (P : A → Prop) `{∀ x, Decision (P x)}
  (l : list A) (y : A) :
  ¬ P y → list_find P (l ++ [y]) = list_find P l.
Proof.
  intros Hy. induction l as [|x l IH]; cbn [list_find app].
  - by rewrite decide_False.
  - destruct (decide (P x)); [done|]. by rewrite IH.
Qed.

Lemma alter_snoc {A} (f : A → A) (l : list A) (y : A) :
  alter f (length l) (l ++ [y]) = l ++ [f y].
Proof.
  induction l as [|x l IH]; [done|].
  change (alter f (length (x :: l)) ((x :: l) ++ [y]))
    with (x :: alter f (length l) (l ++ [y])).
  by rewrite IH.
Qed.

Section ContainerCopy.
Context {V E : Type} `{EqDecision V} `{AssignmentElement V E}.
Hypothesis elt_Copy_all : ∀ element e : E, elt_Copy element e = element.

Lemma Element_list_find (var : option V) (c : AssignmentContainer.t E) :
  AssignmentContainer.Element var c
  = match list_find (λ e, elt_Var e = var) (AssignmentContainer.elements_ c)
    with
    | Some (_, x) => Ok x
    | None => Abort
    end.
Proof.
  unfold AssignmentContainer.Element, AssignmentContainer.Find,
    AssignmentContainer.ElementAt.
  destruct (list_find _ _) as [[i x]|] eqn:Hf; [|done]. simpl.
  apply list_find_Some in Hf as (-> & _). done.
Qed.

Lemma copy_element_other (c : AssignmentContainer.t E) (element : E)
  (var : option V) :
  elt_Var element ≠ var →
  AssignmentContainer.Element var (AssignmentContainer.copy_element c element)
  = AssignmentContainer.Element var c.
Proof.
  intros Hne. rewrite !Element_list_find.
  unfold AssignmentContainer.copy_element, AssignmentContainer.Add,
    AssignmentContainer.Find, AssignmentContainer.FastAdd.
  destruct (list_find (λ e, elt_Var e = elt_Var element) _)
    as [[i x]|] eqn:Hf; simpl.
  - apply list_find_Some in Hf as (Hi & Hx & _).
    rewrite list_find_alter_ne; [done|].
    intros x' Hx'. rewrite elt_Copy_all. split; [|done]. congruence.
  - rewrite alter_snoc, elt_Copy_all. by rewrite list_find_snoc_ne.
Qed.

Lemma copy_element_same (c : AssignmentContainer.t E) (element : E) :
  AssignmentContainer.Element (elt_Var element)
    (AssignmentContainer.copy_element c element)
  = Ok element.
Proof.
  rewrite Element_list_find.
  unfold AssignmentContainer.copy_element, AssignmentContainer.Add,
    AssignmentContainer.Find, AssignmentContainer.FastAdd.
  destruct (list_find (λ e, elt_Var e = elt_Var element)
              (AssignmentContainer.elements_ c))
    as [[i x]|] eqn:Hf; simpl.
  - apply list_find_Some in Hf as (Hi & Hx & Hbefore).
    assert (list_find (λ e, elt_Var e = elt_Var element)
              (alter (elt_Copy element) i (AssignmentContainer.elements_ c))
            = Some (i, element)) as ->; [|done].
    apply list_find_Some. split; [|split; [done|]].
    + rewrite list_lookup_alter_eq, Hi. simpl. by rewrite elt_Copy_all.
    + intros j y Hj Hlt. rewrite list_lookup_alter_ne in Hj by lia.
      by eapply Hbefore.
  - apply list_find_None in Hf. rewrite alter_snoc, elt_Copy_all.
    assert (list_find (λ e, elt_Var e = elt_Var element)
              (AssignmentContainer.elements_ c ++ [element])
            = Some (length (AssignmentContainer.elements_ c), element))
      as ->; [|done].
    apply list_find_Some. split; [|split; [done|]].
    + by rewrite lookup_app_r, Nat.sub_diag.
    + intros j y Hj Hlt. rewrite lookup_app_l in Hj by done.
      rewrite Forall_forall in Hf. apply Hf.
      apply list_elem_of_lookup. by exists j.
Qed.

(** A variable that [container] does not hold keeps its element. *)
Lemma Copy_absent (container c : AssignmentContainer.t E) (var : option V) :
  Forall (λ e, elt_Var e ≠ var) (AssignmentContainer.elements_ container) →
  AssignmentContainer.Element var (AssignmentContainer.Copy container c)
  = AssignmentContainer.Element var c.
Proof.
  unfold AssignmentContainer.Copy. destruct container as [l]. simpl.
  revert c. induction l as [|e l IH]; intros c Hl; [done|].
  apply Forall_cons in Hl as [He Hl]. simpl.
  rewrite IH by done. by apply copy_element_other.
Qed.

(** The element of a variable that [container] holds once becomes the
    element of [container]. *)
Lemma Copy_present (container c : AssignmentContainer.t E) (e : E) :
  NoDup (elt_Var <$> AssignmentContainer.elements_ container) →
  e ∈ AssignmentContainer.elements_ container →
  AssignmentContainer.Element (elt_Var e)
    (AssignmentContainer.Copy container c)
  = Ok e.
Proof.
  unfold AssignmentContainer.Copy. destruct container as [l]. simpl.
  revert c. induction l as [|e0 l IH]; intros c Hnd Hin.
  - by apply elem_of_nil in Hin.
  - rewrite fmap_cons in Hnd. apply NoDup_cons in Hnd as [Hfresh Hnd].
    simpl. apply elem_of_cons in Hin as [->|Hin].
    + pose proof (Copy_absent (AssignmentContainer.Build l)
                    (AssignmentContainer.copy_element c e0) (elt_Var e0))
        as Habs.
      unfold AssignmentContainer.Copy in Habs. simpl in Habs.
      rewrite Habs; [apply copy_element_same|].
      apply Forall_forall. intros x Hx Heq. apply Hfresh.
      rewrite <- Heq. apply list_elem_of_fmap. by exists x.
    + by apply IH.
Qed.

End ContainerCopy.

Lemma Copy_objective (assignment this : Assignment.t) (h : Assignment.heap) :
  (∀ l, Assignment.obj_element_ assignment = Some l → is_Some (h !! l)) →
  (∀ l, Assignment.obj_element_ this = Some l → is_Some (h !! l)) →
  Assignment.Copy assignment this h
  = Ok (Assignment.Build
          (AssignmentContainer.Copy (Assignment.int_var_container_ assignment)
             (Assignment.int_var_container_ this))
          (AssignmentContainer.Copy
             (Assignment.interval_var_container_ assignment)
             (Assignment.interval_var_container_ this))
          (Assignment.obj_element_ this) (Assignment.objective_ this),
        match Assignment.obj_element_ assignment,
              Assignment.obj_element_ this with
        | Some lo, Some lt =>
            match h !! lo, h !! lt with
            | Some eo, Some et =>
                <[lt := IntVarElement.Build (IntVarElement.var_ et)
                          (IntVarElement.min_ eo) (IntVarElement.max_ eo)
                          (IntVarElement.activated_ eo)]> h
            | _, _ => h
            end
        | _, _ => h
        end).
Proof.
  intros Ho Ht.
  unfold Assignment.Copy, Assignment.set_interval_var_container,
    Assignment.set_int_var_container.
  simpl.
  destruct (Assignment.obj_element_ assignment) as [lo|]; [|done].
  destruct (Assignment.obj_element_ this) as [lt|]; [|done].
  destruct (Ho lo eq_refl) as [eo Heo]. destruct (Ht lt eq_refl) as [et Het].
  unfold Assignment.update, Assignment.deref. rewrite Heo, Het. simpl.
  destruct (decide (lt = lo)) as [->|Hne].
  - rewrite lookup_insert_eq. simpl. assert (et = eo) as -> by congruence.
    destruct eo as [var mi ma []]; simpl;
      rewrite ?lookup_insert_eq; simpl; rewrite insert_insert_eq;
      reflexivity.
  - rewrite (lookup_insert_ne _ lt lo) by exact Hne. rewrite Heo. simpl.
    destruct eo as [var mi ma []]; simpl;
      rewrite ?lookup_insert_eq; simpl; rewrite insert_insert_eq;
      reflexivity.
Qed.

(** C3: [Copy] merges the two containers of the other Assignment into those
    of this one (a variable that the other container does not hold keeps its
    element; the element of a variable that the other container holds becomes
    the element of the other container), and never changes which variable is
    the objective nor the pointer to the objective element.  When both
    Assignments have an objective, the objective element of this one takes
    the minimum, the maximum and the activation flag of the other and keeps
    its variable; otherwise the heap, hence the objective element of this
    Assignment, is unchanged. *)
Theorem Assignment_Copy_merges
  (assignment this : Assignment.t) (h : Assignment.heap) :
  (∀ l, Assignment.obj_element_ assignment = Some l → is_Some (h !! l)) →
  (∀ l, Assignment.obj_element_ this = Some l → is_Some (h !! l)) →
  ∃ this' h',
    Assignment.Copy assignment this h = Ok (this', h')
    ∧ Assignment.objective_ this' = Assignment.objective_ this
    ∧ Assignment.obj_element_ this' = Assignment.obj_element_ this
    ∧ (Assignment.HasObjective assignment && Assignment.HasObjective this
       = false → h' = h)
    ∧ (∀ lo lt eo et,
         Assignment.obj_element_ assignment = Some lo →
         Assignment.obj_element_ this = Some lt →
         h !! lo = Some eo →
         h !! lt = Some et →
         h' = <[lt := IntVarElement.Build (IntVarElement.var_ et)
                        (IntVarElement.min_ eo) (IntVarElement.max_ eo)
                        (IntVarElement.activated_ eo)]> h)
    ∧ (∀ v, Forall (λ e, IntVarElement.var_ e ≠ v)
              (AssignmentContainer.elements_
                 (Assignment.int_var_container_ assignment)) →
            Assignment.int_element v this' = Assignment.int_element v this)
    ∧ (∀ e, NoDup (IntVarElement.var_
                     <$> AssignmentContainer.elements_
                           (Assignment.int_var_container_ assignment)) →
            e ∈ AssignmentContainer.elements_
                  (Assignment.int_var_container_ assignment) →
            Assignment.int_element (IntVarElement.var_ e) this' = Ok e)
    ∧ (∀ v, Forall (λ e, IntervalVarElement.var_ e ≠ v)
              (AssignmentContainer.elements_
                 (Assignment.interval_var_container_ assignment)) →
            Assignment.interval_element v this'
            = Assignment.interval_element v this)
    ∧ (∀ e, NoDup (IntervalVarElement.var_
                     <$> AssignmentContainer.elements_
                           (Assignment.interval_var_container_ assignment)) →
            e ∈ AssignmentContainer.elements_
                  (Assignment.interval_var_container_ assignment) →
            Assignment.interval_element (IntervalVarElement.var_ e) this'
            = Ok e).
Proof.
  intros Ho Ht. eexists _, _. split; [by apply Copy_objective|].
  split; [done|]. split; [done|]. split; [|split].
  - unfold Assignment.HasObjective.
    destruct (Assignment.obj_element_ assignment) as [lo|]; [|done].
    destruct (Assignment.obj_element_ this) as [lt|]; [|done].
    rewrite !bool_decide_eq_true_2 by done. done.
  - intros lo lt eo et -> -> -> ->. done.
  - unfold Assignment.int_element, Assignment.interval_element. simpl.
    split; [|split; [|split]].
    + intros v Hv.
      by apply (@Copy_absent IntVar IntVarElement.t _ IntVarElement_element
                  IntVarElement_Copy_all).
    + intros e Hnd Hin.
      by apply (@Copy_present IntVar IntVarElement.t _ IntVarElement_element
                  IntVarElement_Copy_all).
    + intros v Hv.
      by apply (@Copy_absent IntervalVar IntervalVarElement.t _
                  IntervalVarElement_element IntervalVarElement_Copy_all).
    + intros e Hnd Hin.
      by apply (@Copy_present IntervalVar IntervalVarElement.t _
                  IntervalVarElement_element IntervalVarElement_Copy_all).
Qed.

(** The witness of C3: the sample Assignment with the objective [z] takes
    the bounds and the activation of the objective of the other Assignment
    and keeps [z]; the element of [x] becomes the one of the other
    Assignment, the element of [y], which the other does not track, is
    unchanged. *)
Lemma Assignment_Copy_merges_witness :
  ∃ this' h',
    Assignment.Copy Sample.other Sample.with_objective Sample.two_heap
    = Ok (this', h')
    ∧ Assignment.Objective this' = Some Sample.z
    ∧ h' = <[1%positive := IntVarElement.Build (Some Sample.z) 4 6 false]>
             Sample.two_heap
    ∧ Assignment.int_element (Some Sample.x) this'
      = Ok (IntVarElement.Build (Some Sample.x) 1 2 false)
    ∧ Assignment.int_element (Some Sample.y) this'
      = Ok (IntVarElement.Build (Some Sample.y) 5 7 true).
Proof.
  destruct (Assignment_Copy_merges Sample.other Sample.with_objective
              Sample.two_heap)
    as (this' & h' & Hcopy & Hobj & _ & _ & Hboth & Habs & Hpres & _).
  { intros l [= <-]. by eexists. }
  { intros l [= <-]. by eexists. }
  exists this', h'. split; [exact Hcopy|]. split; [exact Hobj|].
  split; [|split].
  - apply (Hboth 2%positive 1%positive
             (IntVarElement.Build (Some Sample.y) 4 6 false)
             (IntVarElement.new (Some Sample.z))); reflexivity.
  - apply (Hpres (IntVarElement.Build (Some Sample.x) 1 2 false)).
    + apply (bool_decide_unpack _). vm_compute. exact I.
    + left.
  - rewrite (Habs (Some Sample.y)); [reflexivity|].
    repeat constructor; discriminate.
Defined.

(** ** Cloning *)

Lemma alloc_fresh (e : IntVarElement.t) (h : Assignment.heap) :
  h !! (Assignment.alloc e h).1 = None.
Proof. unfold Assignment.alloc. simpl. apply not_elem_of_dom, is_fresh. Qed.

Lemma update_frame l f (h h' : Assignment.heap) la :
  l ≠ la → Assignment.update l f h = Ok h' → h' !! la = h !! la.
Proof.
  unfold Assignment.update. intros Hne (e & _ & [= <-])%result_bind_Ok.
  by rewrite lookup_insert_ne.
Qed.

Lemma obj_mutable_frame f this (h h' : Assignment.heap) la :
  Assignment.obj_element_ this ≠ Some la →
  Assignment.obj_mutable f this h = Ok h' → h' !! la = h !! la.
Proof.
  unfold Assignment.obj_mutable. intros Hne.
  destruct (Assignment.obj_element_ this) as [l|]; [|by intros [= <-]].
  apply update_frame. congruence.
Qed.

Lemma Copy_frame assignment this (h h' : Assignment.heap) this' la :
  Assignment.obj_element_ this ≠ Some la →
  Assignment.Copy assignment this h = Ok (this', h') → h' !! la = h !! la.
Proof.
  unfold Assignment.Copy. intros Hne. simpl.
  destruct (Assignment.obj_element_ assignment) as [lo|];
    [|by intros [= _ <-]].
  destruct (Assignment.obj_element_ this) as [lt|]; [|by intros [= _ <-]].
  assert (lt ≠ la) as Hlt by congruence.
  intros (e & _ & H)%result_bind_Ok.
  apply result_bind_Ok in H as (h1 & H1 & H).
  apply result_bind_Ok in H as (e1 & _ & H).
  apply result_bind_Ok in H as (h2 & H2 & [= _ <-]).
  apply (update_frame _ _ _ _ la Hlt) in H1.
  destruct (IntVarElement.Activated e1);
    apply (update_frame _ _ _ _ la Hlt) in H2; congruence.
Qed.

Lemma Store_frame (M : Model) this (h h' : Assignment.heap)
  (w w' : World M) this' t la :
  Assignment.obj_element_ this ≠ Some la →
  run M (Assignment.Store this h) w = (Returned (this', h'), w', t) →
  h' !! la = h !! la.
Proof.
  unfold Assignment.Store. intros Hne.
  intros (ic & w1 & t1 & t2 & _ & H & _)%run_bind_Returned.
  apply run_bind_Returned in H as (vc & w2 & t3 & t4 & _ & H & _).
  simpl in H. destruct (Assignment.obj_element_ this) as [l|].
  - apply run_bind_Returned in H as (e & w3 & t5 & t6 & _ & H & _).
    apply run_bind_Returned in H as (e' & w4 & t7 & t8 & _ & H & _).
    simpl in H. injection H as _ <- _ _.
    rewrite lookup_insert_ne; [done|congruence].
  - simpl in H. by injection H as _ <- _ _.
Qed.

(** A call on an Assignment leaves alone every element of the heap that its
    own objective pointer does not address. *)
Lemma invoke_frame (M : Model) m this (h h' : Assignment.heap)
  (w w' : World M) this' t la :
  Assignment.obj_element_ this ≠ Some la →
  is_Some (h !! la) →
  run M (Assignment.invoke m this h) w = (Returned (this', h'), w', t) →
  h' !! la = h !! la ∧ Assignment.obj_element_ this' ≠ Some la.
Proof.
  intros Hne Hla Hrun. destruct m; unfold Assignment.invoke in Hrun.
  - injection Hrun as <- <- _ _. split; [|done].
    unfold Assignment.free.
    destruct (Assignment.obj_element_ this) as [l|]; [|done].
    rewrite lookup_delete_ne; [done|congruence].
  - split; [by eapply Store_frame|].
    apply Store_slot in Hrun as [-> _]. done.
  - apply run_bind_Returned in Hrun as (? & ? & ? & ? & _ & H & _).
    by injection H as <- <- _ _.
  - injection Hrun as <- <- _ _. split; [done|]. unfold Assignment.Add.
    by destruct (AssignmentContainer.Add v _).
  - injection Hrun as <- <- _ _. split; [done|].
    by destruct (AddAll_slot vs this) as [-> _].
  - injection Hrun as <- <- _ _. done.
  - change (run M (lift (Assignment.invoke_int_setter v s this)
                   ≫= (λ this0, mret (this0, h))) w
            = (Returned (this', h'), w', t)) in Hrun.
    apply run_bind_Returned in Hrun as (a & ? & ? & ? & Hs & H & _).
    injection H as <- <- _ _. split; [done|].
    apply run_lift_Returned in Hs as (Hs & _).
    destruct s; simpl in Hs; apply int_mutable_slot in Hs as [-> _]; done.
  - injection Hrun as <- <- _ _. split; [done|]. unfold Assignment.AddInterval.
    by destruct (AssignmentContainer.Add v _).
  - injection Hrun as <- <- _ _. split; [done|].
    by destruct (AddAllInterval_slot vs this) as [-> _].
  - injection Hrun as <- <- _ _. done.
  - change (run M (lift (Assignment.invoke_interval_setter v s this)
                   ≫= (λ this0, mret (this0, h))) w
            = (Returned (this', h'), w', t)) in Hrun.
    apply run_bind_Returned in Hrun as (a & ? & ? & ? & Hs & H & _).
    injection H as <- <- _ _. split; [done|].
    apply run_lift_Returned in Hs as (Hs & _).
    destruct s; simpl in Hs; apply interval_mutable_slot in Hs as [-> _]; done.
  - apply run_lift_Returned in Hrun as (Hs & _).
    unfold Assignment.AddObjective in Hs.
    apply result_bind_Ok in Hs as ([] & _ & Hs).
    pose proof (alloc_fresh (IntVarElement.new v) h) as Hfresh.
    destruct (Assignment.alloc (IntVarElement.new v) h) as [l h1] eqn:Halloc.
    injection Hs as <- <-. simpl in *.
    assert (l ≠ la) as Hl by (intros ->; rewrite Hfresh in Hla; by destruct Hla).
    unfold Assignment.alloc in Halloc. injection Halloc as Hl' <-.
    rewrite lookup_insert_ne by congruence. split; [done|congruence].
  - change (run M (lift (Assignment.invoke_objective_setter s this h)
                   ≫= (λ h0, mret (this, h0))) w
            = (Returned (this', h'), w', t)) in Hrun.
    apply run_bind_Returned in Hrun as (a & ? & ? & ? & Hs & H & _).
    injection H as <- <- _ _. split; [|done].
    apply run_lift_Returned in Hs as (Hs & _).
    destruct s; simpl in Hs; by eapply obj_mutable_frame.
  - apply run_lift_Returned in Hrun as (Hs & _).
    split; [by eapply Copy_frame|].
    apply Copy_slot in Hs as [-> _]. done.
Qed.

Lemma invoke_all_frame (M : Model) ms this (h h' : Assignment.heap)
  (w w' : World M) this' t la :
  Assignment.obj_element_ this ≠ Some la →
  is_Some (h !! la) →
  run M (Assignment.invoke_all ms this h) w = (Returned (this', h'), w', t) →
  h' !! la = h !! la.
Proof.
  revert this h w t. induction ms as [|m ms IH]; intros this h w t Hne Hla.
  - simpl. by intros [= _ <- _ _].
  - cbn [Assignment.invoke_all].
    intros ([this1 h1] & w1 & t1 & t2 & H1 & H2 & _)%run_bind_Returned.
    apply (invoke_frame _ _ _ _ _ _ _ _ _ la Hne Hla) in H1 as [Hh1 Hne1].
    apply IH in H2; [congruence|done|]. by rewrite Hh1.
Qed.

(** [DebugString] depends on the Assignment and the heap through the view
    only. *)
Lemma DebugString_view (M : Model) (c a : Assignment.t)
  (h1 h2 : Assignment.heap) (w : World M) :
  Assignment.view c h1 = Assignment.view a h2 →
  run M (Assignment.DebugString c h1) w
  = run M (Assignment.DebugString a h2) w.
Proof.
  unfold Assignment.view. intros [= Hints Hintervals _ Hobj].
  unfold Assignment.DebugString. rewrite Hints, Hintervals, !run_bind.
  destruct (run M (Assignment.append_elements _ _) w) as [[[out1| |] w1] t1];
    [|done..].
  rewrite !run_bind.
  destruct (run M (Assignment.append_elements _ _) w1) as [[[out2| |] w2] t2];
    [|done..].
  rewrite !run_bind. unfold Assignment.deref.
  destruct (Assignment.obj_element_ c) as [lc|],
    (Assignment.obj_element_ a) as [la|]; simpl in Hobj; try done.
  injection Hobj as ->. done.
Qed.

(** C7: copy-construction is a deep copy.  The clone has the containers and
    the objective variable of the original; when the original has an
    objective, the clone owns an objective element of its own, at another
    address, with the same variable, bounds and activation flag; so what can
    be observed of the clone right after cloning is what can be observed of
    the original, and [DebugString] returns the same for both in every state
    of the solver.  Cloning does not change the original, and no sequence of
    calls on the clone changes what can be observed of the original. *)
Theorem clone_is_an_independent_deep_copy
  (a : Assignment.t) (h : Assignment.heap) :
  Assignment_wf a h →
  ∃ c h',
    Assignment.copy_construct a h = Ok (c, h')
    ∧ Assignment.view c h' = Assignment.view a h
    ∧ Assignment.view a h' = Assignment.view a h
    ∧ Assignment_wf c h'
    ∧ (∀ l, Assignment.obj_element_ a = Some l →
            Assignment.obj_element_ c ≠ Some l)
    ∧ (∀ (M : Model) (w : World M),
         run M (Assignment.DebugString c h') w
         = run M (Assignment.DebugString a h') w)
    ∧ (∀ (ms : list Assignment.method) (M : Model) (w w' : World M)
         c' h'' t,
         run M (Assignment.invoke_all ms c h') w
         = (Returned (c', h''), w', t) →
         Assignment.view a h'' = Assignment.view a h).
Proof.
  intros [Hnone Hptr]. unfold Assignment.copy_construct, Assignment.view.
  destruct a as [ints intervals [la|] objective]; simpl in *.
  - destruct (Hptr la eq_refl) as [ea Hea].
    unfold Assignment.deref. rewrite Hea. simpl.
    pose proof (alloc_fresh (IntVarElement.Clone ea) h) as Hfresh.
    unfold Assignment.alloc in *. simpl in *.
    set (lc := fresh (dom h)) in *.
    assert (lc ≠ la) as Hne by congruence.
    unfold IntVarElement.Clone. rewrite IntVarElement_Copy_all.
    eexists _, _. split; [reflexivity|]. simpl.
    split; [by rewrite lookup_insert_eq|].
    split; [by rewrite lookup_insert_ne, Hea|].
    split; [split; [done|]; intros l [= <-]; by rewrite lookup_insert_eq|].
    split; [intros l [= <-]; congruence|]. split.
    + intros M w. apply DebugString_view. unfold Assignment.view. simpl.
      by rewrite lookup_insert_eq, lookup_insert_ne, Hea.
    + intros ms M w w' c' h'' t Hrun.
      apply (invoke_all_frame _ _ _ _ _ _ _ _ _ la) in Hrun; simpl.
      * by rewrite Hrun, lookup_insert_ne, Hea.
      * congruence.
      * by rewrite lookup_insert_ne, Hea.
  - rewrite Hnone by done. eexists _, _. split; [reflexivity|]. simpl.
    repeat split; try done.
Qed.

(** The witness of C7: the clone of the other sample Assignment has an
    objective element of its own, equal to the original one; emptying the
    clone, or moving its objective to 0, leaves the original as it was. *)
Lemma clone_is_an_independent_deep_copy_witness :
  Assignment_wf Sample.other Sample.two_heap
  ∧ ∃ c h',
      Assignment.copy_construct Sample.other Sample.two_heap = Ok (c, h')
      ∧ Assignment.obj_element_ c = Some 3%positive
      ∧ h' !! 3%positive = Some (IntVarElement.Build (Some Sample.y) 4 6 false)
      ∧ (∀ c' h'' w' t,
           run Engine.model
             (Assignment.invoke_all
                [Assignment.mSetObjective (Assignment.iSetValue 0);
                 Assignment.mSet (Some Sample.x) Assignment.iActivate;
                 Assignment.mClear] c h')
             Sample.solver
           = (Returned (c', h''), w', t) →
           Assignment.view Sample.other h''
           = Assignment.view Sample.other Sample.two_heap).
Proof.
  assert (Hwf : Assignment_wf Sample.other Sample.two_heap).
  { split; [discriminate|]. intros l [= <-]. by eexists. }
  split; [exact Hwf|].
  destruct (clone_is_an_independent_deep_copy Sample.other Sample.two_heap
              Hwf)
    as (c & h' & Hclone & _ & _ & _ & _ & _ & Hindep).
  exists c, h'. split; [exact Hclone|].
  vm_compute in Hclone. injection Hclone as <- <-.
  split; [reflexivity|]. split; [reflexivity|].
  intros c' h'' w' t. apply Hindep.
Defined.

(** * Further properties *)

(** ** Elements *)

(** X1: [Copy] and [Clone] of either kind of element copy every field: the
    bounds, the performed status, the variable and the activation flag.
    Nothing of the receiver of [Copy] survives, and the clone of a
    deactivated element is deactivated although a new element is active. *)
Theorem element_Copy_and_Clone_copy_every_field :
  (∀ element e : IntVarElement.t, IntVarElement.Copy element e = element)
  ∧ (∀ e : IntVarElement.t, IntVarElement.Clone e = e)
  ∧ (∀ element e : IntervalVarElement.t,
       IntervalVarElement.Copy element e = element)
  ∧ (∀ e : IntervalVarElement.t, IntervalVarElement.Clone e = e).
Proof.
  split; [exact IntVarElement_Copy_all|].
  split; [intros e; apply IntVarElement_Copy_all|].
  split; [exact IntervalVarElement_Copy_all|].
  intros e; apply IntervalVarElement_Copy_all.
Qed.

Lemma perform_idle (M : Model) (w : World M) (cs : list command) :
  Forall (λ c, step M c w = Some w) cs →
  perform M cs w = (Returned tt, w, EvCommand <$> cs).
Proof.
  induction 1 as [|c cs Hc _ IH]; [reflexivity|].
  simpl. by rewrite Hc, IH.
Qed.

(** X2: the store of an interval element followed by its restore is a round
    trip.  When the solver accepts the push of a variable's own current
    domain without change, the element stored from the variable restores
    without failure and leaves the solver as it was: [Restore] pushes the
    ranges under the very condition under which [Store] read them, and
    forces the status only when the variable has decided it. *)
Theorem IntervalVarElement_Store_then_Restore
  (M : Model) (w : World M) (e : IntervalVarElement.t) (v : IntervalVar) :
  IntervalVarElement.var_ e = Some v →
  own_domain_idle M w v →
  ∃ e' t,
    run M (IntervalVarElement.Store e) w = (Returned e', w, t)
    ∧ run M (IntervalVarElement.Restore e') w
      = (Returned tt, w, EvCommand <$> Restore_calls v e')
    ∧ run M (e' ← IntervalVarElement.Store e; IntervalVarElement.Restore e') w
      = (Returned tt, w, t ++ (EvCommand <$> Restore_calls v e')).
Proof.
  intros Hv (Hperf & Hranges).
  assert (Hstore : ∃ e' t,
    run M (IntervalVarElement.Store e) w = (Returned e', w, t)
    ∧ IntervalVarElement.var_ e' = Some v
    ∧ Forall (λ c, step M c w = Some w) (Restore_calls v e')).
  { destruct e as [var smin smax dmin dmax emin emax pmin0 pmax0 act].
    simpl in Hv. subst var. unfold IntervalVarElement.Store. simpl.
    destruct (bool_decide_reflect
                (answer M (IntervalVar_PerformedMax v) w ≠ 0)) as [H0|H0].
    - eexists _, _. split; [reflexivity|]. split; [reflexivity|].
      unfold Restore_calls. simpl.
      rewrite (bool_decide_eq_true_2 (_ ≠ 0)) by exact H0.
      destruct (Hranges H0) as (Hs & Hd & He).
      apply Forall_app. split; [|by repeat constructor].
      case_bool_decide; [|constructor].
      repeat constructor. apply Hperf. congruence.
    - eexists _, _. split; [reflexivity|]. split; [reflexivity|].
      unfold Restore_calls. simpl.
      rewrite (bool_decide_eq_false_2 (_ ≠ 0)) by exact H0.
      rewrite app_nil_r. case_bool_decide; [|constructor].
      repeat constructor. apply Hperf. congruence. }
  destruct Hstore as (e' & t & Hrun & Hv' & Hidle).
  exists e', t. split; [exact Hrun|].
  assert (run M (IntervalVarElement.Restore e') w
          = (Returned tt, w, EvCommand <$> Restore_calls v e')) as Hrestore.
  { rewrite (IntervalVarElement_Restore_perform M w e' v Hv').
    by apply perform_idle. }
  split; [exact Hrestore|]. by rewrite run_bind, Hrun, Hrestore.
Qed.

(** The witness of X2: the undecided task and the unperformed idle interval
    of the sample solver. *)
Lemma IntervalVarElement_Store_then_Restore_witness :
  (∃ e' t,
     run Engine.model
       (e' ← IntervalVarElement.Store Sample.unperformed_task;
        IntervalVarElement.Restore e') Sample.solver
     = (Returned tt, Sample.solver, t)
     ∧ e' = IntervalVarElement.Build (Some Sample.task) 0 100 5 5 5 105 0 1
              true)
  ∧ (∃ e' t,
       run Engine.model
         (e' ← IntervalVarElement.Store Sample.stale_idle;
          IntervalVarElement.Restore e') Sample.solver
       = (Returned tt, Sample.solver, t)
       ∧ Restore_calls Sample.idle e'
         = [IntervalVar_SetPerformed Sample.idle 0]).
Proof.
  split.
  - destruct (IntervalVarElement_Store_then_Restore Engine.model
                Sample.solver Sample.unperformed_task Sample.task eq_refl)
      as (e' & t & Hstore & _ & Hboth).
    { split; [intros H; vm_compute in H; discriminate|].
      intros _. repeat split; vm_compute; reflexivity. }
    exists e'. eexists. split; [exact Hboth|].
    vm_compute in Hstore. by injection Hstore as <- _.
  - destruct (IntervalVarElement_Store_then_Restore Engine.model
                Sample.solver Sample.stale_idle Sample.idle eq_refl)
      as (e' & t & Hstore & _ & Hboth).
    { split; [intros _; vm_compute; reflexivity|].
      intros H. exfalso. apply H. reflexivity. }
    exists e'. eexists. split; [exact Hboth|].
    vm_compute in Hstore. by injection Hstore as <- _.
Defined.

(** ** The name index of a container *)

Lemma IdToElementMap_loop_run {V E} `{AssignmentElement V E} (M : Model)
  (w : World M) (elements : list E) (i : nat) (m : gmap string nat)
  (log : list string) :
  Forall (λ e, is_Some (elt_Var e)) elements →
  ∃ m' log' t,
    run M (IdToElementMap_loop i elements m log) w = (Returned (m', log'), w, t)
    ∧ (∀ name,
         m' !! name
         = match m !! name with
           | Some j => Some j
           | None =>
               if bool_decide (name = "") then None
               else (λ k, (i + k)%nat)
                    <$> (fst <$> list_find (λ n, n = Some name)
                                   (element_names M w elements))
           end)
    ∧ (size m' + length log' = size m + length log + length elements)%nat
    ∧ Forall (λ ev, is_read ev = true) t.
Proof.
  intros Hbound. revert i m log.
  induction Hbound as [|e elements [v Hv] _ IH]; intros i m log.
  - eexists _, _, _. split; [reflexivity|]. split; [|split; [simpl; lia|done]].
    intros name. destruct (m !! name); [done|]. by case_bool_decide.
  - cbn [IdToElementMap_loop]. rewrite Hv. simpl via.
    unfold ask_name. cbn [mbind prog_bind prog_then run].
    set (name := answer_name M (elt_name v) w).
    assert (Hnames : element_names M w (e :: elements)
                     = Some name :: element_names M w elements).
    { unfold element_names. rewrite fmap_cons, Hv. reflexivity. }
    rewrite Hnames.
    destruct (bool_decide_reflect (name = "")) as [Hempty|Hempty];
      [|destruct (bool_decide_reflect (is_Some (m !! name))) as [Hdup|Hnew]].
    + destruct (IH (S i) m (log ++ [empty_name_log]))
        as (m' & log' & t & Hrun & Hm & Hsize & Ht).
      rewrite Hrun. eexists _, _, _. split; [reflexivity|].
      split; [|split; [rewrite length_app in Hsize; simpl in *; lia
                      |by constructor]].
      intros n. rewrite Hm. destruct (m !! n); [done|].
      case_bool_decide as Hn; [done|]. cbn [list_find].
      rewrite decide_False by congruence.
      destruct (list_find _ _) as [[k x]|]; simpl; [f_equal; lia|done].
    + destruct (IH (S i) m (log ++ [duplicate_name_log name]))
        as (m' & log' & t & Hrun & Hm & Hsize & Ht).
      rewrite Hrun. eexists _, _, _. split; [reflexivity|].
      split; [|split; [rewrite length_app in Hsize; simpl in *; lia
                      |by constructor]].
      intros n. rewrite Hm. destruct (m !! n) eqn:Hmn; [done|].
      case_bool_decide as Hn; [done|]. cbn [list_find].
      rewrite decide_False
        by (intros [= <-]; rewrite Hmn in Hdup; by destruct Hdup).
      destruct (list_find _ _) as [[k x]|]; simpl; [f_equal; lia|done].
    + destruct (IH (S i) (<[name := i]> m) log)
        as (m' & log' & t & Hrun & Hm & Hsize & Ht).
      rewrite Hrun. eexists _, _, _. split; [reflexivity|].
      assert (m !! name = None) as Hfree
        by (destruct (m !! name); [exfalso; apply Hnew; by eexists|done]).
      split; [|split; [rewrite map_size_insert_None in Hsize by done;
                       simpl in *; lia
                      |by constructor]].
      intros n. rewrite Hm. destruct (decide (name = n)) as [<-|Hne].
      * rewrite lookup_insert_eq, Hfree.
        rewrite bool_decide_eq_false_2 by done. cbn [list_find].
        rewrite decide_True by done. simpl. f_equal. lia.
      * rewrite lookup_insert_ne by done. destruct (m !! n); [done|].
        case_bool_decide as Hn; [done|]. cbn [list_find].
        rewrite decide_False by congruence.
        destruct (list_find _ _) as [[k x]|]; simpl; [f_equal; lia|done].
Qed.

(** X3: [IdToElementMap] indexes the first element of each name.  For a
    container whose elements all have a variable it returns without touching
    the solver, and a name is a key of the map exactly when it is not empty
    and some variable bears it; the key then points to the first element
    whose variable bears that name.  What the map held before the call plays
    no part. *)
Theorem IdToElementMap_indexes_first_of_each_name
  {V E} `{AssignmentElement V E} (M : Model) (w : World M)
  (container : AssignmentContainer.t E) (before : gmap string nat) :
  Forall (λ e, is_Some (elt_Var e)) (AssignmentContainer.elements_ container) →
  ∃ m log t,
    run M (IdToElementMap container (Some before)) w
    = (Returned (m, log), w, t)
    ∧ ∀ name i,
        m !! name = Some i
        ↔ name ≠ ""
          ∧ element_names M w (AssignmentContainer.elements_ container) !! i
            = Some (Some name)
          ∧ ∀ j, (j < i)%nat →
                 element_names M w (AssignmentContainer.elements_ container)
                   !! j
                 ≠ Some (Some name).
Proof.
  intros Hbound.
  destruct (IdToElementMap_loop_run M w
              (AssignmentContainer.elements_ container) 0 ∅ [] Hbound)
    as (m & log & t & Hrun & Hm & _ & _).
  exists m, log, t. split.
  - unfold IdToElementMap. rewrite run_bind. simpl. by rewrite Hrun.
  - intros name i. rewrite Hm, lookup_empty.
    case_bool_decide as Hname; [split; [done|by intros [? _]]|].
    destruct (list_find _ _) as [[k x]|] eqn:Hfind; simpl.
    + apply list_find_Some in Hfind as (Hk & -> & Hfirst). split.
      * intros [= <-]. split; [done|]. split; [done|].
        intros j Hj Hjn. by eapply Hfirst.
      * intros (_ & Hi & Hbefore). f_equal.
        destruct (Nat.lt_trichotomy k i) as [Hlt|[->|Hgt]]; [|done|].
        -- by apply Hbefore in Hlt.
        -- by eapply Hfirst in Hgt.
    + apply list_find_None in Hfind. split; [done|].
      intros (_ & Hi & _). rewrite Forall_forall in Hfind.
      exfalso. eapply Hfind; [|done]. apply list_elem_of_lookup. by exists i.
Qed.

(** X4: [IdToElementMap] indexes or logs every element.  A NULL map is fatal
    before any variable is read.  Otherwise, for a container whose elements
    all have a variable, each element either adds one key or one logged line
    (an empty name, or a name that is a key already), so the number of keys
    and the number of lines add up to the size of the container; the call
    only reads names. *)
Theorem IdToElementMap_indexes_or_logs
  {V E} `{AssignmentElement V E} (M : Model) (w : World M)
  (container : AssignmentContainer.t E) (before : gmap string nat) :
  Forall (λ e, is_Some (elt_Var e)) (AssignmentContainer.elements_ container) →
  run M (IdToElementMap container None) w = (Aborted, w, [])
  ∧ ∃ m log t,
      run M (IdToElementMap container (Some before)) w
      = (Returned (m, log), w, t)
      ∧ (size m + length log)%nat = AssignmentContainer.Size container
      ∧ Forall (λ ev, is_read ev = true) t.
Proof.
  intros Hbound. split; [reflexivity|].
  destruct (IdToElementMap_loop_run M w
              (AssignmentContainer.elements_ container) 0 ∅ [] Hbound)
    as (m & log & t & Hrun & _ & Hsize & Ht).
  exists m, log, t. split; [|split; [|exact Ht]].
  - unfold IdToElementMap. rewrite run_bind. simpl. by rewrite Hrun.
  - rewrite map_size_empty in Hsize. simpl in Hsize.
    unfold AssignmentContainer.Size. lia.
Qed.

(** The witness of X3: of the two variables named [load] the first is
    indexed, at position 0; [cost] is at position 3; no key is empty. *)
Lemma IdToElementMap_indexes_first_of_each_name_witness :
  ∃ m log t,
    run Engine.model (IdToElementMap NamedSample.container (Some ∅))
      NamedSample.solver
    = (Returned (m, log), NamedSample.solver, t)
    ∧ m !! "load" = Some 0%nat
    ∧ m !! "cost" = Some 3%nat
    ∧ m !! "" = None.
Proof.
  destruct (IdToElementMap_indexes_first_of_each_name Engine.model
              NamedSample.solver NamedSample.container ∅)
    as (m & log & t & Hrun & Hm).
  { repeat constructor; by eexists. }
  exists m, log, t. split; [exact Hrun|]. split; [|split].
  - apply Hm. split; [done|]. split; [reflexivity|]. intros j Hj. lia.
  - apply Hm. split; [done|]. split; [reflexivity|].
    intros j Hj. do 3 (destruct j as [|j]; [by vm_compute|]). lia.
  - destruct (m !! "") as [i|] eqn:Hi; [|done].
    apply Hm in Hi as [Hi _]. done.
Defined.

(** The witness of X4: two keys and two logged lines for four elements. *)
Lemma IdToElementMap_indexes_or_logs_witness :
  run Engine.model (IdToElementMap NamedSample.container None)
    NamedSample.solver
  = (Aborted, NamedSample.solver, [])
  ∧ (run Engine.model (IdToElementMap NamedSample.container (Some ∅))
       NamedSample.solver).1.1
    = Returned
        (<["load" := 0%nat]> (<["cost" := 3%nat]> ∅),
         [empty_name_log; duplicate_name_log "load"]).
Proof.
  destruct (IdToElementMap_indexes_or_logs Engine.model NamedSample.solver
              NamedSample.container ∅) as [Hnull _].
  { repeat constructor; by eexists. }
  split; [exact Hnull|]. vm_compute. reflexivity.
Defined.

(** ** Clearing and destroying *)

Lemma delete_fresh_insert (h : Assignment.heap) (l : positive)
  (e : IntVarElement.t) :
  h !! l = None → delete l (<[l := e]> h) = h.
Proof. intros Hl. rewrite delete_insert_eq. by apply delete_id. Qed.

(** X5: [Clear] takes an Assignment back to the state of a freshly
    constructed one, whatever it held, and releases exactly its objective
    element: that cell is gone from the heap and every other cell is as
    before.  Clearing twice is clearing once, and clearing right after the
    objective was added gives back the heap from before the addition; the
    cleared Assignment renders as [Assignment()], without any call. *)
Theorem Clear_returns_to_the_constructed_state
  (this : Assignment.t) (h : Assignment.heap) :
  (Assignment.Clear this h).1 = Assignment.new
  ∧ (∀ l, (Assignment.Clear this h).2 !! l
          = if bool_decide (Assignment.obj_element_ this = Some l)
            then None else h !! l)
  ∧ Assignment.Clear (Assignment.Clear this h).1 (Assignment.Clear this h).2
    = Assignment.Clear this h
  ∧ (∀ v this1 h1,
       Assignment.AddObjective v this h = Ok (this1, h1) →
       (Assignment.Clear this1 h1).2 = h)
  ∧ (∀ (M : Model) (w : World M),
       run M (Assignment.DebugString (Assignment.Clear this h).1
                (Assignment.Clear this h).2) w
       = (Returned "Assignment()", w, [])).
Proof.
  split; [reflexivity|]. split; [|split; [reflexivity|split; [|reflexivity]]].
  - intros l. unfold Assignment.Clear, Assignment.free. simpl.
    destruct (Assignment.obj_element_ this) as [l'|]; [|done].
    case_bool_decide as Hl.
    + injection Hl as ->. apply lookup_delete_eq.
    + apply lookup_delete_ne. congruence.
  - intros v this1 h1. unfold Assignment.AddObjective.
    intros ([] & _ & Hadd)%result_bind_Ok.
    pose proof (alloc_fresh (IntVarElement.new v) h) as Hfresh.
    unfold Assignment.alloc in *. simpl in *. injection Hadd as <- <-.
    simpl. by apply delete_fresh_insert.
Qed.

(** X6: a clone does not leak and does not share.  When the copy constructor
    returns, destroying the clone gives back exactly the heap from before
    the cloning, and destroying the original instead leaves the objective
    element of the clone in place. *)
Theorem clone_then_destroy_restores_the_heap
  (a c : Assignment.t) (h h' : Assignment.heap) :
  Assignment.copy_construct a h = Ok (c, h') →
  Assignment.destroy c h' = h
  ∧ (∀ l, Assignment.obj_element_ c = Some l →
          Assignment.destroy a h' !! l = h' !! l ∧ is_Some (h' !! l)).
Proof.
  unfold Assignment.copy_construct, Assignment.destroy, Assignment.free.
  destruct (Assignment.obj_element_ a) as [la|] eqn:Hla.
  - intros (e & He & Hclone)%result_bind_Ok.
    pose proof (alloc_fresh (IntVarElement.Clone e) h) as Hfresh.
    unfold Assignment.alloc in *. simpl in *. injection Hclone as <- <-.
    simpl. split; [by apply delete_fresh_insert|].
    intros l [= <-]. unfold Assignment.deref in He.
    destruct (h !! la) eqn:Hh; [|done].
    assert (la ≠ fresh (dom h)) by congruence.
    rewrite lookup_delete_ne by done. split; [done|].
    rewrite lookup_insert_eq. by eexists.
  - intros [= <- <-]. simpl. split; [done|]. intros l [=].
Qed.

(** The witness of X6: the clone of the other sample Assignment lives at
    address 3; destroying it gives back the heap of the two samples. *)
Lemma clone_then_destroy_restores_the_heap_witness :
  ∃ c h',
    Assignment.copy_construct Sample.other Sample.two_heap = Ok (c, h')
    ∧ Assignment.obj_element_ c = Some 3%positive
    ∧ Assignment.destroy c h' = Sample.two_heap.
Proof.
  destruct (Assignment.copy_construct Sample.other Sample.two_heap)
    as [[c h']|] eqn:Hc; [|by vm_compute in Hc].
  exists c, h'. split; [reflexivity|]. split.
  - vm_compute in Hc. by injection Hc as <- _.
  - by apply (clone_then_destroy_restores_the_heap Sample.other c).
Defined.

(** ** The objective slot across calls *)

Lemma IntVarElement_Store_Returned (M : Model) (e e' : IntVarElement.t)
  (w w' : World M) t :
  run M (IntVarElement.Store e) w = (Returned e', w', t) →
  IntVarElement.var_ e' = IntVarElement.var_ e
  ∧ IntVarElement.activated_ e' = IntVarElement.activated_ e.
Proof.
  unfold IntVarElement.Store. destruct (IntVarElement.var_ e) as [v|] eqn:Hv;
    simpl; [|done].
  intros [= <- _ _]. done.
Qed.

Lemma slot_ok_frame (this this' : Assignment.t) (h h' : Assignment.heap) :
  Assignment.obj_element_ this' = Assignment.obj_element_ this →
  Assignment.objective_ this' = Assignment.objective_ this →
  (∀ l, Assignment.obj_element_ this = Some l →
        ∃ e e', h !! l = Some e ∧ h' !! l = Some e'
                ∧ IntVarElement.var_ e' = IntVarElement.var_ e) →
  objective_slot_ok this h → objective_slot_ok this' h'.
Proof.
  unfold objective_slot_ok. intros -> -> Hcell.
  destruct (Assignment.obj_element_ this) as [l|]; [|done].
  intros (e0 & He0 & Hv). destruct (Hcell l eq_refl) as (e & e' & He & He' & Hv').
  exists e'. split; [done|]. congruence.
Qed.

Lemma update_slot (l : positive) (f : IntVarElement.t → IntVarElement.t)
  (h h' : Assignment.heap) :
  (∀ e, IntVarElement.var_ (f e) = IntVarElement.var_ e) →
  Assignment.update l f h = Ok h' →
  ∃ e e', h !! l = Some e ∧ h' !! l = Some e'
          ∧ IntVarElement.var_ e' = IntVarElement.var_ e.
Proof.
  intros Hf. unfold Assignment.update, Assignment.deref.
  destruct (h !! l) as [e|] eqn:He; [|done]. simpl. intros [= <-].
  exists e, (f e). by rewrite lookup_insert_eq.
Qed.

Lemma invoke_slot_ok (M : Model) m this (h h' : Assignment.heap)
  (w w' : World M) this' t :
  objective_slot_ok this h →
  run M (Assignment.invoke m this h) w = (Returned (this', h'), w', t) →
  objective_slot_ok this' h'.
Proof.
  intros Hok Hrun. destruct m; unfold Assignment.invoke in Hrun.
  - by injection Hrun as <- <- _ _.
  - pose proof (Store_slot _ _ _ _ _ _ _ _ Hrun) as [Ho Hv].
    revert Hok. apply slot_ok_frame; [done..|]. intros l Hl.
    unfold Assignment.Store in Hrun.
    apply run_bind_Returned in Hrun as (ic & w1 & t1 & t2 & _ & H & _).
    apply run_bind_Returned in H as (vc & w2 & t3 & t4 & _ & H & _).
    simpl in H. rewrite Hl in H.
    apply run_bind_Returned in H as (e & w3 & t5 & t6 & He & H & _).
    apply run_bind_Returned in H as (e' & w4 & t7 & t8 & He' & H & _).
    simpl in H. injection H as _ <- _ _.
    apply run_lift_Returned in He as (He & _).
    unfold Assignment.deref in He. destruct (h !! l) as [e0|] eqn:Hh; [|done].
    injection He as ->. apply IntVarElement_Store_Returned in He' as [Hvar _].
    exists e, e'. by rewrite lookup_insert_eq.
  - apply run_bind_Returned in Hrun as (? & ? & ? & ? & _ & H & _).
    by injection H as <- <- _ _.
  - injection Hrun as <- <- _ _. revert Hok. unfold Assignment.Add.
    by destruct (AssignmentContainer.Add v _).
  - injection Hrun as <- <- _ _. revert Hok. unfold objective_slot_ok.
    by destruct (AddAll_slot vs this) as [-> ->].
  - by injection Hrun as <- <- _ _.
  - change (run M (lift (Assignment.invoke_int_setter v s this)
                   ≫= (λ this0, mret (this0, h))) w
            = (Returned (this', h'), w', t)) in Hrun.
    apply run_bind_Returned in Hrun as (a & ? & ? & ? & Hs & H & _).
    injection H as <- <- _ _.
    apply run_lift_Returned in Hs as (Hs & _). revert Hok.
    unfold objective_slot_ok.
    destruct s; simpl in Hs; apply int_mutable_slot in Hs as [-> ->]; done.
  - injection Hrun as <- <- _ _. revert Hok. unfold Assignment.AddInterval.
    by destruct (AssignmentContainer.Add v _).
  - injection Hrun as <- <- _ _. revert Hok. unfold objective_slot_ok.
    by destruct (AddAllInterval_slot vs this) as [-> ->].
  - by injection Hrun as <- <- _ _.
  - change (run M (lift (Assignment.invoke_interval_setter v s this)
                   ≫= (λ this0, mret (this0, h))) w
            = (Returned (this', h'), w', t)) in Hrun.
    apply run_bind_Returned in Hrun as (a & ? & ? & ? & Hs & H & _).
    injection H as <- <- _ _.
    apply run_lift_Returned in Hs as (Hs & _). revert Hok.
    unfold objective_slot_ok.
    destruct s; simpl in Hs; apply interval_mutable_slot in Hs as [-> ->];
      done.
  - apply run_lift_Returned in Hrun as (Hs & _).
    unfold Assignment.AddObjective in Hs.
    apply result_bind_Ok in Hs as ([] & _ & Hs).
    unfold Assignment.alloc in Hs. simpl in Hs. injection Hs as <- <-.
    unfold objective_slot_ok. simpl. eexists. by rewrite lookup_insert_eq.
  - change (run M (lift (Assignment.invoke_objective_setter s this h)
                   ≫= (λ h0, mret (this, h0))) w
            = (Returned (this', h'), w', t)) in Hrun.
    apply run_bind_Returned in Hrun as (a & ? & ? & ? & Hs & H & _).
    injection H as <- <- _ _.
    apply run_lift_Returned in Hs as (Hs & _).
    revert Hok. apply slot_ok_frame; [done..|]. intros l Hl.
    destruct s; simpl in Hs;
      unfold Assignment.SetObjectiveMin, Assignment.SetObjectiveMax,
        Assignment.SetObjectiveRange, Assignment.SetObjectiveValue,
        Assignment.ActivateObjective, Assignment.DeactivateObjective,
        Assignment.obj_mutable in Hs;
      rewrite Hl in Hs; (eapply update_slot; last exact Hs); by intros [].
  - apply run_lift_Returned in Hrun as (Hs & _).
    pose proof (Copy_slot _ _ _ _ _ Hs) as [Ho Hv].
    unfold Assignment.Copy in Hs. simpl in Hs.
    destruct (Assignment.obj_element_ assignment) as [lo|];
      [|injection Hs as _ <-; revert Hok; unfold objective_slot_ok;
        by rewrite Ho, Hv].
    destruct (Assignment.obj_element_ this) as [l|] eqn:Hl;
      [|injection Hs as _ <-; revert Hok; unfold objective_slot_ok;
        by rewrite Ho, Hv, Hl].
    revert Hok. apply slot_ok_frame; [congruence..|].
    rewrite Hl. intros l' [= <-].
    apply result_bind_Ok in Hs as (eo & _ & Hs).
    apply result_bind_Ok in Hs as (h1 & H1 & Hs).
    apply result_bind_Ok in Hs as (e1 & _ & Hs).
    apply result_bind_Ok in Hs as (h2 & H2 & [= _ <-]).
    apply update_slot in H1 as (e & e' & He & He' & Hvar); [|done].
    destruct (IntVarElement.Activated e1);
      (apply update_slot in H2 as (x & x' & Hx & Hx' & Hvar'); [|done]);
      exists e, x'; (split; [done|]); (split; [done|]); congruence.
Qed.

Lemma invoke_all_slot_ok (M : Model) ms this (h h' : Assignment.heap)
  (w w' : World M) this' t :
  objective_slot_ok this h →
  run M (Assignment.invoke_all ms this h) w = (Returned (this', h'), w', t) →
  objective_slot_ok this' h'.
Proof.
  revert this h w t. induction ms as [|m ms IH]; intros this h w t Hok.
  - simpl. by intros [= <- <- _ _].
  - cbn [Assignment.invoke_all].
    intros ([this1 h1] & w1 & t1 & t2 & H1 & H2 & _)%run_bind_Returned.
    eapply IH; [|exact H2]. by eapply invoke_slot_ok.
Qed.

(** X7: the objective slot stays consistent.  The objective variable is set
    only together with the objective element, the pointer addresses an
    element of the heap, and that element is bound to the objective
    variable; this holds for a constructed Assignment and after every
    sequence of calls that returns.  So an Assignment without objective
    element reports no objective variable, the getters of the bounds and of
    the activation of the objective never read a dangling pointer, and
    copy-construction returns a copy whose slot is consistent and names the
    same objective. *)
Theorem objective_slot_stays_consistent (M : Model)
  (ms : list Assignment.method) (this this' : Assignment.t)
  (h h' : Assignment.heap) (w w' : World M) (t : list event) :
  objective_slot_ok this h →
  run M (Assignment.invoke_all ms this h) w = (Returned (this', h'), w', t) →
  objective_slot_ok this' h'
  ∧ (Assignment.HasObjective this' = false →
     Assignment.Objective this' = None)
  ∧ (∃ mi ma b a,
       Assignment.ObjectiveMin this' h' = Ok mi
       ∧ Assignment.ObjectiveMax this' h' = Ok ma
       ∧ Assignment.ObjectiveBound this' h' = Ok b
       ∧ Assignment.ActivatedObjective this' h' = Ok a)
  ∧ (∃ c h'',
       Assignment.copy_construct this' h' = Ok (c, h'')
       ∧ objective_slot_ok c h''
       ∧ Assignment.Objective c = Assignment.Objective this').
Proof.
  intros Hok Hrun. pose proof (invoke_all_slot_ok _ _ _ _ _ _ _ _ _ Hok Hrun)
    as Hok'.
  split; [exact Hok'|]. clear Hok Hrun. unfold objective_slot_ok in Hok'.
  unfold Assignment.HasObjective, Assignment.Objective,
    Assignment.ObjectiveMin, Assignment.ObjectiveMax,
    Assignment.ObjectiveBound, Assignment.ActivatedObjective,
    Assignment.copy_construct, Assignment.deref.
  destruct (Assignment.obj_element_ this') as [l|].
  - destruct Hok' as (e & He & Hv). rewrite He. simpl.
    split; [done|].
    split; [by eexists _, _, _, _|].
    eexists _, _. split; [reflexivity|]. unfold objective_slot_ok. simpl.
    split; [|done]. eexists. rewrite lookup_insert_eq. split; [done|].
    unfold IntVarElement.Clone. by rewrite IntVarElement_Copy_all.
  - split; [done|]. split; [by eexists _, _, _, _|].
    eexists _, _. split; [reflexivity|]. done.
Qed.

(** The witness of X7: a constructed Assignment, given an objective, a
    value for it, emptied and given another objective. *)
Lemma objective_slot_stays_consistent_witness :
  objective_slot_ok Assignment.new ∅
  ∧ ∃ this' h',
      (run Engine.model
         (Assignment.invoke_all
            [Assignment.mAddObjective (Some Sample.x);
             Assignment.mSetObjective (Assignment.iSetValue 3);
             Assignment.mStore;
             Assignment.mClear;
             Assignment.mAddObjective (Some Sample.y)]
            Assignment.new ∅) Sample.solver).1.1
      = Returned (this', h')
      ∧ objective_slot_ok this' h'
      ∧ Assignment.Objective this' = Some Sample.y.
Proof.
  assert (Hnew : objective_slot_ok Assignment.new ∅) by reflexivity.
  split; [exact Hnew|].
  destruct (run Engine.model
              (Assignment.invoke_all
                 [Assignment.mAddObjective (Some Sample.x);
                  Assignment.mSetObjective (Assignment.iSetValue 3);
                  Assignment.mStore;
                  Assignment.mClear;
                  Assignment.mAddObjective (Some Sample.y)]
                 Assignment.new ∅) Sample.solver)
    as [[[[this' h']| |] w'] t] eqn:Hrun; [|by vm_compute in Hrun..].
  exists this', h'. split; [reflexivity|].
  destruct (objective_slot_stays_consistent Engine.model _ _ _ _ _ _ _ _
              Hnew Hrun) as (Hok & _).
  split; [exact Hok|]. vm_compute in Hrun. by injection Hrun as <- _ _ _.
Defined.

(** ** The setters of the objective *)

(** X8: the setters of the objective write the objective element only.
    Without objective each of them returns and changes nothing.  With an
    objective each of them replaces the element that the pointer addresses
    and nothing else of the heap; the element keeps its variable, and the
    getters read back what was set: the bound that was set with the other
    bound and the activation kept, a value as both bounds, the activation
    flag with both bounds kept. *)
Theorem objective_setters_write_the_objective_element
  (s : Assignment.int_setter) (this : Assignment.t) (h : Assignment.heap) :
  match Assignment.obj_element_ this with
  | None => Assignment.invoke_objective_setter s this h = Ok h
  | Some l =>
      match h !! l with
      | None => True
      | Some e =>
          ∃ e',
            Assignment.invoke_objective_setter s this h = Ok (<[l := e']> h)
            ∧ IntVarElement.var_ e' = IntVarElement.var_ e
            ∧ Assignment.ObjectiveMin this (<[l := e']> h)
              = Ok match s with
                   | Assignment.iSetMin m => m
                   | Assignment.iSetRange lo _ => lo
                   | Assignment.iSetValue v => v
                   | _ => IntVarElement.min_ e
                   end
            ∧ Assignment.ObjectiveMax this (<[l := e']> h)
              = Ok match s with
                   | Assignment.iSetMax m => m
                   | Assignment.iSetRange _ up => up
                   | Assignment.iSetValue v => v
                   | _ => IntVarElement.max_ e
                   end
            ∧ Assignment.ActivatedObjective this (<[l := e']> h)
              = Ok match s with
                   | Assignment.iActivate => true
                   | Assignment.iDeactivate => false
                   | _ => IntVarElement.activated_ e
                   end
            ∧ match s with
              | Assignment.iSetValue v =>
                  Assignment.ObjectiveValue this (<[l := e']> h) = Ok v
                  ∧ Assignment.ObjectiveBound this (<[l := e']> h) = Ok true
              | _ => True
              end
      end
  end.
Proof.
  destruct (Assignment.obj_element_ this) as [l|] eqn:Hl.
  - destruct (h !! l) as [e|] eqn:He.
    + unfold Assignment.ObjectiveMin, Assignment.ObjectiveMax,
        Assignment.ActivatedObjective, Assignment.ObjectiveValue,
        Assignment.ObjectiveBound, Assignment.deref.
      rewrite Hl.
      destruct s; simpl;
        unfold Assignment.SetObjectiveMin, Assignment.SetObjectiveMax,
          Assignment.SetObjectiveRange, Assignment.SetObjectiveValue,
          Assignment.ActivateObjective, Assignment.DeactivateObjective,
          Assignment.obj_mutable, Assignment.update, Assignment.deref;
        rewrite Hl, He; simpl; eexists; (split; [reflexivity|]);
        rewrite lookup_insert_eq; simpl; repeat (split; [done|]);
        try done.
      unfold IntVarElement.Value, IntVarElement.Bound. simpl.
      by rewrite bool_decide_eq_true_2.
    + exact I.
  - destruct s; simpl;
      unfold Assignment.SetObjectiveMin, Assignment.SetObjectiveMax,
        Assignment.SetObjectiveRange, Assignment.SetObjectiveValue,
        Assignment.ActivateObjective, Assignment.DeactivateObjective,
        Assignment.obj_mutable;
      by rewrite Hl.
Qed.

(** ** Programs that only read the solver *)

Lemma only_reads_ret (M : Model) {A} (a : A) : only_reads M (mret a).
Proof. intros w. by repeat split. Qed.

Lemma only_reads_lift (M : Model) {A} (r : result A) : only_reads M (lift r).
Proof. intros w. destruct r; by repeat split. Qed.

Lemma only_reads_via_ask (M : Model) {V} (p : option V) (q : V → query) :
  only_reads M (via p (λ v, ask (q v))).
Proof. intros w. destruct p; simpl; repeat split; by repeat constructor. Qed.

Lemma only_reads_via_ask_name (M : Model) {V} (p : option V)
  (n : V → name_query) :
  only_reads M (via p (λ v, ask_name (n v))).
Proof. intros w. destruct p; simpl; repeat split; by repeat constructor. Qed.

Lemma only_reads_bind (M : Model) {A B} (p : prog A) (f : A → prog B) :
  only_reads M p → (∀ a, only_reads M (f a)) → only_reads M (p ≫= f).
Proof.
  intros Hp Hf w. rewrite run_bind. destruct (Hp w) as (Hw & Ht & Ho).
  destruct (run M p w) as [[[a| |] w1] t1]; simpl in *; [|done..]. subst w1.
  destruct (Hf a w) as (Hw' & Ht' & Ho').
  destruct (run M (f a) w) as [[o w2] t2]; simpl in *.
  split; [done|]. split; [by apply Forall_app|done].
Qed.

Lemma IntVarElement_Store_only_reads (M : Model) (e : IntVarElement.t) :
  only_reads M (IntVarElement.Store e).
Proof.
  unfold IntVarElement.Store.
  apply only_reads_bind; [apply only_reads_via_ask|intros mi].
  apply only_reads_bind; [apply only_reads_via_ask|intros ma].
  apply only_reads_ret.
Qed.

Lemma IntervalVarElement_Store_only_reads (M : Model)
  (e : IntervalVarElement.t) :
  only_reads M (IntervalVarElement.Store e).
Proof.
  unfold IntervalVarElement.Store.
  apply only_reads_bind; [apply only_reads_via_ask|intros pmin].
  apply only_reads_bind; [apply only_reads_via_ask|intros pmax].
  case_bool_decide; [|apply only_reads_ret].
  do 6 (apply only_reads_bind; [apply only_reads_via_ask|intros ?]).
  apply only_reads_ret.
Qed.

Lemma store_all_only_reads {V E} `{AssignmentElement V E} (M : Model)
  (l : list E) :
  (∀ e, only_reads M (elt_Store e)) →
  only_reads M (AssignmentContainer.store_all l).
Proof.
  intros He. induction l as [|e l IH]; [apply only_reads_ret|].
  cbn [AssignmentContainer.store_all].
  apply only_reads_bind; [apply He|intros e'].
  apply only_reads_bind; [apply IH|intros l']. apply only_reads_ret.
Qed.

Lemma Assignment_Store_only_reads (M : Model) (this : Assignment.t)
  (h : Assignment.heap) :
  only_reads M (Assignment.Store this h).
Proof.
  unfold Assignment.Store, AssignmentContainer.Store.
  apply only_reads_bind.
  { apply only_reads_bind; [|intros; apply only_reads_ret].
    apply store_all_only_reads. apply IntVarElement_Store_only_reads. }
  intros ic. apply only_reads_bind.
  { apply only_reads_bind; [|intros; apply only_reads_ret].
    apply store_all_only_reads. apply IntervalVarElement_Store_only_reads. }
  intros vc. simpl.
  destruct (Assignment.obj_element_ this); [|apply only_reads_ret].
  apply only_reads_bind; [apply only_reads_lift|intros e].
  apply only_reads_bind; [apply IntVarElement_Store_only_reads|intros e'].
  apply only_reads_ret.
Qed.

Lemma append_elements_only_reads {V E} `{AssignmentElement V E} (M : Model)
  (l : list E) (out : string) :
  only_reads M (Assignment.append_elements out l).
Proof.
  revert out. induction l as [|e l IH]; intros out; [apply only_reads_ret|].
  cbn [Assignment.append_elements].
  apply only_reads_bind; [apply only_reads_via_ask_name|intros name].
  apply IH.
Qed.

Lemma Assignment_DebugString_only_reads (M : Model) (this : Assignment.t)
  (h : Assignment.heap) :
  only_reads M (Assignment.DebugString this h).
Proof.
  unfold Assignment.DebugString.
  apply only_reads_bind; [apply append_elements_only_reads|intros out1].
  apply only_reads_bind; [apply append_elements_only_reads|intros out2].
  apply only_reads_bind; [|intros; apply only_reads_ret].
  destruct (Assignment.obj_element_ this); [|apply only_reads_ret].
  apply only_reads_bind; [apply only_reads_lift|intros e].
  apply only_reads_ret.
Qed.

Lemma IdToElementMap_loop_only_reads {V E} `{AssignmentElement V E}
  (M : Model) (l : list E) (i : nat) (m : gmap string nat)
  (log : list string) :
  only_reads M (IdToElementMap_loop i l m log).
Proof.
  revert i m log. induction l as [|e l IH]; intros i m log;
    [apply only_reads_ret|].
  cbn [IdToElementMap_loop].
  apply only_reads_bind; [apply only_reads_via_ask_name|intros name].
  repeat case_bool_decide; apply IH.
Qed.

(** ** Storing an Assignment *)




(** X9: the operations that read the solver never call it.  [Store] of an
    Assignment, of an element of either kind and of the store node,
    [DebugString] and [IdToElementMap] leave every state of the solver as it
    is, issue no call of a mutator or of the queue, and so never end in a
    failure of the solver, whatever the Assignment holds. *)
Theorem reading_operations_never_call_the_solver (M : Model)
  (this : Assignment.t) (h : Assignment.heap)
  (container : AssignmentContainer.t IntVarElement.t)
  (intervals : AssignmentContainer.t IntervalVarElement.t)
  (id_to_element_map : option (gmap string nat))
  (e : IntVarElement.t) (ie : IntervalVarElement.t) :
  only_reads M (IntVarElement.Store e)
  ∧ only_reads M (IntervalVarElement.Store ie)
  ∧ only_reads M (Assignment.Store this h)
  ∧ only_reads M (StoreAssignment.Next this h)
  ∧ only_reads M (Assignment.DebugString this h)
  ∧ only_reads M (IdToElementMap container id_to_element_map)
  ∧ only_reads M (IdToElementMap intervals id_to_element_map).
Proof.
  split; [apply IntVarElement_Store_only_reads|].
  split; [apply IntervalVarElement_Store_only_reads|].
  split; [apply Assignment_Store_only_reads|].
  split.
  { unfold StoreAssignment.Next.
    apply only_reads_bind; [apply Assignment_Store_only_reads|intros r].
    apply only_reads_ret. }
  split; [apply Assignment_DebugString_only_reads|].
  split; unfold IdToElementMap;
    (apply only_reads_bind; [apply only_reads_lift|intros _]);
    apply IdToElementMap_loop_only_reads.
Qed.



(** ** Rendering an Assignment *)

Lemma string_app_nil_r (s : string) : s +:+ "" = s.
Proof.
  induction s as [|c s IH]; [reflexivity|].
  rewrite string_app_cons. by f_equal.
Qed.

Lemma append_elements_run {V E} `{AssignmentElement V E} (M : Model)
  (w : World M) (l : list E) :
  Forall (λ e, is_Some (elt_Var e)) l →
  ∃ body,
    ∀ out, run M (Assignment.append_elements out l) w
           = (Returned (out +:+ body), w,
              EvName ∘ elt_name <$> omap elt_Var l).
Proof.
  intros Hbound.
  induction Hbound as [|e l [v Hv] _ [body IH]].
  - exists "". intros out. cbn [Assignment.append_elements].
    rewrite string_app_nil_r. reflexivity.
  - exists (answer_name M (elt_name v) w +:+ " " +:+ elt_DebugString e
            +:+ " | " +:+ body).
    intros out. cbn [Assignment.append_elements omap list_omap]. rewrite Hv.
    unfold via, ask_name. cbn [mbind prog_bind prog_then run].
    change (prog_then (Ret ?a) ?f) with (f a). cbv beta.
    rewrite IH. rewrite !string_app_assoc. reflexivity.
Qed.

(** X11: [DebugString] of an Assignment.  When every element has a variable
    and the objective pointer addresses an element, the call returns, reads
    the name of each variable in the order of the containers and nothing
    else, and the text is enclosed between the opening [Assignment(] and a
    closing parenthesis.  An objective element that is deactivated is not
    rendered: the result is the one of the same Assignment without
    objective. *)
Theorem Assignment_DebugString_shape (M : Model) (w : World M)
  (this : Assignment.t) (h : Assignment.heap) :
  Forall (λ e, is_Some (IntVarElement.Var e))
    (AssignmentContainer.elements_ (Assignment.int_var_container_ this)) →
  Forall (λ e, is_Some (IntervalVarElement.Var e))
    (AssignmentContainer.elements_ (Assignment.interval_var_container_ this)) →
  (∀ l, Assignment.obj_element_ this = Some l → is_Some (h !! l)) →
  (∃ body,
     run M (Assignment.DebugString this h) w
     = (Returned ("Assignment(" +:+ body +:+ ")"), w,
        (EvName ∘ IntVar_name
         <$> omap IntVarElement.Var
               (AssignmentContainer.elements_
                  (Assignment.int_var_container_ this)))
        ++ (EvName ∘ IntervalVar_name
            <$> omap IntervalVarElement.Var
                  (AssignmentContainer.elements_
                     (Assignment.interval_var_container_ this)))))
  ∧ (∀ l e, Assignment.obj_element_ this = Some l → h !! l = Some e →
            IntVarElement.Activated e = false →
            run M (Assignment.DebugString this h) w
            = run M (Assignment.DebugString
                       (Assignment.Build
                          (Assignment.int_var_container_ this)
                          (Assignment.interval_var_container_ this)
                          None None) h) w).
Proof.
  intros Hints Hintervals Hptr.
  destruct (@append_elements_run IntVar IntVarElement.t
              IntVarElement_element M w _ Hints) as [b1 H1].
  destruct (@append_elements_run IntervalVar IntervalVarElement.t
              IntervalVarElement_element M w _ Hintervals) as [b2 H2].
  unfold Assignment.DebugString.
  rewrite run_bind, H1. cbv beta iota zeta.
  rewrite run_bind, H2. cbv beta iota zeta.
  rewrite run_bind. unfold Assignment.deref. split.
  - destruct (Assignment.obj_element_ this) as [l|] eqn:Hl.
    + destruct (Hptr l eq_refl) as [e He]. rewrite He.
      cbn [lift mbind prog_bind prog_then mret prog_ret run].
      rewrite !app_nil_r.
      destruct (IntVarElement.Activated e).
      * exists (b1 +:+ b2 +:+ IntVarElement.DebugString e).
        by rewrite !string_app_assoc.
      * exists (b1 +:+ b2). by rewrite !string_app_assoc.
    + cbn [lift mbind prog_bind prog_then mret prog_ret run].
      rewrite !app_nil_r. exists (b1 +:+ b2). by rewrite !string_app_assoc.
  - intros l e Hl He Hact. rewrite Hl, He.
    cbn [lift mbind prog_bind prog_then mret prog_ret run
         Assignment.obj_element_ Assignment.int_var_container_
         Assignment.interval_var_container_].
    rewrite Hact, run_bind, H1. cbv beta iota zeta. rewrite run_bind, H2.
    reflexivity.
Qed.

(** The witness of X11: the sample Assignment whose objective is deactivated
    renders as its two elements. *)
Lemma Assignment_DebugString_shape_witness :
  (run Engine.model (Assignment.DebugString Sample.other Sample.two_heap)
     Sample.solver).1.1
  = Returned "Assignment(x (...) | z (9) | )".
Proof.
  destruct (Assignment_DebugString_shape Engine.model Sample.solver
              Sample.other Sample.two_heap) as [_ Hskip].
  - repeat constructor; by eexists.
  - constructor.
  - intros l [= <-]. by eexists.
  - rewrite (Hskip 2%positive (IntVarElement.Build (Some Sample.y) 4 6 false))
      by reflexivity.
    vm_compute. reflexivity.
Defined.

(** ** The search nodes *)

(** X12: the two search nodes are leaves.  [Next] of the restore node does to
    the solver what [Restore] of its Assignment does, and [Next] of the store
    node does to the Assignment what [Store] does; when they return, the
    decision they return is NULL, so neither ever opens a branch.  The
    restore node fails exactly when [Restore] does, and then leaves the
    solver where [Restore] left it. *)
Theorem search_nodes_return_no_decision (M : Model) (w : World M)
  (assignment_ : Assignment.t) (h : Assignment.heap) :
  (run M (RestoreAssignment.Next assignment_) w
   = match run M (Assignment.Restore assignment_) w with
     | (Returned _, w', t) => (Returned None, w', t)
     | (Failed, w', t) => (Failed, w', t)
     | (Aborted, w', t) => (Aborted, w', t)
     end)
  ∧ (run M (StoreAssignment.Next assignment_ h) w
     = match run M (Assignment.Store assignment_ h) w with
       | (Returned r, w', t) => (Returned (None, r), w', t)
       | (Failed, w', t) => (Failed, w', t)
       | (Aborted, w', t) => (Aborted, w', t)
       end).
Proof.
  unfold RestoreAssignment.Next, StoreAssignment.Next.
  rewrite !run_bind. split.
  - destruct (run M (Assignment.Restore assignment_) w) as [[[[]| |] w'] t];
      cbn [run mret prog_ret]; by rewrite ?app_nil_r.
  - destruct (run M (Assignment.Store assignment_ h) w) as [[[r| |] w'] t];
      cbn [run mret prog_ret]; by rewrite ?app_nil_r.
Qed.

(** ** Adding variables *)

Section ContainerAdd.
Context {V E : Type} `{EqDecision V} `{AssignmentElement V E}.
Hypothesis new_Var : ∀ v : option V, elt_Var (elt_new v) = v.

Lemma Contains_app (v : option V) (c : AssignmentContainer.t E) (l : list E) :
  AssignmentContainer.Contains v c = true →
  AssignmentContainer.Contains v
    (AssignmentContainer.Build (AssignmentContainer.elements_ c ++ l)) = true.
Proof.
  unfold AssignmentContainer.Contains, AssignmentContainer.Find.
  intros Hc%bool_decide_eq_true. apply bool_decide_eq_true. simpl.
  destruct (list_find _ (AssignmentContainer.elements_ c)) as [[i e]|] eqn:Hf;
    [|by destruct Hc].
  exists i. erewrite (proj2 (list_find_app_Some _ _ _ i e)); [done|].
  by left.
Qed.

Lemma Add_elements (v : option V) (c : AssignmentContainer.t E) :
  (AssignmentContainer.Contains v c = true
   ∧ (AssignmentContainer.Add v c).1 = c)
  ∨ (AssignmentContainer.Contains v c = false
     ∧ (AssignmentContainer.Add v c).1
       = AssignmentContainer.Build
           (AssignmentContainer.elements_ c ++ [elt_new v])).
Proof.
  unfold AssignmentContainer.Add, AssignmentContainer.Contains.
  destruct (AssignmentContainer.Find v c) as [i|] eqn:Hf.
  - left. split; [|done]. apply bool_decide_eq_true. by eexists.
  - right. split; [|done]. apply bool_decide_eq_false. by intros [? ?].
Qed.

Lemma Add_Contains (v : option V) (c : AssignmentContainer.t E) :
  AssignmentContainer.Contains v (AssignmentContainer.Add v c).1 = true.
Proof.
  destruct (Add_elements v c) as [[Hc ->]|[Hc ->]]; [done|].
  unfold AssignmentContainer.Contains, AssignmentContainer.Find in *.
  apply bool_decide_eq_true. simpl.
  apply bool_decide_eq_false in Hc.
  destruct (list_find _ (AssignmentContainer.elements_ c)) as [[i e]|] eqn:Hf;
    [exfalso; apply Hc; by eexists|].
  exists (length (AssignmentContainer.elements_ c)).
  erewrite (proj2 (list_find_app_Some _ _ _ _ (elt_new v))); [done|].
  right. split; [done|]. split; [done|].
  rewrite Nat.sub_diag. simpl. by rewrite decide_True by apply new_Var.
Qed.

Lemma add_all_elements (vs : list (option V)) (c : AssignmentContainer.t E) :
  ∃ added,
    AssignmentContainer.elements_
      (foldl (λ c v, (AssignmentContainer.Add v c).1) c vs)
    = AssignmentContainer.elements_ c ++ added
    ∧ Forall (λ e, e = elt_new (elt_Var e)
                   ∧ elt_Var e ∈ vs
                   ∧ AssignmentContainer.Contains (elt_Var e) c = false)
        added
    ∧ NoDup (elt_Var <$> added)
    ∧ (∀ v, v ∈ vs ∨ AssignmentContainer.Contains v c = true →
            AssignmentContainer.Contains v
              (foldl (λ c v, (AssignmentContainer.Add v c).1) c vs) = true).
Proof.
  revert c. induction vs as [|v vs IH]; intros c.
  - exists []. rewrite app_nil_r. split; [done|]. split; [done|].
    split; [constructor|]. intros v [Hv|Hv]; [by apply elem_of_nil in Hv|done].
  - cbn [foldl].
    destruct (IH (AssignmentContainer.Add v c).1)
      as (added & Hel & Hadded & Hnd & Hin).
    destruct (Add_elements v c) as [[Hc Hadd]|[Hc Hadd]].
    + rewrite Hadd in *. exists added. split; [done|]. split; [|split; [done|]].
      * eapply Forall_impl; [exact Hadded|]. intros e (? & ? & ?).
        split; [done|]. split; [by right|done].
      * intros v' [Hv'|Hv']; apply Hin; [|by right].
        apply elem_of_cons in Hv' as [->|Hv']; [by right|by left].
    + pose proof (Add_Contains v c) as Hv. rewrite Hadd in *. simpl in Hel.
      exists (elt_new v :: added). rewrite Hel, <- app_assoc.
      split; [done|]. split; [|split].
      * constructor.
        { rewrite new_Var. split; [done|]. split; [by left|done]. }
        eapply Forall_impl; [exact Hadded|]. intros e (? & ? & Hce).
        split; [done|]. split; [by right|].
        destruct (AssignmentContainer.Contains (elt_Var e) c) eqn:Hce';
          [|done].
        apply (Contains_app _ _ [elt_new v]) in Hce'. congruence.
      * rewrite fmap_cons, new_Var. constructor; [|done].
        intros (e & He & Hine)%list_elem_of_fmap.
        rewrite Forall_forall in Hadded.
        destruct (Hadded e Hine) as (_ & _ & Hce). congruence.
      * intros v' [Hv'|Hv']; apply Hin.
        -- apply elem_of_cons in Hv' as [->|Hv']; [by right|by left].
        -- right. by apply (Contains_app _ _ [elt_new v]).
Qed.

Lemma add_all_tracked (vs : list (option V)) (c : AssignmentContainer.t E) :
  (∀ v, v ∈ vs → AssignmentContainer.Contains v c = true) →
  foldl (λ c v, (AssignmentContainer.Add v c).1) c vs = c.
Proof.
  induction vs as [|v vs IH]; intros Hvs; [done|]. cbn [foldl].
  destruct (Add_elements v c) as [[_ ->]|[Hc _]].
  - apply IH. intros v' Hv'. apply Hvs. by right.
  - rewrite Hvs in Hc by left. done.
Qed.

End ContainerAdd.

Lemma AddAll_containers (vs : list (option IntVar)) (this : Assignment.t) :
  Assignment.AddAll vs this
  = Assignment.set_int_var_container
      (foldl (λ c v, (AssignmentContainer.Add v c).1)
         (Assignment.int_var_container_ this) vs) this.
Proof.
  unfold Assignment.AddAll. revert this.
  induction vs as [|v vs IH]; intros this; [by destruct this|].
  cbn [foldl]. rewrite IH. unfold Assignment.Add.
  by destruct (AssignmentContainer.Add v _).
Qed.

Lemma AddAllInterval_containers (vs : list (option IntervalVar))
  (this : Assignment.t) :
  Assignment.AddAllInterval vs this
  = Assignment.set_interval_var_container
      (foldl (λ c v, (AssignmentContainer.Add v c).1)
         (Assignment.interval_var_container_ this) vs) this.
Proof.
  unfold Assignment.AddAllInterval. revert this.
  induction vs as [|v vs IH]; intros this; [by destruct this|].
  cbn [foldl]. rewrite IH. unfold Assignment.AddInterval.
  by destruct (AssignmentContainer.Add v _).
Qed.

(** X13: adding a sequence of variables tracks each of them once.  [Add] of
    a sequence of integer variables keeps the elements the Assignment has, in
    their order, and appends one freshly constructed element for each
    variable of the sequence that was not tracked, and one only when the
    sequence repeats a variable; afterwards every variable of the sequence is
    tracked.  Nothing else of the Assignment changes, and adding the same
    sequence again changes nothing.  The same holds for interval
    variables. *)
Theorem AddAll_tracks_each_variable_once
  (vs : list (option IntVar)) (ivs : list (option IntervalVar))
  (this : Assignment.t) :
  (∃ added,
     Assignment.AddAll vs this
     = Assignment.set_int_var_container
         (AssignmentContainer.Build
            (AssignmentContainer.elements_
               (Assignment.int_var_container_ this) ++ added)) this
     ∧ Forall (λ e, e = IntVarElement.new (IntVarElement.Var e)
                    ∧ IntVarElement.Var e ∈ vs
                    ∧ Assignment.Contains (IntVarElement.Var e) this = false)
         added
     ∧ NoDup (IntVarElement.Var <$> added)
     ∧ (∀ v, v ∈ vs → Assignment.Contains v (Assignment.AddAll vs this) = true)
     ∧ Assignment.AddAll vs (Assignment.AddAll vs this)
       = Assignment.AddAll vs this)
  ∧ (∃ added,
       Assignment.AddAllInterval ivs this
       = Assignment.set_interval_var_container
           (AssignmentContainer.Build
              (AssignmentContainer.elements_
                 (Assignment.interval_var_container_ this) ++ added)) this
       ∧ Forall (λ e, e = IntervalVarElement.new (IntervalVarElement.Var e)
                      ∧ IntervalVarElement.Var e ∈ ivs
                      ∧ Assignment.ContainsInterval
                          (IntervalVarElement.Var e) this = false)
           added
       ∧ NoDup (IntervalVarElement.Var <$> added)
       ∧ (∀ v, v ∈ ivs →
               Assignment.ContainsInterval v
                 (Assignment.AddAllInterval ivs this) = true)
       ∧ Assignment.AddAllInterval ivs (Assignment.AddAllInterval ivs this)
         = Assignment.AddAllInterval ivs this).
Proof.
  split.
  - destruct (@add_all_elements IntVar IntVarElement.t _ IntVarElement_element
                (λ v, eq_refl) vs (Assignment.int_var_container_ this))
      as (added & Hel & Hadded & Hnd & Hin).
    exists added. rewrite !AddAll_containers.
    destruct (foldl _ (Assignment.int_var_container_ this) vs) as [l] eqn:Hf.
    simpl in Hel. subst l.
    split; [done|]. split; [exact Hadded|]. split; [exact Hnd|]. split.
    + intros v Hv. unfold Assignment.Contains. simpl. apply Hin.
      by left.
    + unfold Assignment.set_int_var_container. simpl. f_equal.
      apply (@add_all_tracked IntVar IntVarElement.t _ IntVarElement_element).
      intros v Hv. apply Hin. by left.
  - destruct (@add_all_elements IntervalVar IntervalVarElement.t _
                IntervalVarElement_element (λ v, eq_refl) ivs
                (Assignment.interval_var_container_ this))
      as (added & Hel & Hadded & Hnd & Hin).
    exists added. rewrite !AddAllInterval_containers.
    destruct (foldl _ (Assignment.interval_var_container_ this) ivs) as [l]
      eqn:Hf.
    simpl in Hel. subst l.
    split; [done|]. split; [exact Hadded|]. split; [exact Hnd|]. split.
    + intros v Hv. unfold Assignment.ContainsInterval. simpl. apply Hin.
      by left.
    + unfold Assignment.set_interval_var_container. simpl. f_equal.
      apply (@add_all_tracked IntervalVar IntervalVarElement.t _
               IntervalVarElement_element).
      intros v Hv. apply Hin. by left.
Qed.

(** ** Restoring what was just stored *)

Lemma IntVarElement_Store_Restore_idle (M : Model) (w wf : World M)
  (e : IntVarElement.t) (v : IntVar) :
  (∀ q, answer M q wf = answer M q w) →
  IntVarElement.var_ e = Some v →
  step M (IntVar_SetRange v (answer M (IntVar_Min v) wf)
            (answer M (IntVar_Max v) wf)) wf = Some wf →
  ∃ e' t t',
    run M (IntVarElement.Store e) w = (Returned e', w, t)
    ∧ run M (IntVarElement.Restore e') wf = (Returned tt, wf, t').
Proof.
  intros Hans Hv Hidle. rewrite (IntVarElement_Store_run M e v w Hv).
  eexists _, _, _. split; [reflexivity|].
  unfold IntVarElement.Restore. cbn [IntVarElement.var_ via
    IntVarElement.min_ IntVarElement.max_].
  rewrite run_call, <- !Hans, Hidle. reflexivity.
Qed.

Lemma IntervalVarElement_Store_Restore_idle (M : Model) (w wf : World M)
  (e : IntervalVarElement.t) (v : IntervalVar) :
  (∀ q, answer M q wf = answer M q w) →
  IntervalVarElement.var_ e = Some v →
  own_domain_idle M wf v →
  ∃ e' t t',
    run M (IntervalVarElement.Store e) w = (Returned e', w, t)
    ∧ run M (IntervalVarElement.Restore e') wf = (Returned tt, wf, t').
Proof.
  intros Hans Hv (Hperf & Hranges).
  repeat match type of Hperf with
         | context [answer M ?q wf] => rewrite (Hans q) in Hperf
         end.
  repeat match type of Hranges with
         | context [answer M ?q wf] => rewrite (Hans q) in Hranges
         end.
  assert (Hstore : ∃ e' t,
    run M (IntervalVarElement.Store e) w = (Returned e', w, t)
    ∧ IntervalVarElement.var_ e' = Some v
    ∧ Forall (λ c, step M c wf = Some wf) (Restore_calls v e')).
  { destruct e as [var smin smax dmin dmax emin emax pmin0 pmax0 act].
    simpl in Hv. subst var. unfold IntervalVarElement.Store. simpl.
    destruct (bool_decide_reflect
                (answer M (IntervalVar_PerformedMax v) w ≠ 0)) as [H0|H0].
    - eexists _, _. split; [reflexivity|]. split; [reflexivity|].
      unfold Restore_calls. simpl.
      rewrite (bool_decide_eq_true_2 (_ ≠ 0)) by exact H0.
      destruct (Hranges H0) as (Hs & Hd & He).
      apply Forall_app. split; [|by repeat constructor].
      case_bool_decide; [|constructor].
      repeat constructor. apply Hperf. congruence.
    - eexists _, _. split; [reflexivity|]. split; [reflexivity|].
      unfold Restore_calls. simpl.
      rewrite (bool_decide_eq_false_2 (_ ≠ 0)) by exact H0.
      rewrite app_nil_r. case_bool_decide; [|constructor].
      repeat constructor. apply Hperf. congruence. }
  destruct Hstore as (e' & t & Hrun & Hv' & Hidle).
  exists e', t. eexists. split; [exact Hrun|].
  rewrite (IntervalVarElement_Restore_perform M wf e' v Hv').
  by apply perform_idle.
Qed.

Lemma store_restore_all {V E} `{AssignmentElement V E} (M : Model)
  (w wf : World M) (l : list E) :
  Forall (λ e, ∃ e' t t',
            run M (elt_Store e) w = (Returned e', w, t)
            ∧ run M (elt_Restore e') wf = (Returned tt, wf, t')) l →
  ∃ l' t t',
    run M (AssignmentContainer.store_all l) w = (Returned l', w, t)
    ∧ run M (AssignmentContainer.restore_all l') wf = (Returned tt, wf, t').
Proof.
  induction 1 as [|e l (e' & t1 & t1' & Hs & Hr) _ (l' & t2 & t2' & IHs & IHr)].
  - by eexists [], _, _.
  - exists (e' :: l').
    cbn [AssignmentContainer.store_all AssignmentContainer.restore_all].
    rewrite run_bind, Hs, run_bind, IHs, run_bind.
    destruct (elt_Activated e'); eexists _, _; (split; [reflexivity|]).
    + rewrite Hr, IHr. reflexivity.
    + cbn [run mret prog_ret]. rewrite IHr. reflexivity.
Qed.

Lemma Forall_omap_bound {A B} (f : A → option B) (P : B → Prop)
  (l : list A) :
  Forall (λ a, is_Some (f a)) l → Forall P (omap f l) →
  Forall (λ a, ∃ b, f a = Some b ∧ P b) l.
Proof.
  induction 1 as [|a l [b Hb] _ IH]; [constructor|].
  cbn [omap list_omap]. rewrite Hb. intros [HP Hl]%Forall_cons.
  constructor; [by exists b|by apply IH].
Qed.

(** X14: restoring what was just stored leaves the solver as it was.  In a
    state of a solver in which the push of its own domain to a tracked
    variable is idle under a frozen queue, [Store] returns, [Restore] of the
    stored Assignment returns without failure and ends in the state it
    started from, and so does the store node followed by the restore node;
    neither node returns a decision. *)
Theorem Assignment_Store_then_Restore (M : Model) (w wf : World M)
  (this : Assignment.t) (h : Assignment.heap) :
  Forall (λ e, is_Some (IntVarElement.Var e))
    (AssignmentContainer.elements_ (Assignment.int_var_container_ this)) →
  Forall (λ e, is_Some (IntervalVarElement.Var e))
    (AssignmentContainer.elements_ (Assignment.interval_var_container_ this)) →
  (∀ l, Assignment.obj_element_ this = Some l →
        ∃ e, h !! l = Some e ∧ is_Some (IntVarElement.Var e)) →
  own_domains_idle M w wf
    (omap IntVarElement.Var
       (AssignmentContainer.elements_ (Assignment.int_var_container_ this)))
    (omap IntervalVarElement.Var
       (AssignmentContainer.elements_
          (Assignment.interval_var_container_ this))) →
  ∃ this' h' t t',
    run M (Assignment.Store this h) w = (Returned (this', h'), w, t)
    ∧ run M (Assignment.Restore this') w = (Returned tt, w, t')
    ∧ run M (r ← StoreAssignment.Next this h;
             RestoreAssignment.Next r.2.1) w
      = (Returned None, w, t ++ t').
Proof.
  intros Hints Hintervals Hobj (Hfreeze & Hunfreeze & Hans & Hi & Hv).
  pose proof (Forall_omap_bound _ _ _ Hints Hi) as Hi'.
  pose proof (Forall_omap_bound _ _ _ Hintervals Hv) as Hv'.
  destruct (@store_restore_all IntVar IntVarElement.t IntVarElement_element
              M w wf
              (AssignmentContainer.elements_
                 (Assignment.int_var_container_ this)))
    as (l1 & t1 & t1' & Hs1 & Hr1).
  { eapply Forall_impl; [exact Hi'|]. intros e (v & Hev & Hidle).
    by apply (IntVarElement_Store_Restore_idle M w wf e v). }
  destruct (@store_restore_all IntervalVar IntervalVarElement.t
              IntervalVarElement_element M w wf
              (AssignmentContainer.elements_
                 (Assignment.interval_var_container_ this)))
    as (l2 & t2 & t2' & Hs2 & Hr2).
  { eapply Forall_impl; [exact Hv'|]. intros e (v & Hev & Hidle).
    by apply (IntervalVarElement_Store_Restore_idle M w wf e v). }
  assert (Hstore : ∃ h' t,
    run M (Assignment.Store this h) w
    = (Returned (Assignment.Build (AssignmentContainer.Build l1)
                   (AssignmentContainer.Build l2)
                   (Assignment.obj_element_ this)
                   (Assignment.objective_ this), h'), w, t)).
  { unfold Assignment.Store, AssignmentContainer.Store.
    rewrite run_bind, run_bind, Hs1. cbn [run mret prog_ret].
    cbv beta iota zeta.
    cbn [Assignment.set_int_var_container Assignment.interval_var_container_].
    rewrite run_bind, run_bind, Hs2. cbn [run mret prog_ret].
    cbv beta iota zeta.
    cbn [Assignment.set_interval_var_container Assignment.obj_element_
         Assignment.set_int_var_container Assignment.int_var_container_
         Assignment.objective_].
    destruct (Assignment.obj_element_ this) as [l|] eqn:Hl.
    - destruct (Hobj l eq_refl) as (e & He & v & Hev).
      unfold Assignment.deref. rewrite run_bind, He.
      cbn [lift run]. cbv beta iota zeta.
      rewrite run_bind, (IntVarElement_Store_run M e v w Hev).
      cbn [run mret prog_ret].
      unfold Assignment.set_interval_var_container,
        Assignment.set_int_var_container.
      cbn [Assignment.obj_element_ Assignment.objective_
           Assignment.int_var_container_]. rewrite Hl. by eexists _, _.
    - cbn [run mret prog_ret].
      unfold Assignment.set_interval_var_container,
        Assignment.set_int_var_container.
      cbn [Assignment.obj_element_ Assignment.objective_
           Assignment.int_var_container_]. rewrite Hl. by eexists _, _. }
  destruct Hstore as (h' & t & Hstore).
  assert (Hrestore : ∃ t',
    run M (Assignment.Restore
             (Assignment.Build (AssignmentContainer.Build l1)
                (AssignmentContainer.Build l2)
                (Assignment.obj_element_ this)
                (Assignment.objective_ this))) w
    = (Returned tt, w, t')).
  { unfold Assignment.Restore, AssignmentContainer.Restore.
    cbn [Assignment.int_var_container_ Assignment.interval_var_container_
         AssignmentContainer.elements_].
    rewrite run_bind, run_call, Hfreeze. cbv beta iota zeta.
    rewrite run_bind, Hr1. cbv beta iota zeta.
    rewrite run_bind, Hr2. cbv beta iota zeta.
    rewrite run_call, Hunfreeze. by eexists. }
  destruct Hrestore as (t' & Hrestore).
  eexists _, h', t, t'. split; [exact Hstore|]. split; [exact Hrestore|].
  unfold StoreAssignment.Next, RestoreAssignment.Next.
  rewrite run_bind, run_bind, Hstore. cbn [run mret prog_ret].
  cbv beta iota zeta. cbn [fst snd]. rewrite run_bind, Hrestore.
  cbn [run mret prog_ret]. by rewrite !app_nil_r.
Qed.

(** The witness of X14: the sample Assignment in the sample solver, whose
    variables all have a domain that is not empty. *)
Lemma Assignment_Store_then_Restore_witness :
  ∃ this' h' t t',
    run Engine.model (Assignment.Store Sample.tracked ∅) Sample.solver
    = (Returned (this', h'), Sample.solver, t)
    ∧ Assignment.Min (Some Sample.x) this' = Ok 0
    ∧ Assignment.Max (Some Sample.x) this' = Ok 10
    ∧ run Engine.model (Assignment.Restore this') Sample.solver
      = (Returned tt, Sample.solver, t').
Proof.
  destruct (Assignment_Store_then_Restore Engine.model Sample.solver
              NamedSample.frozen_solver Sample.tracked ∅)
    as (this' & h' & t & t' & Hstore & Hrestore & _).
  - repeat constructor; by eexists.
  - repeat constructor; by eexists.
  - intros l [=].
  - split; [reflexivity|]. split; [reflexivity|].
    split; [by intros []|]. split.
    + repeat constructor.
    + repeat constructor. intros Hp. vm_compute in Hp. discriminate.
  - exists this', h', t, t'. split; [exact Hstore|].
    split; [|split; [|exact Hrestore]];
      vm_compute in Hstore; by injection Hstore as <- _ _.
Defined.

Lemma call_trace_no_read (M : Model) (c : command) (w : World M) :
  Forall (λ ev, is_read ev = false) (run M (call c) w).2.
Proof. rewrite run_call. destruct (step M c w); by repeat constructor. Qed.

Lemma IntVarElement_Restore_no_read (M : Model) (e : IntVarElement.t)
  (w : World M) :
  Forall (λ ev, is_read ev = false) (run M (IntVarElement.Restore e) w).2.
Proof.
  eapply Forall_impl; [apply IntVarElement_Restore_trace|].
  by intros ev (v & _ & ->).
Qed.

Lemma IntervalVarElement_Restore_no_read (M : Model)
  (e : IntervalVarElement.t) (w : World M) :
  Forall (λ ev, is_read ev = false)
    (run M (IntervalVarElement.Restore e) w).2.
Proof.
  destruct (IntervalVarElement.var_ e) as [v|] eqn:Hv.
  - rewrite (IntervalVarElement_Restore_perform M w e v Hv).
    eapply Forall_impl; [apply perform_trace|]. by intros ev (c & _ & ->).
  - unfold IntervalVarElement.Restore. rewrite Hv.
    apply run_trace_bind.
    + case_bool_decide; constructor.
    + intros _ w1. case_bool_decide; constructor.
Qed.

(** X15: [Restore] never reads the solver.  Every event of the restore of an
    element of either kind, of an Assignment and of the restore node is a
    call of a mutator or of the queue; no accessor of a variable is
    called. *)
Theorem Restore_never_reads_the_solver (M : Model) (w : World M)
  (this : Assignment.t) (e : IntVarElement.t) (ie : IntervalVarElement.t) :
  Forall (λ ev, is_read ev = false) (run M (IntVarElement.Restore e) w).2
  ∧ Forall (λ ev, is_read ev = false)
      (run M (IntervalVarElement.Restore ie) w).2
  ∧ Forall (λ ev, is_read ev = false) (run M (Assignment.Restore this) w).2
  ∧ Forall (λ ev, is_read ev = false)
      (run M (RestoreAssignment.Next this) w).2.
Proof.
  split; [apply IntVarElement_Restore_no_read|].
  split; [apply IntervalVarElement_Restore_no_read|].
  assert (Hrestore : ∀ w1,
    Forall (λ ev, is_read ev = false) (run M (Assignment.Restore this) w1).2).
  { intros w1. unfold Assignment.Restore, AssignmentContainer.Restore.
    apply run_trace_bind; [apply call_trace_no_read|intros _ w2].
    apply run_trace_bind.
    { apply restore_all_trace. intros e0 w3 _ _.
      apply IntVarElement_Restore_no_read. }
    intros _ w3. apply run_trace_bind.
    { apply restore_all_trace. intros e0 w4 _ _.
      apply IntervalVarElement_Restore_no_read. }
    intros _ w4. apply call_trace_no_read. }
  split; [apply Hrestore|].
  unfold RestoreAssignment.Next. apply run_trace_bind; [apply Hrestore|].
  intros _ w1. constructor.
Qed.
